(** * The users API of [app.js]: a shallow embedding and its properties

    The program is an Express application whose handlers read a JSON file,
    parse it, compute on the parsed array and (for [POST /users]) write the
    array back.  The embedding follows that shape:

    - JavaScript strings are sequences of UTF-16 code units;
    - JavaScript values are the values [JSON.parse] can build, plus the NaN
      that arithmetic can produce; a Number is a binary64 value;
    - [JSON.parse] and [JSON.stringify] are executable functions on those;
    - the disk is passed explicitly through the handlers, and the outcome of
      the one write the program performs is an input of the handler;
    - every handler is a function from the request and the disk to a response
      (and a new disk).  *)

From Stdlib Require Import Ascii String List ZArith NArith Lia Bool.
Import ListNotations.

(* ===================================================================== *)
(** * Strings *)
(* ===================================================================== *)

(** A JavaScript string is a sequence of 16-bit code units.  [fs.readFile]
    with the ['utf8'] encoding hands the decoded text to the program, and
    [fs.writeFile] takes such a text: the disk below stores texts. *)
Definition char := N.
Definition jsstring := list char.

Definition ch (a : ascii) : char := N_of_ascii a.
Definition str (s : string) : jsstring := map ch (list_ascii_of_string s).

Definition LF : char := 10%N.

Fixpoint str_eqb (s t : jsstring) : bool :=
  match s, t with
  | [], [] => true
  | c :: s', d :: t' => N.eqb c d && str_eqb s' t'
  | _, _ => false
  end.

Definition is_digit (c : char) : bool := (N.leb 48 c && N.leb c 57)%N.

(** The decimal digits found at the start of a string, as digit values, and
    the rest of the string. *)
Fixpoint scan_digits (s : jsstring) : list N * jsstring :=
  match s with
  | c :: s' =>
      if is_digit c
      then let (ds, r) := scan_digits s' in ((c - 48)%N :: ds, r)
      else ([], s)
  | [] => ([], [])
  end.

Definition digits_val (ds : list N) : N :=
  fold_left (fun a d => (10 * a + d)%N) ds 0%N.

Definition digit_char (d : N) : char := (48 + d)%N.
Definition digit_chars (ds : list N) : jsstring := map digit_char ds.

Fixpoint digits_fuel (fuel : nat) (n : N) (acc : list N) : list N :=
  match fuel with
  | O => n :: acc
  | S f =>
      if (n <? 10)%N then n :: acc
      else digits_fuel f (n / 10)%N ((n mod 10)%N :: acc)
  end.

(** The decimal digits of [n], most significant first; [[0]] for zero. *)
Definition digits (n : N) : list N := digits_fuel (N.to_nat (N.size n)) n [].

(* ===================================================================== *)
(** * Numbers *)
(* ===================================================================== *)

(** A Number is a binary64 value.  A finite one is written here by its
    name: the shortest decimal that rounds to it, which is the decimal that
    Number::toString prints.  [Int z] is the name [z] when that decimal is
    an integer, [Dec m e] the name [m * 10^-e] otherwise (with [0 < e] and
    [m] not a multiple of ten, see [num_ok]).  Reading a literal, [parseInt]
    and [+ 1] round to binary64 ([make_number], [of_rational], [num_succ]
    below); two names are compared as decimals, which orders them as the
    values they name.  Minus zero is not told from zero: it prints as [0],
    is strictly equal to zero and is falsy, so the program cannot tell them
    apart either. *)
Inductive number :=
| Int (z : Z)
| Dec (m e : Z)
| NaN
| Inf (neg : bool).

Definition num_ok (n : number) : Prop :=
  match n with
  | Dec m e => (0 < e /\ m mod 10 <> 0)%Z
  | _ => True
  end.

Definition is_finite (n : number) : bool :=
  match n with Int _ | Dec _ _ => true | _ => false end.

Definition number_eqb (x y : number) : bool :=
  match x, y with
  | Int a, Int b => (a =? b)%Z
  | Dec m e, Dec m' e' => (m =? m')%Z && (e =? e')%Z
  | NaN, NaN => true
  | Inf a, Inf b => Bool.eqb a b
  | _, _ => false
  end.

(** ** Decimals *)

(** Divide out up to [fuel] factors of ten. *)
Fixpoint strip_zeros (fuel : nat) (d t : Z) : Z * Z :=
  match fuel with
  | O => (d, t)
  | S f => if (d mod 10 =? 0)%Z then strip_zeros f (d / 10)%Z (t + 1)%Z else (d, t)
  end.

(** The decimal [d * 10^t], for [0 < d], without trailing zeros in [d]. *)
Definition strip (d t : Z) : Z * Z := strip_zeros (Z.to_nat (Z.log2 d)) d t.

(** The decimal [d * 10^t] as a fraction. *)
Definition frac (d t : Z) : Z * Z :=
  if (0 <=? t)%Z then (d * 10 ^ t, 1)%Z else (d, 10 ^ (- t))%Z.

(** The number whose name is the decimal [(-1)^neg * d * 10^t], for
    [0 < d]. *)
Definition decimal (neg : bool) (d t : Z) : number :=
  let sg := fun x : Z => if neg then (- x)%Z else x in
  let (d', t') := strip d t in
  if (0 <=? t')%Z then Int (sg (d' * 10 ^ t')%Z) else Dec (sg d') (- t').

(** ** Rounding to binary64 *)

(** A positive binary64 value is [q * 2^e] with [2^52 <= q < 2^53] and
    [-1074 <= e <= 971], or with [0 < q < 2^52] and [e = -1074]. *)
Inductive rounded :=
| Zero
| Fin (q e : Z)
| Over.

Definition rounded_eqb (x y : rounded) : bool :=
  match x, y with
  | Zero, Zero | Over, Over => true
  | Fin q e, Fin q' e' => (q =? q')%Z && (e =? e')%Z
  | _, _ => false
  end.

(** [n / d / 2^e] as a fraction. *)
Definition scaled (n d e : Z) : Z * Z :=
  if (0 <=? e)%Z then (n, d * 2 ^ e)%Z else (n * 2 ^ (- e), d)%Z.

(** The binary64 value nearest to [n / d], for [0 < n] and [0 < d]; ties
    go to the even significand.  [Over] from [2^1024 - 2^970] on. *)
Definition rnd (n d : Z) : rounded :=
  let p := (Z.log2 n - Z.log2 d)%Z in
  let e0 := Z.max (p - 52) (- 1074) in
  let e1 :=
    let (a, b) := scaled n d e0 in
    if ((- 1074 <? e0) && (a / b <? 2 ^ 52))%Z then (e0 - 1)%Z else e0 in
  let (a, b) := scaled n d e1 in
  let q := (a / b)%Z in
  let r := (a mod b)%Z in
  let q' := if ((b <? 2 * r) || ((2 * r =? b) && Z.odd q))%Z then (q + 1)%Z else q in
  let (q'', e'') := if (q' =? 2 ^ 53)%Z then (2 ^ 52, e1 + 1)%Z else (q', e1) in
  if (q'' =? 0)%Z then Zero
  else if (971 <? e'')%Z then Over
  else Fin q'' e''.

(** The binary64 value nearest to the decimal [d * 10^t]. *)
Definition rnd_dec (d t : Z) : rounded :=
  let (d', t') := strip d t in
  let (n, dd) := frac d' t' in
  rnd n dd.

(** The decimal [s * 10^t] names [q * 2^e]: it rounds to it. *)
Definition names (s t q e : Z) : bool :=
  (0 <? s)%Z && rounded_eqb (rnd_dec s t) (Fin q e).

(** The shortest decimal that names [xn / xd = q * 2^e], looked for among
    those of [k], [k + 1], ... digits: with [k] digits the two decimals next
    to the value, and of two that name it the closer one, the even one when
    they are equally close.  [n10] is the number of digits of the integer
    part of the value (zero or less below one). *)
Fixpoint shortest_from (fuel : nat) (k q e xn xd n10 : Z) : option (Z * Z) :=
  match fuel with
  | O => None
  | S f =>
      let t := (n10 - k)%Z in
      let (a, b) := if (0 <=? t)%Z then (xn, xd * 10 ^ t)%Z else (xn * 10 ^ (- t), xd)%Z in
      let lo := (a / b)%Z in
      let hi := (lo + 1)%Z in
      match names lo t q e, names hi t q e with
      | true, true =>
          let r := (a - lo * b)%Z in
          Some (if (2 * r <? b)%Z then lo
                else if (b <? 2 * r)%Z then hi
                else if Z.even lo then lo else hi, t)
      | true, false => Some (lo, t)
      | false, true => Some (hi, t)
      | false, false => shortest_from f (k + 1)%Z q e xn xd n10
      end
  end.

(** The digits [s] and the exponent [t] of the name [s * 10^t] of
    [q * 2^e] (step 5 of Number::toString: the least number of digits).
    Seventeen digits are enough to name every binary64 value, so the
    search does not go further. *)
Definition shortest (q e : Z) : option (Z * Z) :=
  let (xn, xd) := scaled q 1 (- e) in
  let n10 := (Z.of_nat (length (digits (Z.to_N (xn * 10 ^ 400 / xd)))) - 400)%Z in
  shortest_from 17 1 q e xn xd n10.

(** The Number nearest to [(-1)^neg * n / d], for [0 <= n] and [0 < d].
    An integer up to [2^53] is a binary64 value and is its own name. *)
Definition of_rational (neg : bool) (n d : Z) : number :=
  let sg := fun x : Z => if neg then (- x)%Z else x in
  if (n =? 0)%Z then Int 0
  else if ((n mod d =? 0) && (n / d <=? 2 ^ 53))%Z then Int (sg (n / d)%Z)
  else
    match rnd n d with
    | Zero => Int 0
    | Over => Inf neg
    | Fin q e =>
        match shortest q e with
        | Some (s, t) => decimal neg s t
        | None => NaN
        end
    end.

(** The Number that the literal [(-1)^neg * d * 10^t] denotes, for
    [0 <= d]: the binary64 value nearest to it (StringToNumber rounds the
    mathematical value of the literal). *)
Definition make_number (neg : bool) (d t : Z) : number :=
  if (d =? 0)%Z then Int 0
  else
    let (d', t') := strip d t in
    let (n, dd) := frac d' t' in
    of_rational neg n dd.

(** The name of the binary64 value nearest to the decimal that [n]
    spells; a name is left as it is. *)
Definition num_norm (n : number) : number :=
  match n with
  | Int z => make_number (z <? 0)%Z (Z.abs z) 0
  | Dec m e => make_number (m <? 0)%Z (Z.abs m) (- e)
  | _ => n
  end.

(** The numbers that are names: what [make_number] builds. *)
Definition num_okb (n : number) : bool :=
  match n with
  | Dec m e => (0 <? e)%Z && negb (m mod 10 =? 0)%Z && number_eqb (num_norm n) n
  | _ => number_eqb (num_norm n) n
  end.

(** The value that a number names, as a fraction with a positive
    denominator; [None] when it is not finite. *)
Definition value_of (neg : bool) (r : rounded) : option (Z * Z) :=
  let sg := fun x : Z => if neg then (- x)%Z else x in
  match r with
  | Zero => Some (0, 1)%Z
  | Fin q e => Some (if (0 <=? e)%Z then (sg (q * 2 ^ e), 1)%Z else (sg q, 2 ^ (- e))%Z)
  | Over => None
  end.

Definition exact (n : number) : option (Z * Z) :=
  match n with
  | Int z =>
      if (Z.abs z <=? 2 ^ 53)%Z then Some (z, 1%Z)
      else value_of (z <? 0)%Z (rnd_dec (Z.abs z) 0)
  | Dec m e => value_of (m <? 0)%Z (rnd_dec (Z.abs m) (- e))
  | _ => None
  end.

(** [x < y] on finite numbers and infinities; [false] when either is NaN. *)
Definition num_ltb (x y : number) : bool :=
  match x, y with
  | NaN, _ | _, NaN => false
  | Inf true, Inf true => false
  | Inf true, _ => true
  | _, Inf true => false
  | Inf false, _ => false
  | _, Inf false => true
  | Int a, Int b => (a <? b)%Z
  | Int a, Dec m e => (a * 10 ^ e <? m)%Z
  | Dec m e, Int b => (m <? b * 10 ^ e)%Z
  | Dec m e, Dec m' e' => (m * 10 ^ e' <? m' * 10 ^ e)%Z
  end.

(** Strict equality [===] of two Numbers. *)
Definition num_eqb (x y : number) : bool :=
  match x, y with
  | Int a, Int b => (a =? b)%Z
  | Int a, Dec m e | Dec m e, Int a => (a * 10 ^ e =? m)%Z
  | Dec m e, Dec m' e' => (m * 10 ^ e' =? m' * 10 ^ e)%Z
  | Inf a, Inf b => Bool.eqb a b
  | _, _ => false
  end.

(** [x + 1]: the binary64 value nearest to the sum. *)
Definition num_succ (x : number) : number :=
  match x with
  | NaN => NaN
  | Inf b => Inf b
  | _ =>
      match exact x with
      | Some (a, b) => of_rational (a + b <? 0)%Z (Z.abs (a + b)) b
      | None => x
      end
  end.

Definition num_truthy (x : number) : bool :=
  match x with
  | Int z => negb (z =? 0)%Z
  | Dec m _ => negb (m =? 0)%Z
  | NaN => false
  | Inf _ => true
  end.

(** ** [Number::toString] *)

Fixpoint strip_trailing_zeros (ds : list N) : list N :=
  match ds with
  | [] => []
  | d :: ds' =>
      match strip_trailing_zeros ds' with
      | [] => if (d =? 0)%N then [] else [d]
      | r => d :: r
      end
  end.

Definition zeros (n : nat) : list N := repeat 0%N n.

(** The text of the positive number [s * 10^(n-k)] where [ds] are the [k]
    digits of [s], which does not end in zero (steps 5 to 9 of
    Number::toString). *)
Definition format_digits (ds : list N) (n : Z) : jsstring :=
  let k := Z.of_nat (length ds) in
  if ((k <=? n) && (n <=? 21))%Z then
    digit_chars (ds ++ zeros (Z.to_nat (n - k)))
  else if ((0 <? n) && (n <=? 21))%Z then
    digit_chars (firstn (Z.to_nat n) ds) ++ ch "." :: digit_chars (skipn (Z.to_nat n) ds)
  else if ((-6 <? n) && (n <=? 0))%Z then
    ch "0" :: ch "." :: digit_chars (zeros (Z.to_nat (- n)) ++ ds)
  else
    let e := (n - 1)%Z in
    let expo := ch "e" :: (if (e <? 0)%Z then ch "-" else ch "+")
                       :: digit_chars (digits (Z.to_N (Z.abs e))) in
    match ds with
    | [] => expo
    | [d] => digit_char d :: expo
    | d :: ds' => digit_char d :: ch "." :: digit_chars ds' ++ expo
    end.

Definition with_sign (neg : bool) (s : jsstring) : jsstring :=
  if neg then ch "-" :: s else s.

Definition number_to_string (x : number) : jsstring :=
  match x with
  | Int z =>
      if (z =? 0)%Z then [ch "0"]
      else
        let ds := digits (Z.to_N (Z.abs z)) in
        with_sign (z <? 0)%Z
          (format_digits (strip_trailing_zeros ds) (Z.of_nat (length ds)))
  | Dec m e =>
      let ds := digits (Z.to_N (Z.abs m)) in
      with_sign (m <? 0)%Z (format_digits ds (Z.of_nat (length ds) - e))
  | NaN => str "NaN"
  | Inf neg => with_sign neg (str "Infinity")
  end.

(* ===================================================================== *)
(** * Values *)
(* ===================================================================== *)

(** The values of the program: what [JSON.parse] builds.  An object is its
    list of own properties in the order in which [JSON.stringify] and the
    spread syntax visit them: the names that are array indices in ascending
    order, then the other names in creation order.  [undefined] is not a
    value here: a property lookup answers an [option]. *)
Unset Elimination Schemes.
Inductive value :=
| VNull
| VBool (b : bool)
| VNum (n : number)
| VStr (s : jsstring)
| VArr (l : list value)
| VObj (o : list (jsstring * value)).
Set Elimination Schemes.

Definition object := list (jsstring * value).

(** [o[k]] on own properties. *)
Fixpoint obj_get (k : jsstring) (o : object) : option value :=
  match o with
  | [] => None
  | (k', v) :: o' => if str_eqb k k' then Some v else obj_get k o'
  end.

Definition keys (o : object) : list jsstring := map fst o.

(** The array index that a property name spells: a canonical numeric
    string (the text of its own value) below [2 ^ 32 - 1]. *)
Definition array_index (k : jsstring) : option N :=
  let n := fold_left (fun a c => (10 * a + (c - 48))%N) k 0%N in
  if str_eqb k (digit_chars (digits n)) && (n <? 2 ^ 32 - 1)%N then Some n else None.

(** The place of a new property [k'] with respect to a property [k] that
    the object has: array indices in ascending order first, then the other
    names, each after those created before it. *)
Definition key_before (k k' : jsstring) : bool :=
  match array_index k, array_index k' with
  | Some n, Some n' => (n <? n')%N
  | Some _, None => true
  | None, Some _ => false
  | None, None => true
  end.

Fixpoint obj_replace (k : jsstring) (v : value) (o : object) : object :=
  match o with
  | [] => []
  | (k', v') :: o' =>
      if str_eqb k k' then (k', v) :: o' else (k', v') :: obj_replace k v o'
  end.

Fixpoint obj_insert (k : jsstring) (v : value) (o : object) : object :=
  match o with
  | [] => [(k, v)]
  | (k', v') :: o' =>
      if key_before k' k then (k', v') :: obj_insert k v o' else (k, v) :: o
  end.

(** [o[k] = v]: an existing property keeps its place and takes the new
    value; a new one that is an array index goes among the array indices,
    in ascending order, and any other new one goes last. *)
Definition obj_set (k : jsstring) (v : value) (o : object) : object :=
  if existsb (str_eqb k) (keys o) then obj_replace k v o else obj_insert k v o.

Definition obj_assign (target props : object) : object :=
  fold_left (fun o kv => obj_set (fst kv) (snd kv) o) props target.

(** ToBoolean. *)
Definition truthy (v : value) : bool :=
  match v with
  | VNull => false
  | VBool b => b
  | VNum n => num_truthy n
  | VStr s => match s with [] => false | _ => true end
  | VArr _ | VObj _ => true
  end.

(** Well-formed values: every number the name of a binary64 value, no
    object with two properties of the same name, and the properties of
    every object in the order of own property keys.  Every value the parser
    builds is well-formed. *)
Fixpoint nodup_keys (ks : list jsstring) : bool :=
  match ks with
  | [] => true
  | k :: ks' => negb (existsb (str_eqb k) ks') && nodup_keys ks'
  end.

Fixpoint ordered_keys (ks : list jsstring) : bool :=
  match ks with
  | [] => true
  | k :: ks' => forallb (key_before k) ks' && ordered_keys ks'
  end.

Fixpoint value_okb (v : value) : bool :=
  match v with
  | VNum n => num_okb n
  | VArr l => forallb value_okb l
  | VObj o => nodup_keys (map fst o) && ordered_keys (map fst o)
              && forallb (fun kv => value_okb (snd kv)) o
  | _ => true
  end.

(** What a value looks like after a trip through JSON text: a number that
    is not finite comes back as [null]. *)
Fixpoint to_json (v : value) : value :=
  match v with
  | VNum n => if is_finite n then v else VNull
  | VArr l => VArr (map to_json l)
  | VObj o => VObj (map (fun kv => (fst kv, to_json (snd kv))) o)
  | _ => v
  end.

(** Values that are their own JSON image. *)
Fixpoint finite_numbers (v : value) : bool :=
  match v with
  | VNum n => is_finite n
  | VArr l => forallb finite_numbers l
  | VObj o => forallb (fun kv => finite_numbers (snd kv)) o
  | _ => true
  end.

Definition is_json (v : value) : bool := value_okb v && finite_numbers v.

(* ===================================================================== *)
(** * JSON *)
(* ===================================================================== *)

Module JSON.

(** ** [JSON.stringify] *)

Definition hex_char (d : N) : char :=
  if (d <? 10)%N then (48 + d)%N else (87 + d)%N.

(** [\uXXXX] with lower-case hexadecimal digits. *)
Definition unicode_escape (c : char) : jsstring :=
  [ch "\"; ch "u";
   hex_char (c / 4096 mod 16)%N; hex_char (c / 256 mod 16)%N;
   hex_char (c / 16 mod 16)%N; hex_char (c mod 16)%N].

Definition is_high_surrogate (c : char) : bool := (N.leb 55296 c && N.leb c 56319)%N.
Definition is_low_surrogate (c : char) : bool := (N.leb 56320 c && N.leb c 57343)%N.

Definition quote_char (c : char) : jsstring :=
  if (c =? 8)%N then [ch "\"; ch "b"]
  else if (c =? 9)%N then [ch "\"; ch "t"]
  else if (c =? 10)%N then [ch "\"; ch "n"]
  else if (c =? 12)%N then [ch "\"; ch "f"]
  else if (c =? 13)%N then [ch "\"; ch "r"]
  else if (c =? 34)%N then [ch "\"; 34%N]
  else if (c =? 92)%N then [ch "\"; ch "\"]
  else if (c <? 32)%N || is_high_surrogate c || is_low_surrogate c
       then unicode_escape c
  else [c].

(** The characters of a string between its quotes: a surrogate pair goes
    out as it is, a lone surrogate as an escape. *)
Fixpoint quote_chars (s : jsstring) : jsstring :=
  match s with
  | [] => []
  | c :: s' =>
      match s' with
      | d :: s'' =>
          if is_high_surrogate c && is_low_surrogate d
          then c :: d :: quote_chars s''
          else quote_char c ++ quote_chars s'
      | [] => quote_char c
      end
  end.

(** QuoteJSONString. *)
Definition quote (s : jsstring) : jsstring := 34%N :: quote_chars s ++ [34%N].

Definition spaces (n : nat) : jsstring := repeat (ch " ") n.

(** The line break and indentation put between the parts of an array or
    object; nothing when the gap is empty. *)
Definition newline (gap indent : nat) : jsstring :=
  match gap with
  | O => []
  | S _ => LF :: spaces indent
  end.

Definition colon (gap : nat) : jsstring :=
  match gap with
  | O => [ch ":"]
  | S _ => [ch ":"; ch " "]
  end.

(** SerializeJSONProperty, with [gap] spaces per level and [indent] spaces
    of current indentation. *)
Fixpoint serialize (gap indent : nat) (v : value) : jsstring :=
  match v with
  | VNull => str "null"
  | VBool true => str "true"
  | VBool false => str "false"
  | VNum n => if is_finite n then number_to_string n else str "null"
  | VStr s => quote s
  | VArr [] => str "[]"
  | VArr (v0 :: l) =>
      let inner := (indent + gap)%nat in
      ch "[" :: newline gap inner ++ serialize gap inner v0 ++
      (fix elements (l : list value) : jsstring :=
         match l with
         | [] => newline gap indent ++ [ch "]"]
         | v :: l' => ch "," :: newline gap inner ++ serialize gap inner v ++ elements l'
         end) l
  | VObj [] => str "{}"
  | VObj ((k0, v0) :: o) =>
      let inner := (indent + gap)%nat in
      ch "{" :: newline gap inner ++ quote k0 ++ colon gap ++ serialize gap inner v0 ++
      (fix members (o : list (jsstring * value)) : jsstring :=
         match o with
         | [] => newline gap indent ++ [ch "}"]
         | (k, v) :: o' =>
             ch "," :: newline gap inner ++ quote k ++ colon gap ++
             serialize gap inner v ++ members o'
         end) o
  end.

(** [JSON.stringify(value, null, space)] for a numeric [space]. *)
Definition stringify (v : value) (space : nat) : jsstring :=
  serialize (Nat.min space 10) 0 v.

(** ** [JSON.parse] *)

(** A parser stops with a result and the rest of the text, with a syntax
    error, or because its recursion budget ran out; [parse] below gives a
    budget that never runs out ([parse_value_fuel]). *)
Inductive presult (A : Type) :=
| POk (a : A) (rest : jsstring)
| PErr
| PFuel.
Arguments POk {A} a rest.
Arguments PErr {A}.
Arguments PFuel {A}.

Definition pmap {A B : Type} (f : A -> B) (r : presult A) : presult B :=
  match r with
  | POk a rest => POk (f a) rest
  | PErr => PErr
  | PFuel => PFuel
  end.

Definition is_ws (c : char) : bool :=
  ((c =? 32) || (c =? 9) || (c =? 10) || (c =? 13))%N.

Fixpoint skip_ws (s : jsstring) : jsstring :=
  match s with
  | c :: s' => if is_ws c then skip_ws s' else s
  | [] => []
  end.

Definition hex_val (c : char) : option N :=
  if is_digit c then Some (c - 48)%N
  else if (N.leb 97 c && N.leb c 102)%N then Some (c - 87)%N
  else if (N.leb 65 c && N.leb c 70)%N then Some (c - 55)%N
  else None.

Definition hex4 (a b c d : char) : option char :=
  match hex_val a, hex_val b, hex_val c, hex_val d with
  | Some x, Some y, Some z, Some w => Some (((x * 16 + y) * 16 + z) * 16 + w)%N
  | _, _, _, _ => None
  end.

(** The character a one-letter escape stands for. *)
Definition simple_escape (c : char) : option char :=
  if (c =? 34)%N then Some 34%N
  else if (c =? 92)%N then Some 92%N
  else if (c =? 47)%N then Some 47%N
  else if (c =? 98)%N then Some 8%N
  else if (c =? 102)%N then Some 12%N
  else if (c =? 110)%N then Some 10%N
  else if (c =? 114)%N then Some 13%N
  else if (c =? 116)%N then Some 9%N
  else None.

(** A string literal after its opening quote. *)
Fixpoint parse_string (s : jsstring) : presult jsstring :=
  match s with
  | [] => PErr
  | c :: s' =>
      if (c =? 34)%N then POk [] s'
      else if (c =? 92)%N then
        match s' with
        | e :: s'' =>
            if (e =? 117)%N then
              match s'' with
              | h1 :: h2 :: h3 :: h4 :: s3 =>
                  match hex4 h1 h2 h3 h4 with
                  | Some u => pmap (cons u) (parse_string s3)
                  | None => PErr
                  end
              | _ => PErr
              end
            else
              match simple_escape e with
              | Some u => pmap (cons u) (parse_string s'')
              | None => PErr
              end
        | [] => PErr
        end
      else if (c <? 32)%N then PErr
      else pmap (cons c) (parse_string s')
  end.

(** The exponent part of a number, if there is one. *)
Definition parse_exponent (s : jsstring) : option (Z * jsstring) :=
  match s with
  | c :: s1 =>
      if ((c =? 101) || (c =? 69))%N then
        let '(neg, s2) :=
          match s1 with
          | d :: s1' =>
              if (d =? 45)%N then (true, s1')
              else if (d =? 43)%N then (false, s1')
              else (false, s1)
          | [] => (false, [])
          end in
        let '(ds, s3) := scan_digits s2 in
        match ds with
        | [] => None
        | _ => Some ((if neg then - Z.of_N (digits_val ds) else Z.of_N (digits_val ds))%Z, s3)
        end
      else Some (0%Z, s)
  | [] => Some (0%Z, [])
  end.

(** The fraction part of a number, if there is one. *)
Definition parse_fraction (s : jsstring) : option (list N * jsstring) :=
  match s with
  | c :: s1 =>
      if (c =? 46)%N then
        let '(ds, s2) := scan_digits s1 in
        match ds with
        | [] => None
        | _ => Some (ds, s2)
        end
      else Some ([], s)
  | [] => Some ([], [])
  end.

(** A number literal: an optional minus sign, an integer part without
    leading zeros, an optional fraction, an optional exponent. *)
Definition parse_number (s : jsstring) : presult number :=
  let '(neg, s1) :=
    match s with
    | c :: s' => if (c =? 45)%N then (true, s') else (false, s)
    | [] => (false, [])
    end in
  match s1 with
  | [] => PErr
  | c :: s1' =>
      if is_digit c then
        let '(ip, s2) := if (c =? 48)%N then ([0%N], s1') else scan_digits s1 in
        match parse_fraction s2 with
        | None => PErr
        | Some (fp, s3) =>
            match parse_exponent s3 with
            | None => PErr
            | Some (x, s4) =>
                POk (make_number neg (Z.of_N (digits_val (ip ++ fp)))
                                 (x - Z.of_nat (length fp))) s4
            end
        end
      else PErr
  end.

(** [s] without the prefix [p], when it starts with it. *)
Fixpoint strip_prefix (p s : jsstring) : option jsstring :=
  match p, s with
  | [], _ => Some s
  | c :: p', d :: s' => if (c =? d)%N then strip_prefix p' s' else None
  | _ :: _, [] => None
  end.

Definition parse_literal (p : string) (v : value) (s : jsstring) : presult value :=
  match strip_prefix (str p) s with
  | Some rest => POk v rest
  | None => PErr
  end.

(** The object a sequence of members denotes: a repeated name keeps its
    place and takes the last value. *)
Definition object_of (members : list (jsstring * value)) : value :=
  VObj (obj_assign [] members).

Fixpoint parse_value (fuel : nat) (s : jsstring) : presult value :=
  match fuel with
  | O => PFuel
  | S f =>
      match skip_ws s with
      | [] => PErr
      | c :: s' =>
          if (c =? 34)%N then pmap VStr (parse_string s')
          else if (c =? 91)%N then
            match skip_ws s' with
            | d :: s'' =>
                if (d =? 93)%N then POk (VArr []) s''
                else pmap VArr (parse_elements f s')
            | [] => PErr
            end
          else if (c =? 123)%N then
            match skip_ws s' with
            | d :: s'' =>
                if (d =? 125)%N then POk (VObj []) s''
                else pmap object_of (parse_members f s')
            | [] => PErr
            end
          else if (c =? 116)%N then parse_literal "true" (VBool true) (c :: s')
          else if (c =? 102)%N then parse_literal "false" (VBool false) (c :: s')
          else if (c =? 110)%N then parse_literal "null" VNull (c :: s')
          else pmap VNum (parse_number (c :: s'))
      end
  end

(** The elements of an array up to and with its closing bracket. *)
with parse_elements (fuel : nat) (s : jsstring) : presult (list value) :=
  match fuel with
  | O => PFuel
  | S f =>
      match parse_value f s with
      | POk v r =>
          match skip_ws r with
          | c :: r' =>
              if (c =? 44)%N then pmap (cons v) (parse_elements f r')
              else if (c =? 93)%N then POk [v] r'
              else PErr
          | [] => PErr
          end
      | PErr => PErr
      | PFuel => PFuel
      end
  end

(** The members of an object up to and with its closing brace. *)
with parse_members (fuel : nat) (s : jsstring) : presult (list (jsstring * value)) :=
  match fuel with
  | O => PFuel
  | S f =>
      match skip_ws s with
      | q :: s1 =>
          if (q =? 34)%N then
            match parse_string s1 with
            | POk k r =>
                match skip_ws r with
                | c :: r1 =>
                    if (c =? 58)%N then
                      match parse_value f r1 with
                      | POk v r2 =>
                          match skip_ws r2 with
                          | d :: r3 =>
                              if (d =? 44)%N then pmap (cons (k, v)) (parse_members f r3)
                              else if (d =? 125)%N then POk [(k, v)] r3
                              else PErr
                          | [] => PErr
                          end
                      | PErr => PErr
                      | PFuel => PFuel
                      end
                    else PErr
                | [] => PErr
                end
            | PErr => PErr
            | PFuel => PFuel
            end
          else PErr
      | [] => PErr
      end
  end.

(** [JSON.parse(text)]: [None] stands for the SyntaxError it throws.  One
    value, white space around it, and nothing else. *)
Definition parse (text : jsstring) : option value :=
  match parse_value (2 * length text + 1) text with
  | POk v rest => match skip_ws rest with [] => Some v | _ :: _ => None end
  | PErr | PFuel => None
  end.

End JSON.

(* ===================================================================== *)
(** * The runtime functions the handlers call *)
(* ===================================================================== *)

(** StrWhiteSpaceChar: the white space and line terminators that
    [parseInt] skips. *)
Definition is_str_ws (c : char) : bool :=
  ((N.leb 9 c && N.leb c 13) || (c =? 32) || (c =? 160) || (c =? 5760)
   || (N.leb 8192 c && N.leb c 8202) || (c =? 8232) || (c =? 8233)
   || (c =? 8239) || (c =? 8287) || (c =? 12288) || (c =? 65279))%N.

Fixpoint trim_start (s : jsstring) : jsstring :=
  match s with
  | c :: s' => if is_str_ws c then trim_start s' else s
  | [] => []
  end.

(** The value of [c] as a digit, for radixes up to 36. *)
Definition radix_digit (c : char) : option N :=
  if is_digit c then Some (c - 48)%N
  else if (N.leb 97 c && N.leb c 122)%N then Some (c - 87)%N
  else if (N.leb 65 c && N.leb c 90)%N then Some (c - 55)%N
  else None.

(** The longest prefix of digits of radix [r], as a number: [None] when
    the prefix is empty. *)
Fixpoint scan_radix (r : N) (s : jsstring) (acc : option N) : option N :=
  match s with
  | c :: s' =>
      match radix_digit c with
      | Some d =>
          if (d <? r)%N
          then scan_radix r s' (Some (match acc with Some a => a * r + d | None => d end)%N)
          else acc
      | None => acc
      end
  | [] => acc
  end.

(** ToInt32 of an integer. *)
Definition ToInt32 (z : Z) : Z := ((z + 2 ^ 31) mod 2 ^ 32 - 2 ^ 31)%Z.

(** [parseInt(string, radix)] for an integer [radix]: the Number nearest
    to the integer that the digits spell, with the sign. *)
Definition parseInt (s : jsstring) (radix : Z) : number :=
  let radix := ToInt32 radix in
  let s0 := trim_start s in
  let '(neg, s1) :=
    match s0 with
    | c :: s' =>
        if (c =? 45)%N then (true, s')
        else if (c =? 43)%N then (false, s')
        else (false, s0)
    | [] => (false, [])
    end in
  if ((radix <? 0) || ((0 <? radix) && (radix <? 2)) || (36 <? radix))%Z then NaN
  else
    let strip_0x :=
      match s1 with
      | a :: b :: s2 =>
          if ((a =? 48) && ((b =? 120) || (b =? 88)))%N then Some s2 else None
      | _ => None
      end in
    let '(r, s2) :=
      if ((radix =? 0) || (radix =? 16))%Z then
        match strip_0x with
        | Some s2 => (16%N, s2)
        | None => ((if (radix =? 0)%Z then 10 else 16)%N, s1)
        end
      else (Z.to_N radix, s1) in
    match scan_radix r s2 None with
    | Some n => of_rational neg (Z.of_N n) 1
    | None => NaN
    end.

Module Math.

(** [Math.max] of numbers: NaN as soon as one argument is NaN, minus
    infinity for no argument. *)
Definition max (xs : list number) : number :=
  fold_left
    (fun hi x =>
       match hi, x with
       | NaN, _ | _, NaN => NaN
       | _, _ => if num_ltb hi x then x else hi
       end)
    xs (Inf true).

End Math.

(** A computation that can throw a TypeError: [None] is the throw. *)
Definition throws (A : Type) := option A.

Fixpoint map_throws {A B : Type} (f : A -> throws B) (l : list A) : throws (list B) :=
  match l with
  | [] => Some []
  | a :: l' =>
      match f a with
      | Some b =>
          match map_throws f l' with
          | Some bs => Some (b :: bs)
          | None => None
          end
      | None => None
      end
  end.

(** [v[k]] for a property name that is not built into strings and arrays
    (the program reads [id] and [role]): a TypeError on [null], the own
    property of an object, [undefined] ([None]) otherwise. *)
Definition get_prop (v : value) (k : jsstring) : throws (option value) :=
  match v with
  | VNull => None
  | VObj o => Some (obj_get k o)
  | _ => Some None
  end.

(** The key of array index [i]. *)
Definition index_key (i : nat) : jsstring := digit_chars (digits (N.of_nat i)).

Fixpoint indexed {A : Type} (f : A -> value) (i : nat) (l : list A) : object :=
  match l with
  | [] => []
  | a :: l' => (index_key i, f a) :: indexed f (S i) l'
  end.

(** The own enumerable properties that [{...v}] copies. *)
Definition spread (v : value) : object :=
  match v with
  | VObj o => o
  | VArr l => indexed (fun x => x) 0 l
  | VStr s => indexed (fun c => VStr [c]) 0 s
  | _ => []
  end.

(** [a === n] for a property value [a] and a Number [n]. *)
Definition strict_eq_num (a : option value) (n : number) : bool :=
  match a with
  | Some (VNum m) => num_eqb m n
  | _ => false
  end.

(** [Array.prototype.find] for a predicate that can throw. *)
Fixpoint array_find (p : value -> throws bool) (l : list value) : throws (option value) :=
  match l with
  | [] => Some None
  | x :: l' =>
      match p x with
      | Some true => Some (Some x)
      | Some false => array_find p l'
      | None => None
      end
  end.

(* ===================================================================== *)
(** * The disk and the responses *)
(* ===================================================================== *)

(** What a read of a path gives: the text, or [None] when the read is
    rejected (no such file, no permission, ...). *)
Definition file := option jsstring.
Definition disk := string -> file.

Definition users_path : string := "./data/users.json".
Definition products_path : string := "./data/products.json".
Definition orders_path : string := "./data/orders.json".

(** What the environment does with a write: it stores the data, or it
    rejects and leaves [remains] at the path. *)
Inductive write_outcome :=
| WriteOk
| WriteFail (remains : file).

Module fs.

Definition readFile (d : disk) (p : string) : file := d p.

Definition store (d : disk) (p : string) (f : file) : disk :=
  fun q => if String.eqb q p then f else d q.

(** The flag tells whether the promise of [writeFile] is fulfilled. *)
Definition writeFile (d : disk) (p : string) (data : jsstring) (w : write_outcome)
  : bool * disk :=
  match w with
  | WriteOk => (true, store d p (Some data))
  | WriteFail remains => (false, store d p remains)
  end.

End fs.

(** A response: its status and what [res.json] or [res.send] was given.
    [res.json(v)] puts [JSON.stringify(v)] on the wire. *)
Inductive payload :=
| Json (v : value)
| Text (s : jsstring).

Record response := { status : Z; sent : payload }.

Definition res_json (st : Z) (v : value) : response := {| status := st; sent := Json v |}.
Definition res_send (st : Z) (s : string) : response := {| status := st; sent := Text (str s) |}.

(** What an [async] handler without a [try] does: it responds, or a
    TypeError escapes it and the handler sends nothing. *)
Inductive outcome :=
| Responded (r : response)
| Rejected.

(* ===================================================================== *)
(** * The handlers of [app.js] *)
(* ===================================================================== *)

(** [readJsonFile]: the parsed contents, [null] when the read or the parse
    throws. *)
Definition readJsonFile (d : disk) (filePath : string) : value :=
  match fs.readFile d filePath with
  | Some data =>
      match JSON.parse data with
      | Some v => v
      | None => VNull
      end
  | None => VNull
  end.

(** The four handlers that send a whole file: [GET /users],
    [GET /prettyusers], [GET /api/products], [GET /api/orders]. *)
Definition get_all (filePath : string) (message : string) (d : disk) : response :=
  let users := readJsonFile d filePath in
  if truthy users then res_json 200 users else res_send 500 message.

Definition get_users : disk -> response :=
  get_all users_path "Error reading users data".
Definition get_prettyusers : disk -> response :=
  get_all users_path "Error reading Pretty users data".
Definition get_api_products : disk -> response :=
  get_all products_path "Error reading products data".
Definition get_api_orders : disk -> response :=
  get_all orders_path "Error reading orders data".

(** [u => u.id === userId]. *)
Definition has_id (userId : number) (u : value) : throws bool :=
  match get_prop u (str "id") with
  | Some a => Some (strict_eq_num a userId)
  | None => None
  end.

(** [GET /api/users/:id].  (The route [/:api/:route/:variable] is
    registered before this one and answers the same paths; what follows is
    the handler itself.) *)
Definition get_api_users_id (d : disk) (id : jsstring) : outcome :=
  let userId := parseInt id 10 in
  let users := readJsonFile d users_path in
  if truthy users then
    match users with
    | VArr l =>
        match array_find (has_id userId) l with
        | Some (Some user) =>
            if truthy user then Responded (res_json 200 user)
            else Responded (res_send 404 "User not found")
        | Some None => Responded (res_send 404 "User not found")
        | None => Rejected
        end
    | _ => Rejected
    end
  else Responded (res_send 500 "Error reading users data").

Definition defaultRole : jsstring := str "peasant".

Section PostUsers.

(** ToNumber of a String, an Array or an Object (the numeric grammar of
    strings, the ToPrimitive protocol of objects): left open, with [None]
    for the TypeError that ToPrimitive can throw.  The ids of a collection
    are Numbers, for which it is not called. *)
Variable ToNumber_other : value -> throws number.

(** ToNumber of what a property lookup gave. *)
Definition ToNumber (a : option value) : throws number :=
  match a with
  | None => Some NaN
  | Some VNull => Some (Int 0)
  | Some (VBool b) => Some (Int (if b then 1 else 0))
  | Some (VNum n) => Some n
  | Some v => option_map num_norm (ToNumber_other v)
  end.

(** [users.length > 0 ? Math.max(...users.map(user => user.id)) + 1 : 1]
    for an array [users].  Reading [id] throws on a [null] element, and
    ToNumber can throw.  (The limit of the engine on the number of
    arguments of one call is not modelled.) *)
Definition nextId (users : list value) : throws number :=
  match users with
  | [] => Some (Int 1)
  | _ :: _ =>
      match map_throws (fun user => get_prop user (str "id")) users with
      | Some ids =>
          match map_throws ToNumber ids with
          | Some ns => Some (num_succ (Math.max ns))
          | None => None
          end
      | None => None
      end
  end.

(** [{ id: nextId, ...req.body, role: req.body.role || defaultRole }]. *)
Definition newUser (nextId : number) (body : value) : throws value :=
  let o := obj_assign [(str "id", VNum nextId)] (spread body) in
  match get_prop body (str "role") with
  | Some role =>
      let r := match role with
               | Some v => if truthy v then v else VStr defaultRole
               | None => VStr defaultRole
               end in
      Some (VObj (obj_set (str "role") r o))
  | None => None
  end.

(** [POST /users] with the parsed request body [body]; [w] is what the
    environment does with the write, if the handler gets that far.  Every
    exception ends in the [catch] block: a failed read or parse, a TypeError
    of [nextId] or of [req.body.role], a failed write, and, when the file
    holds a value that is not an array, the TypeError of [users.length],
    [users.map] or [users.push]. *)
Definition post_users (d : disk) (body : value) (w : write_outcome) : response * disk :=
  let failed := res_send 500 "Error processing request" in
  match fs.readFile d users_path with
  | None => (failed, d)
  | Some data =>
      match JSON.parse data with
      | Some (VArr users) =>
          match nextId users with
          | Some nid =>
              match newUser nid body with
              | Some user =>
                  match fs.writeFile d users_path
                          (JSON.stringify (VArr (users ++ [user])) 4) w with
                  | (true, d') => (res_json 201 user, d')
                  | (false, d') => (failed, d')
                  end
              | None => (failed, d)
              end
          | None => (failed, d)
          end
      | Some _ => (failed, d)
      | None => (failed, d)
      end
  end.

(** A sequential history of [POST /users] requests: each one runs to its
    end before the next starts.  The result lists the disk after each
    request. *)
Fixpoint history (d : disk) (reqs : list (value * write_outcome)) : list disk :=
  match reqs with
  | [] => []
  | (body, w) :: reqs' =>
      let d' := snd (post_users d body w) in
      d' :: history d' reqs'
  end.

End PostUsers.

(* ===================================================================== *)
(** * Vocabulary of the specification *)
(* ===================================================================== *)

(** A Record is an object; a Collection is an array of Records. *)
Definition is_record (v : value) : Prop := exists o, v = VObj o.

(** [r] is a Record whose [id] is the integer [z]. *)
Definition record_id (z : Z) (r : value) : Prop :=
  exists o, r = VObj o /\ obj_get (str "id") o = Some (VNum (Int z)).

(** Sample texts are written with an apostrophe where the JSON text has a
    double quote. *)
Definition json (s : string) : jsstring :=
  map (fun c => if (c =? 39)%N then 34%N else c) (str s).

(** A disk whose only file is [users.json], with the given text. *)
Definition disk_of (users : string) : disk :=
  fun p => if String.eqb p users_path then Some (json users) else None.

(** The coercion used where a concrete one is needed: every String, Array
    or Object counts as NaN. *)
Definition ToNumber_NaN : value -> throws number := fun _ => Some NaN.


(* ===================================================================== *)
(** * Auxiliary notions for the proofs about JSON texts *)
(* ===================================================================== *)

Definition all_digits (ds : list N) : Prop := Forall (fun d => (d < 10)%N) ds.

(** The text after a run of digits does not go on with a digit. *)
Definition not_digit_next (s : jsstring) : Prop :=
  match s with
  | [] => True
  | c :: _ => is_digit c = false
  end.

(** The text after a number literal does not go on with a character that
    would belong to the literal. *)
Definition ends_number (s : jsstring) : Prop :=
  match s with
  | [] => True
  | c :: _ => is_digit c = false /\ c <> 46%N /\ c <> 101%N /\ c <> 69%N
  end.

(** The three parts of a number literal as [Number::toString] writes
    them. *)
Definition int_part_ok (ip : list N) : Prop :=
  all_digits ip /\ (ip = [0%N] \/ exists d ip', ip = d :: ip' /\ d <> 0%N).

Definition frac_text (fp : list N) : jsstring :=
  match fp with
  | [] => []
  | _ :: _ => ch "." :: digit_chars fp
  end.

Definition exp_text (x : option Z) : jsstring :=
  match x with
  | None => []
  | Some e =>
      ch "e" :: (if (e <? 0)%Z then ch "-" else ch "+")
             :: digit_chars (digits (Z.to_N (Z.abs e)))
  end.

Definition exp_val (x : option Z) : Z :=
  match x with
  | None => 0%Z
  | Some e => e
  end.

(** The text of the elements of an array after the first one, with the
    closing bracket, and the same for the members of an object. *)
Fixpoint elements_text (gap indent : nat) (l : list value) : jsstring :=
  match l with
  | [] => JSON.newline gap indent ++ [ch "]"]
  | v :: l' =>
      ch "," :: JSON.newline gap (indent + gap) ++
      JSON.serialize gap (indent + gap) v ++ elements_text gap indent l'
  end.

Fixpoint members_text (gap indent : nat) (o : object) : jsstring :=
  match o with
  | [] => JSON.newline gap indent ++ [ch "}"]
  | (k, v) :: o' =>
      ch "," :: JSON.newline gap (indent + gap) ++ JSON.quote k ++ JSON.colon gap ++
      JSON.serialize gap (indent + gap) v ++ members_text gap indent o'
  end.

(** A recursion budget that is enough to read the text of a value back. *)
Fixpoint need (v : value) : nat :=
  match v with
  | VArr l => S (fold_right (fun x a => S (need x + a)) 0 l)%nat
  | VObj o => S (fold_right (fun kv a => S (need (snd kv) + a)) 0 o)%nat
  | _ => 1
  end.

(** A text that starts with the first character of a value. *)
Definition starts_value (s : jsstring) : Prop :=
  exists c t, s = c :: t /\ JSON.is_ws c = false /\ c <> 93%N.

(** The text of [v] reads back as the JSON image of [v], whatever the
    layout and whatever follows. *)
Definition reads_back (v : value) : Prop :=
  value_okb v = true ->
  forall f gap indent rest,
    (need v <= f)%nat -> ends_number rest ->
    JSON.parse_value f (JSON.serialize gap indent v ++ rest)
    = JSON.POk (to_json v) rest.

Definition to_json_member (kv : jsstring * value) : jsstring * value :=
  (fst kv, to_json (snd kv)).

(** The test [record_id] as a boolean. *)
Definition record_idb (z : Z) (r : value) : bool :=
  match r with
  | VObj o =>
      match obj_get (str "id") o with
      | Some (VNum (Int a)) => (a =? z)%Z
      | _ => false
      end
  | _ => false
  end.

(** [user] is the Record that the handler builds for [body] on top of the
    array [users]. *)
Definition newUser_of_users (tn : value -> throws number)
  (users : list value) (body user : value) : Prop :=
  exists nid, nextId tn users = Some nid /\ newUser nid body = Some user.

(** A file that holds a Collection whose Records carry pairwise distinct
    integer ids. *)
Definition distinct_ids_file (f : file) : Prop :=
  exists data users zs,
    f = Some data /\
    JSON.parse data = Some (VArr users) /\
    Forall2 (fun u z => record_id z u) users zs /\
    NoDup zs.

Definition distinct_ids (d : disk) : Prop := distinct_ids_file (d users_path).

(** A request body that is a JSON object without an [id] of its own. *)
Definition no_own_id (body : value) : Prop :=
  is_json body = true /\ exists o, body = VObj o /\ obj_get (str "id") o = None.

(** Sample data. *)
Definition two_users : list value :=
  [VObj [(str "id", VNum (Int 3)); (str "name", VStr (str "Ann"))];
   VObj [(str "id", VNum (Int 7)); (str "name", VStr (str "Bob"))]].

Definition two_users_text : string :=
  "[{'id': 3, 'name': 'Ann'}, {'id': 7, 'name': 'Bob'}]".

(* ===================================================================== *)
(** * The body of a response *)
(* ===================================================================== *)

(** What [res.json] and [res.send] put on the wire.  The line
    [app.set('json spaces', 2)] of the source is commented out, so
    [res.json] serializes without indentation. *)
Definition wire (p : payload) : jsstring :=
  match p with
  | Json v => JSON.stringify v 0
  | Text s => s
  end.

(* ===================================================================== *)
(** * The handlers that echo the request *)
(* ===================================================================== *)

(** [JSON.stringify(req.body)] inside a template literal; [None] is a
    body that is [undefined]. *)
Definition stringify_body (data : option value) : jsstring :=
  match data with
  | Some v => JSON.stringify v 0
  | None => str "undefined"
  end.

(** [GET /get]. *)
Definition get_get : response :=
  res_send 200 "GET request received. You can now test /users".

(** [GET /:api/:route/:variable]. *)
Definition get_params (apiVar routeVar varVar : jsstring) : response :=
  {| status := 200;
     sent := Text (str "GET request, req.params are " ++ apiVar ++ ch " " :: routeVar ++
                   ch " " :: varVar) |}.

(** [POST /api/postExample]. *)
Definition post_postExample (data : option value) : response :=
  {| status := 200;
     sent := Text (str "POST request received with data: " ++ stringify_body data) |}.

(** [PUT /api/putExample/:id]. *)
Definition put_putExample (id : jsstring) (data : option value) : response :=
  {| status := 200;
     sent := Text (str "PUT request received for ID " ++ id ++ str " with data: " ++
                   stringify_body data) |}.

(** [DELETE /api/deleteExample/:id]. *)
Definition delete_deleteExample (id : jsstring) : response :=
  {| status := 200; sent := Text (str "DELETE request received for ID " ++ id) |}.

(* ===================================================================== *)
(** * The routes *)
(* ===================================================================== *)

(** Express turns the path of a route into a pattern over the path of the
    request: literal segments match their text without regard to case, a
    [:name] segment matches one segment that is not empty and binds it,
    and one slash may follow the last segment.  The router tries the
    routes in the order of their registration. *)

(** The methods that the program registers routes for.  (Express answers
    a HEAD request through the GET routes and an OPTIONS request by itself;
    those are not requests of the model.) *)
Inductive method := GET | POST | PUT | DELETE.

Definition method_eqb (a b : method) : bool :=
  match a, b with
  | GET, GET | POST, POST | PUT, PUT | DELETE, DELETE => true
  | _, _ => false
  end.

(** A segment of a route path: literal text or a named parameter. *)
Inductive segment :=
| Lit (text : string)
| Param (name : string).

(** The handlers, by the route they are registered for. *)
Inductive handler :=
| h_get
| h_users
| h_prettyusers
| h_params
| h_user_by_id
| h_post_users
| h_products
| h_orders
| h_postExample
| h_putExample
| h_deleteExample.

(** The routes of [app.js] in the order of their registration. *)
Definition routes : list (method * list segment * handler) :=
  [ (GET, [Lit "get"], h_get);
    (GET, [Lit "users"], h_users);
    (GET, [Lit "prettyusers"], h_prettyusers);
    (GET, [Param "api"; Param "route"; Param "variable"], h_params);
    (GET, [Lit "api"; Lit "users"; Param "id"], h_user_by_id);
    (POST, [Lit "users"], h_post_users);
    (GET, [Lit "api"; Lit "products"], h_products);
    (GET, [Lit "api"; Lit "orders"], h_orders);
    (POST, [Lit "api"; Lit "postExample"], h_postExample);
    (PUT, [Lit "api"; Lit "putExample"; Param "id"], h_putExample);
    (DELETE, [Lit "api"; Lit "deleteExample"; Param "id"], h_deleteExample) ].

(** Routes match without regard to the case of ASCII letters. *)
Definition upper (c : char) : char :=
  if (N.leb 97 c && N.leb c 122)%N then (c - 32)%N else c.

Fixpoint lit_eqb (p s : jsstring) : bool :=
  match p, s with
  | [], [] => true
  | c :: p', d :: s' => N.eqb (upper c) (upper d) && lit_eqb p' s'
  | _, _ => false
  end.

(** The pieces of a text between its slashes. *)
Fixpoint split_slash (s : jsstring) : list jsstring :=
  match s with
  | [] => [[]]
  | c :: s' =>
      if (c =? 47)%N then [] :: split_slash s'
      else
        match split_slash s' with
        | p :: ps => (c :: p) :: ps
        | [] => [[c]]
        end
  end.

(** The pieces of a path against the segments of a route: a literal
    matches its text, a parameter any piece that is not empty, and one
    slash may follow the last segment.  The result lists the parameters
    as they stand in the path. *)
Fixpoint match_segments (pat : list segment) (pieces : list jsstring)
  : option (list (string * jsstring)) :=
  match pat, pieces with
  | [], [] => Some []
  | [], [[]] => Some []
  | [], _ => None
  | _ :: _, [] => None
  | Lit text :: pat', s :: pieces' =>
      if lit_eqb (str text) s then match_segments pat' pieces' else None
  | Param name :: pat', s :: pieces' =>
      match s with
      | [] => None
      | _ :: _ =>
          match match_segments pat' pieces' with
          | Some ps => Some ((name, s) :: ps)
          | None => None
          end
      end
  end.

(** A route path against the path of a request. *)
Definition match_path (pat : list segment) (path : jsstring)
  : option (list (string * jsstring)) :=
  match path with
  | c :: rest => if (c =? 47)%N then match_segments pat (split_slash rest) else None
  | [] => None
  end.

(** [req.params[name]] inside a template literal or as the argument of
    [parseInt]: the text ["undefined"] for a parameter that the route does
    not have. *)
Fixpoint param (ps : list (string * jsstring)) (name : string) : jsstring :=
  match ps with
  | [] => str "undefined"
  | (n, v) :: ps' => if String.eqb n name then v else param ps' name
  end.

(** A request: its method, the path of its URL as it was sent, and the
    body as [express.json()] leaves it in [req.body] ([None] for
    [undefined]).  A request whose body the middleware rejects does not
    reach a handler and is not a request of the model. *)
Record request := { req_method : method; req_path : jsstring; req_body : option value }.

(** Where the router sends a request: to a handler, with the decoded
    parameters of the path; nowhere, which Express answers with 404; or to
    the error path because a parameter could not be decoded, which Express
    answers with 400. *)
Inductive dispatched :=
| Found (h : handler) (params : list (string * jsstring))
| NoRoute
| BadParam.

(** What the application does with a request. *)
Inductive reply :=
| Handled (o : outcome)
| Express404
| Express400.

Section App.

Variable ToNumber_other : value -> throws number.

(** [decodeURIComponent], which the router applies to every parameter of
    a route whose path matches; [None] is the URIError of a malformed
    escape sequence. *)
Variable decodeURIComponent : jsstring -> option jsstring.

Fixpoint decode_params (ps : list (string * jsstring))
  : option (list (string * jsstring)) :=
  match ps with
  | [] => Some []
  | (n, v) :: ps' =>
      match decodeURIComponent v with
      | Some v' =>
          match decode_params ps' with
          | Some ps'' => Some ((n, v') :: ps'')
          | None => None
          end
      | None => None
      end
  end.

(** The router walks the routes in order.  A route whose path matches has
    its parameters decoded, whatever its method; a failure there ends the
    walk in the error path.  The first route that matches path and method
    gets the request. *)
Fixpoint dispatch_in (rs : list (method * list segment * handler))
  (m : method) (path : jsstring) : dispatched :=
  match rs with
  | [] => NoRoute
  | (m', pat, h) :: rs' =>
      match match_path pat path with
      | Some raw =>
          match decode_params raw with
          | Some ps => if method_eqb m m' then Found h ps else dispatch_in rs' m path
          | None => BadParam
          end
      | None => dispatch_in rs' m path
      end
  end.

Definition dispatch (m : method) (path : jsstring) : dispatched :=
  dispatch_in routes m path.

(** The body that [POST /users] works on: on [undefined] as on [null],
    the spread copies nothing and [req.body.role] throws. *)
Definition body_value (b : option value) : value :=
  match b with
  | Some v => v
  | None => VNull
  end.

(** One handler on one request. *)
Definition handle (h : handler) (ps : list (string * jsstring))
  (d : disk) (body : option value) (w : write_outcome) : outcome * disk :=
  match h with
  | h_get => (Responded get_get, d)
  | h_users => (Responded (get_users d), d)
  | h_prettyusers => (Responded (get_prettyusers d), d)
  | h_params =>
      (Responded (get_params (param ps "api") (param ps "route") (param ps "variable")), d)
  | h_user_by_id => (get_api_users_id d (param ps "id"), d)
  | h_post_users =>
      let (r, d') := post_users ToNumber_other d (body_value body) w in
      (Responded r, d')
  | h_products => (Responded (get_api_products d), d)
  | h_orders => (Responded (get_api_orders d), d)
  | h_postExample => (Responded (post_postExample body), d)
  | h_putExample => (Responded (put_putExample (param ps "id") body), d)
  | h_deleteExample => (Responded (delete_deleteExample (param ps "id")), d)
  end.

(** The application: one request against the disk. *)
Definition express_app (d : disk) (rq : request) (w : write_outcome) : reply * disk :=
  match dispatch (req_method rq) (req_path rq) with
  | Found h ps =>
      let (o, d') := handle h ps d (req_body rq) w in
      (Handled o, d')
  | NoRoute => (Express404, d)
  | BadParam => (Express400, d)
  end.

End App.

(** The decoder used where a concrete one is needed: a path without
    escape sequences decodes to itself. *)
Definition decode_plain : jsstring -> option jsstring := fun s => Some s.




(** More sample data: a request body, the Record that [POST /users] makes
    of it on top of [two_users], and the disk after that request. *)
Definition new_body : value := VObj [(str "name", VStr (str "Cy"))].

Definition new_user : value :=
  VObj [(str "id", VNum (Int 8)); (str "name", VStr (str "Cy"));
        (str "role", VStr (str "peasant"))].

Definition two_users_disk : disk := disk_of two_users_text.

Definition three_users_disk : disk :=
  snd (post_users ToNumber_NaN two_users_disk new_body WriteOk).

(** A file that [POST /users] cannot extend: missing, not JSON, JSON that
    is not an array, or an array with a [null] in it. *)
Definition unusable (f : file) : Prop :=
  match f with
  | None => True
  | Some data =>
      match JSON.parse data with
      | Some (VArr l) => In VNull l
      | _ => True
      end
  end.

(* ===================================================================== *)
(** * Properties *)
(* ===================================================================== *)

(** ** Strings and objects *)

Lemma str_eqb_eq (s t : jsstring) : str_eqb s t = true <-> s = t.
Proof.
  revert t. induction s as [|c s IH]; intros [|d t]; simpl; split; intro H;
    try reflexivity; try discriminate.
  - apply andb_prop in H as [Hc Hs]. apply N.eqb_eq in Hc. apply IH in Hs.
    now subst.
  - injection H as -> ->. rewrite N.eqb_refl. simpl. now apply IH.
Qed.

Lemma str_eqb_refl (s : jsstring) : str_eqb s s = true.
Proof. now apply str_eqb_eq. Qed.

Lemma str_eqb_neq (s t : jsstring) : str_eqb s t = false <-> s <> t.
Proof.
  split.
  - intros H E. apply str_eqb_eq in E. congruence.
  - intro H. destruct (str_eqb s t) eqn:E; [|reflexivity].
    apply str_eqb_eq in E. contradiction.
Qed.

Lemma existsb_str_eqb (k : jsstring) (ks : list jsstring) :
  existsb (str_eqb k) ks = true <-> In k ks.
Proof.
  rewrite existsb_exists. split.
  - intros (x & Hin & E). apply str_eqb_eq in E. now subst.
  - intro H. exists k. split; [exact H | apply str_eqb_refl].
Qed.

Lemma existsb_str_eqb_false (k : jsstring) (ks : list jsstring) :
  existsb (str_eqb k) ks = false <-> ~ In k ks.
Proof.
  rewrite <- existsb_str_eqb. now destruct (existsb (str_eqb k) ks).
Qed.

Lemma obj_get_replace_same (k : jsstring) (v : value) (o : object) :
  In k (keys o) -> obj_get k (obj_replace k v o) = Some v.
Proof.
  induction o as [|[k' v'] o IH]; simpl; [intros []|].
  destruct (str_eqb k k') eqn:E; simpl; rewrite E; [reflexivity|].
  intros [-> | H]; [now rewrite str_eqb_refl in E | now apply IH].
Qed.

Lemma obj_get_replace_other (k k' : jsstring) (v : value) (o : object) :
  k <> k' -> obj_get k (obj_replace k' v o) = obj_get k o.
Proof.
  intro Hne. induction o as [|[k0 v0] o IH]; simpl; [reflexivity|].
  destruct (str_eqb k' k0) eqn:E; simpl.
  - apply str_eqb_eq in E. subst k0. apply str_eqb_neq in Hne. now rewrite Hne.
  - now rewrite IH.
Qed.

Lemma obj_get_insert_same (k : jsstring) (v : value) (o : object) :
  ~ In k (keys o) -> obj_get k (obj_insert k v o) = Some v.
Proof.
  induction o as [|[k' v'] o IH]; simpl; intro Hin.
  - now rewrite str_eqb_refl.
  - destruct (key_before k' k); simpl.
    + assert (E : str_eqb k k' = false) by (apply str_eqb_neq; intros ->; tauto).
      rewrite E. apply IH. tauto.
    + now rewrite str_eqb_refl.
Qed.

Lemma obj_get_insert_other (k k' : jsstring) (v : value) (o : object) :
  k <> k' -> obj_get k (obj_insert k' v o) = obj_get k o.
Proof.
  intro Hne. pose proof (proj2 (str_eqb_neq k k') Hne) as E.
  induction o as [|[k0 v0] o IH]; simpl.
  - now rewrite E.
  - destruct (key_before k0 k'); simpl; [now rewrite IH | now rewrite E].
Qed.

Lemma obj_get_set_same (k : jsstring) (v : value) (o : object) :
  obj_get k (obj_set k v o) = Some v.
Proof.
  unfold obj_set. destruct (existsb (str_eqb k) (keys o)) eqn:E.
  - apply obj_get_replace_same. now apply existsb_str_eqb.
  - apply obj_get_insert_same. now apply existsb_str_eqb_false.
Qed.

Lemma obj_get_set_other (k k' : jsstring) (v : value) (o : object) :
  k <> k' -> obj_get k (obj_set k' v o) = obj_get k o.
Proof.
  intro Hne. unfold obj_set. destruct (existsb (str_eqb k') (keys o));
    [now apply obj_get_replace_other | now apply obj_get_insert_other].
Qed.

Lemma keys_replace (k : jsstring) (v : value) (o : object) :
  keys (obj_replace k v o) = keys o.
Proof.
  induction o as [|[k' v'] o IH]; simpl; [reflexivity|].
  destruct (str_eqb k k'); simpl; [reflexivity | now rewrite IH].
Qed.

Lemma in_keys_insert (x k : jsstring) (v : value) (o : object) :
  In x (keys (obj_insert k v o)) <-> x = k \/ In x (keys o).
Proof.
  induction o as [|[k' v'] o IH]; simpl.
  - split; [intros [<- | []]; now left | intros [-> | []]; now left].
  - destruct (key_before k' k); simpl; [rewrite IH|]; intuition congruence.
Qed.

Lemma obj_insert_NoDup (k : jsstring) (v : value) (o : object) :
  ~ In k (keys o) -> NoDup (keys o) -> NoDup (keys (obj_insert k v o)).
Proof.
  induction o as [|[k' v'] o IH]; simpl; intros Hin Hnd.
  - constructor; [intros [] | constructor].
  - destruct (key_before k' k); simpl.
    + inversion Hnd as [|? ? Hk' Hnd']; subst. constructor.
      * rewrite in_keys_insert. intros [-> | H]; tauto.
      * apply IH; tauto.
    + constructor; [simpl; tauto | exact Hnd].
Qed.

Lemma obj_set_NoDup (k : jsstring) (v : value) (o : object) :
  NoDup (keys o) -> NoDup (keys (obj_set k v o)).
Proof.
  intro H. unfold obj_set. destruct (existsb (str_eqb k) (keys o)) eqn:E.
  - now rewrite keys_replace.
  - apply obj_insert_NoDup; [now apply existsb_str_eqb_false | exact H].
Qed.

Lemma obj_set_Forall (P : value -> Prop) (k : jsstring) (v : value) (o : object) :
  P v -> Forall (fun kv => P (snd kv)) o ->
  Forall (fun kv => P (snd kv)) (obj_set k v o).
Proof.
  intros Hv Ho. unfold obj_set. destruct (existsb (str_eqb k) (keys o)).
  - induction Ho as [|[k' v'] o Hkv Ho IH]; simpl; [constructor|].
    destruct (str_eqb k k'); constructor; assumption.
  - induction Ho as [|[k' v'] o Hkv Ho IH]; simpl.
    + constructor; [exact Hv | constructor].
    + destruct (key_before k' k); constructor; try assumption.
      constructor; assumption.
Qed.

Lemma obj_assign_NoDup (props target : object) :
  NoDup (keys target) -> NoDup (keys (obj_assign target props)).
Proof.
  unfold obj_assign. revert target.
  induction props as [|[k v] props IH]; intros target H; simpl; [exact H|].
  apply IH. now apply obj_set_NoDup.
Qed.

Lemma obj_assign_Forall (P : value -> Prop) (props target : object) :
  Forall (fun kv => P (snd kv)) props -> Forall (fun kv => P (snd kv)) target ->
  Forall (fun kv => P (snd kv)) (obj_assign target props).
Proof.
  unfold obj_assign. intro Hp. revert target.
  induction Hp as [|[k v] props Hkv Hp IH]; intros target Ht; simpl; [exact Ht|].
  apply IH. now apply obj_set_Forall.
Qed.

(** ** The order of own property keys *)

Lemma array_index_inj (k k' : jsstring) (n : N) :
  array_index k = Some n -> array_index k' = Some n -> k = k'.
Proof.
  unfold array_index.
  generalize (fold_left (fun a c => (10 * a + (c - 48))%N) k 0%N).
  generalize (fold_left (fun a c => (10 * a + (c - 48))%N) k' 0%N). intros m' m.
  destruct (str_eqb k _ && _) eqn:E; [|discriminate].
  destruct (str_eqb k' _ && _) eqn:E'; [|discriminate].
  intros [= Hm] [= Hm'].
  apply andb_prop in E as [E _]. apply andb_prop in E' as [E' _].
  apply str_eqb_eq in E, E'. congruence.
Qed.

Lemma key_before_trans (a b c : jsstring) :
  key_before a b = true -> key_before b c = true -> key_before a c = true.
Proof.
  unfold key_before.
  destruct (array_index a), (array_index b), (array_index c);
    try reflexivity; try discriminate.
  rewrite !N.ltb_lt. lia.
Qed.

Lemma key_before_total (k k' : jsstring) :
  k <> k' -> key_before k' k = false -> key_before k k' = true.
Proof.
  unfold key_before. intro Hne.
  destruct (array_index k) as [n|] eqn:E, (array_index k') as [n'|] eqn:E';
    try reflexivity; try discriminate.
  rewrite N.ltb_ge, N.ltb_lt. intro H.
  destruct (N.eq_dec n n') as [-> | Hn]; [|lia].
  now destruct Hne; apply (array_index_inj k k' n').
Qed.

Lemma obj_insert_ordered (k : jsstring) (v : value) (o : object) :
  ~ In k (keys o) -> ordered_keys (keys o) = true ->
  ordered_keys (keys (obj_insert k v o)) = true.
Proof.
  induction o as [|[k' v'] o IH]; intros Hin Ho; [reflexivity|].
  cbn [keys map fst ordered_keys] in Ho. apply andb_prop in Ho as [Hall Ho].
  cbn [obj_insert]. destruct (key_before k' k) eqn:E.
  - cbn [keys map fst ordered_keys]. apply andb_true_intro. split.
    + apply forallb_forall. intros x Hx. apply in_keys_insert in Hx as [-> | Hx];
        [exact E|]. rewrite forallb_forall in Hall. now apply Hall.
    + apply IH; [simpl in Hin; tauto | exact Ho].
  - assert (Hkk' : key_before k k' = true).
    { apply key_before_total; [|exact E]. intros ->. apply Hin. now left. }
    unfold keys. cbn [map fst ordered_keys forallb]. rewrite Hkk', Hall, Ho. cbn [andb].
    rewrite andb_true_r. apply forallb_forall. intros x Hx.
    rewrite forallb_forall in Hall.
    exact (key_before_trans k k' x Hkk' (Hall x Hx)).
Qed.

Lemma obj_set_ordered (k : jsstring) (v : value) (o : object) :
  ordered_keys (keys o) = true -> ordered_keys (keys (obj_set k v o)) = true.
Proof.
  intro H. unfold obj_set. destruct (existsb (str_eqb k) (keys o)) eqn:E.
  - now rewrite keys_replace.
  - apply obj_insert_ordered; [now apply existsb_str_eqb_false | exact H].
Qed.

Lemma obj_assign_ordered (props target : object) :
  ordered_keys (keys target) = true ->
  ordered_keys (keys (obj_assign target props)) = true.
Proof.
  unfold obj_assign. revert target.
  induction props as [|[k v] props IH]; intros target H; simpl; [exact H|].
  apply IH. now apply obj_set_ordered.
Qed.

Lemma ordered_keys_app_l (l1 l2 : list jsstring) :
  ordered_keys (l1 ++ l2) = true -> ordered_keys l1 = true.
Proof.
  induction l1 as [|k l1 IH]; [reflexivity|]. cbn [app ordered_keys].
  intro H. apply andb_prop in H as [H1 H2]. rewrite forallb_app in H1.
  apply andb_prop in H1 as [H1 _]. now rewrite H1, IH.
Qed.

Lemma obj_insert_last (k : jsstring) (v : value) (o : object) :
  ordered_keys (keys o ++ [k]) = true -> obj_insert k v o = o ++ [(k, v)].
Proof.
  induction o as [|[k' v'] o IH]; [reflexivity|].
  cbn [keys map fst app ordered_keys obj_insert]. intro H.
  apply andb_prop in H as [H1 H2]. rewrite forallb_app in H1.
  apply andb_prop in H1 as [_ H1]. cbn [forallb] in H1.
  apply andb_prop in H1 as [H1 _]. rewrite H1. now rewrite (IH H2).
Qed.

Lemma obj_set_fresh (k : jsstring) (v : value) (o : object) :
  ~ In k (keys o) -> ordered_keys (keys o ++ [k]) = true ->
  obj_set k v o = o ++ [(k, v)].
Proof.
  intros Hin Ho. unfold obj_set.
  rewrite (proj2 (existsb_str_eqb_false k (keys o)) Hin).
  now apply obj_insert_last.
Qed.

Lemma obj_assign_fresh (props target : object) :
  NoDup (keys target ++ keys props) ->
  ordered_keys (keys target ++ keys props) = true ->
  obj_assign target props = target ++ props.
Proof.
  unfold obj_assign. revert target.
  induction props as [|[k v] props IH]; intros target Hnd Ho; simpl.
  - now rewrite app_nil_r.
  - simpl in Hnd, Ho.
    assert (E : keys target ++ k :: keys props = (keys target ++ [k]) ++ keys props)
      by now rewrite <- app_assoc.
    rewrite obj_set_fresh.
    + rewrite IH.
      * now rewrite <- app_assoc.
      * unfold keys in *. rewrite map_app. cbn [map fst]. now rewrite <- E.
      * unfold keys in *. rewrite map_app. cbn [map fst]. now rewrite <- E.
    + apply NoDup_remove_2 in Hnd. intro Hin. apply Hnd.
      apply in_or_app. now left.
    + rewrite E in Ho. exact (ordered_keys_app_l _ _ Ho).
Qed.

Lemma obj_get_assign (k : jsstring) (props target : object) :
  obj_get k (obj_assign target props) =
  match obj_get k (rev props) with
  | Some v => Some v
  | None => obj_get k target
  end.
Proof.
  unfold obj_assign. revert target.
  induction props as [|[k' v'] props IH]; intro target; simpl.
  - reflexivity.
  - rewrite IH. clear IH.
    assert (Hrev : forall l : object,
               obj_get k (l ++ [(k', v')]) =
               match obj_get k l with
               | Some v => Some v
               | None => if str_eqb k k' then Some v' else None
               end).
    { induction l as [|[k1 v1] l IHl]; simpl; [reflexivity|].
      now destruct (str_eqb k k1). }
    rewrite Hrev. destruct (obj_get k (rev props)); [reflexivity|].
    destruct (str_eqb k k') eqn:E.
    + apply str_eqb_eq in E. subst. apply obj_get_set_same.
    + apply obj_get_set_other. now apply str_eqb_neq.
Qed.

(* ===================================================================== *)
(** * Decimals and names *)
(* ===================================================================== *)

Lemma number_eqb_eq (x y : number) : number_eqb x y = true <-> x = y.
Proof.
  destruct x as [a|m e| |a], y as [b|m' e'| |b]; simpl; split;
    try discriminate; try reflexivity; intro H.
  - apply Z.eqb_eq in H. now subst.
  - injection H as ->. apply Z.eqb_refl.
  - apply andb_prop in H as [H1 H2]. apply Z.eqb_eq in H1, H2. now subst.
  - injection H as -> ->. now rewrite !Z.eqb_refl.
  - apply Bool.eqb_prop in H. now subst.
  - injection H as ->. apply Bool.eqb_reflx.
Qed.

Lemma rounded_eqb_eq (x y : rounded) : rounded_eqb x y = true -> x = y.
Proof.
  destruct x as [|q e|], y as [|q' e'|]; simpl; try discriminate; try reflexivity.
  intro H. apply andb_prop in H as [H1 H2]. apply Z.eqb_eq in H1, H2. now subst.
Qed.

(** What [strip_zeros] keeps: the decimal. *)
Lemma strip_zeros_value (fuel : nat) (d t : Z) :
  (fst (strip_zeros fuel d t) * 10 ^ (snd (strip_zeros fuel d t) - t) = d /\
   t <= snd (strip_zeros fuel d t))%Z.
Proof.
  revert d t. induction fuel as [|fuel IH]; intros d t; cbn [strip_zeros].
  - cbn [fst snd]. rewrite Z.sub_diag. split; lia.
  - destruct (d mod 10 =? 0)%Z eqn:E.
    + destruct (IH (d / 10) (t + 1))%Z as [H1 H2]. split; [|lia].
      apply Z.eqb_eq in E.
      replace (snd (strip_zeros fuel (d / 10) (t + 1)) - t)%Z
        with (Z.succ (snd (strip_zeros fuel (d / 10) (t + 1)) - (t + 1)))%Z by lia.
      rewrite Z.pow_succ_r by lia.
      rewrite (Z.mul_comm 10), Z.mul_assoc, H1.
      rewrite (Z.div_mod d 10) at 2 by lia. lia.
    + cbn [fst snd]. rewrite Z.sub_diag. split; lia.
Qed.

(** With enough fuel no trailing zero is left. *)
Lemma strip_zeros_done (fuel : nat) (d t : Z) :
  (0 < d < 2 ^ (Z.of_nat fuel + 1))%Z ->
  (0 < fst (strip_zeros fuel d t) /\ fst (strip_zeros fuel d t) mod 10 <> 0)%Z.
Proof.
  revert d t. induction fuel as [|fuel IH]; intros d t Hd; cbn [strip_zeros].
  - cbn [fst]. change (2 ^ (Z.of_nat 0 + 1))%Z with 2%Z in Hd.
    assert (d = 1)%Z as -> by lia. split; [lia | discriminate].
  - destruct (d mod 10 =? 0)%Z eqn:E.
    + apply Z.eqb_eq in E. apply IH.
      rewrite Nat2Z.inj_succ in Hd.
      replace (Z.succ (Z.of_nat fuel) + 1)%Z with (Z.succ (Z.of_nat fuel + 1))%Z in Hd by lia.
      rewrite Z.pow_succ_r in Hd by lia.
      pose proof (Z.div_mod d 10 ltac:(lia)) as Hdm. rewrite E in Hdm.
      split; [lia|].
      apply Z.div_lt_upper_bound; lia.
    + apply Z.eqb_neq in E. cbn [fst]. split; [lia | exact E].
Qed.

Lemma strip_spec (d t : Z) :
  (0 < d)%Z ->
  exists d' t',
    strip d t = (d', t') /\
    (d = d' * 10 ^ (t' - t) /\ t <= t' /\ 0 < d' /\ d' mod 10 <> 0)%Z.
Proof.
  intro Hd. unfold strip.
  destruct (strip_zeros_value (Z.to_nat (Z.log2 d)) d t) as [H1 H2].
  destruct (strip_zeros_done (Z.to_nat (Z.log2 d)) d t) as [H3 H4].
  { split; [exact Hd|]. rewrite Z2Nat.id by apply Z.log2_nonneg.
    replace (Z.log2 d + 1)%Z with (Z.succ (Z.log2 d)) by lia.
    now apply Z.log2_spec. }
  destruct (strip_zeros (Z.to_nat (Z.log2 d)) d t) as [d' t']. cbn [fst snd] in *.
  exists d', t'. split; [reflexivity|]. repeat split; try assumption. now symmetry.
Qed.

Lemma strip_fix (d t : Z) : (d mod 10 <> 0)%Z -> strip d t = (d, t).
Proof.
  intro H. unfold strip. apply Z.eqb_neq in H.
  destruct (Z.to_nat (Z.log2 d)); cbn [strip_zeros]; [reflexivity | now rewrite H].
Qed.

Lemma mod10_pow (d k : Z) : (d mod 10 <> 0)%Z -> (0 < k)%Z -> (d mod 10 ^ k <> 0)%Z.
Proof.
  intros Hd Hk H0. apply Hd.
  apply Z.mod_divide in H0; [|apply Z.pow_nonzero; lia].
  apply Z.mod_divide; [lia|].
  destruct H0 as [c Hc]. exists (c * 10 ^ (k - 1))%Z.
  replace k with (Z.succ (k - 1)) in Hc by lia.
  rewrite Z.pow_succ_r in Hc by lia. lia.
Qed.

(** A decimal has one form without trailing zeros. *)
Lemma stripped_unique (d1 d2 a b : Z) :
  (d1 mod 10 <> 0)%Z -> (d2 mod 10 <> 0)%Z -> (0 <= a)%Z -> (0 <= b)%Z ->
  (d1 * 10 ^ a = d2 * 10 ^ b)%Z -> d1 = d2 /\ a = b.
Proof.
  assert (H : forall d1 d2 a b,
             (d1 mod 10 <> 0)%Z -> (0 <= a <= b)%Z ->
             (d1 * 10 ^ a = d2 * 10 ^ b)%Z -> d1 = d2 /\ a = b).
  { clear. intros d1 d2 a b H1 Hab E.
    replace b with (a + (b - a))%Z in E by lia.
    rewrite Z.pow_add_r in E by lia.
    assert (Hp : (0 < 10 ^ a)%Z) by (apply Z.pow_pos_nonneg; lia).
    assert (E' : (d1 = d2 * 10 ^ (b - a))%Z) by nia.
    destruct (Z.eq_dec a b) as [-> | Hne].
    - rewrite Z.sub_diag in E'. split; [lia | reflexivity].
    - exfalso. apply H1. apply Z.mod_divide; [lia|].
      exists (d2 * 10 ^ (b - a - 1))%Z. rewrite E'.
      replace (b - a)%Z with (Z.succ (b - a - 1)) at 1 by lia.
      rewrite Z.pow_succ_r by lia. lia. }
  intros H1 H2 Ha Hb E. destruct (Z.le_ge_cases a b) as [Hab | Hab].
  - apply H; [assumption | lia | assumption].
  - destruct (H d2 d1 b a H2 ltac:(lia) (eq_sym E)) as [-> ->]. now split.
Qed.

Lemma strip_shift (d t j : Z) :
  (0 < d)%Z -> (0 <= j)%Z -> strip (d * 10 ^ j) (t - j) = strip d t.
Proof.
  intros Hd Hj.
  assert (Hp : (0 < 10 ^ j)%Z) by (apply Z.pow_pos_nonneg; lia).
  destruct (strip_spec (d * 10 ^ j) (t - j) ltac:(nia)) as (d1 & t1 & E1 & V1 & L1 & P1 & M1).
  destruct (strip_spec d t Hd) as (d2 & t2 & E2 & V2 & L2 & P2 & M2).
  rewrite E1, E2.
  destruct (stripped_unique d1 d2 (t1 - (t - j)) (t2 - t + j) M1 M2) as [-> Ht]; try lia.
  - rewrite <- V1, Z.pow_add_r by lia. rewrite Z.mul_assoc, <- V2. reflexivity.
  - f_equal. lia.
Qed.

Lemma strip_idem (d t d' t' : Z) :
  (0 < d)%Z -> strip d t = (d', t') -> strip d' t' = (d', t').
Proof.
  intros Hd E. destruct (strip_spec d t Hd) as (d1 & t1 & E1 & _ & _ & _ & M1).
  rewrite E in E1. injection E1 as -> ->. now apply strip_fix.
Qed.

(** The fraction of a decimal that is an integer. *)
Lemma frac_strip_int (d t : Z) :
  (0 < d)%Z -> (0 <= t)%Z ->
  (let (d', t') := strip d t in frac d' t') = (d * 10 ^ t, 1)%Z.
Proof.
  intros Hd Ht. destruct (strip_spec d t Hd) as (d' & t' & E & V & L & P & M).
  rewrite E. unfold frac.
  assert (Ht' : (0 <=? t')%Z = true) by (apply Z.leb_le; lia). rewrite Ht'.
  f_equal. rewrite V. rewrite <- Z.mul_assoc, <- Z.pow_add_r by lia.
  f_equal. f_equal. lia.
Qed.

Lemma make_number_int (neg : bool) (d t : Z) :
  (0 < d)%Z -> (0 <= t)%Z ->
  make_number neg d t = of_rational neg (d * 10 ^ t) 1.
Proof.
  intros Hd Ht. unfold make_number.
  assert (E : (d =? 0)%Z = false) by (apply Z.eqb_neq; lia). rewrite E.
  pose proof (frac_strip_int d t Hd Ht) as H.
  destruct (strip d t) as [d' t']. now rewrite H.
Qed.

(** An integer up to [2^53] is its own name. *)
Lemma of_rational_small (neg : bool) (v : Z) :
  (0 <= v <= 2 ^ 53)%Z ->
  of_rational neg v 1 = Int (if neg then - v else v)%Z.
Proof.
  intro Hv. unfold of_rational. destruct (v =? 0)%Z eqn:E0.
  - apply Z.eqb_eq in E0. subst. now destruct neg.
  - rewrite Z.mod_1_r, Z.div_1_r. cbn [Z.eqb andb].
    assert (E : (v <=? 2 ^ 53)%Z = true) by (apply Z.leb_le; lia). now rewrite E.
Qed.

Lemma make_number_small (neg : bool) (v : Z) :
  (0 <= v <= 2 ^ 53)%Z ->
  make_number neg v 0 = Int (if neg then - v else v)%Z.
Proof.
  intro Hv. destruct (Z.eq_dec v 0) as [-> | Hne]; [now destruct neg|].
  rewrite make_number_int by lia. rewrite Z.mul_1_r. now apply of_rational_small.
Qed.

Lemma sign_of (neg : bool) (v : Z) :
  (0 < v)%Z ->
  ((if neg then - v else v) <? 0)%Z = neg /\ Z.abs (if neg then - v else v) = v.
Proof.
  intro Hv. destruct neg; (split; [|lia]).
  - apply Z.ltb_lt. lia.
  - apply Z.ltb_ge. lia.
Qed.

Lemma opp_mod10 (d : Z) : (d mod 10 <> 0)%Z -> (- d mod 10 <> 0)%Z.
Proof.
  intros H H0. apply H.
  apply Z.mod_divide in H0; [|lia]. apply Z.mod_divide; [lia|].
  destruct H0 as [q Hq]. exists (- q)%Z. lia.
Qed.

Lemma shortest_from_names (fuel : nat) (k q e xn xd n10 s t : Z) :
  shortest_from fuel k q e xn xd n10 = Some (s, t) -> names s t q e = true.
Proof.
  revert k. induction fuel as [|fuel IH]; intro k; cbn [shortest_from]; [discriminate|].
  destruct (if (0 <=? n10 - k)%Z then (xn, (xd * 10 ^ (n10 - k))%Z)
            else ((xn * 10 ^ (- (n10 - k)))%Z, xd)) as [a b].
  destruct (names (a / b) (n10 - k) q e) eqn:Hlo;
    destruct (names (a / b + 1) (n10 - k) q e) eqn:Hhi.
  - intros [= Hs Ht]. subst s t.
    repeat match goal with
           | |- context [if ?c then _ else _] => destruct c
           end; assumption.
  - intros [= Hs Ht]. subst s t. exact Hlo.
  - intros [= Hs Ht]. subst s t. exact Hhi.
  - apply IH.
Qed.

(** The decimal that [shortest] finds is a name: read again, it is the
    number it was. *)
Lemma decimal_okb (neg : bool) (s t q e : Z) :
  names s t q e = true -> shortest q e = Some (s, t) ->
  num_okb (decimal neg s t) = true.
Proof.
  intros Hn Hs. unfold names in Hn. apply andb_prop in Hn as [Hpos Hr].
  apply Z.ltb_lt in Hpos. apply rounded_eqb_eq in Hr.
  destruct (strip_spec s t Hpos) as (d' & t' & E & V & L & P & M).
  assert (Hdec : decimal neg s t
                 = if (0 <=? t')%Z then Int (if neg then - (d' * 10 ^ t') else d' * 10 ^ t')%Z
                   else Dec (if neg then - d' else d') (- t')).
  { unfold decimal. now rewrite E. }
  unfold rnd_dec in Hr. rewrite E in Hr.
  destruct (0 <=? t')%Z eqn:Et.
  - apply Z.leb_le in Et. rewrite Hdec. cbn [num_okb num_norm].
    apply number_eqb_eq.
    assert (HV : (0 < d' * 10 ^ t')%Z)
      by (apply Z.mul_pos_pos; [exact P | apply Z.pow_pos_nonneg; lia]).
    destruct (sign_of neg _ HV) as [-> ->].
    rewrite make_number_int by lia. rewrite Z.mul_1_r.
    unfold frac in Hr. assert (Et' : (0 <=? t')%Z = true) by now apply Z.leb_le.
    rewrite Et' in Hr.
    unfold of_rational.
    assert (E0 : (d' * 10 ^ t' =? 0)%Z = false) by (apply Z.eqb_neq; lia). rewrite E0.
    rewrite Z.mod_1_r, Z.div_1_r. cbn [Z.eqb andb].
    destruct (d' * 10 ^ t' <=? 2 ^ 53)%Z; [reflexivity|].
    rewrite Hr, Hs, Hdec. reflexivity.
  - apply Z.leb_gt in Et. rewrite Hdec. cbn [num_okb num_norm].
    assert (He : (0 <? - t')%Z = true) by (apply Z.ltb_lt; lia). rewrite He.
    assert (Hm : negb ((if neg then - d' else d') mod 10 =? 0)%Z = true).
    { apply negb_true_iff, Z.eqb_neq. destruct neg; [now apply opp_mod10 | exact M]. }
    rewrite Hm. cbn [andb]. apply number_eqb_eq.
    destruct (sign_of neg _ P) as [-> ->]. rewrite Z.opp_involutive.
    unfold make_number.
    assert (E0 : (d' =? 0)%Z = false) by (apply Z.eqb_neq; lia). rewrite E0.
    rewrite (strip_fix d' t' M).
    unfold frac in *. assert (Et' : (0 <=? t')%Z = false) by now apply Z.leb_gt.
    rewrite Et' in *.
    unfold of_rational. rewrite E0.
    assert (Hmod : (d' mod 10 ^ (- t') =? 0)%Z = false)
      by (apply Z.eqb_neq, mod10_pow; [exact M | lia]).
    rewrite Hmod. cbn [andb]. rewrite Hr, Hs, Hdec. reflexivity.
Qed.

(** Every number that rounding builds is a name. *)
Lemma of_rational_okb (neg : bool) (n d : Z) :
  (0 <= n)%Z -> (0 < d)%Z -> num_okb (of_rational neg n d) = true.
Proof.
  intros Hn Hd. unfold of_rational.
  destruct (n =? 0)%Z eqn:E0; [reflexivity|]. apply Z.eqb_neq in E0.
  destruct ((n mod d =? 0) && (n / d <=? 2 ^ 53))%Z eqn:Es.
  - apply andb_prop in Es as [Hm Hle]. apply Z.eqb_eq in Hm. apply Z.leb_le in Hle.
    assert (Hv : (0 < n / d)%Z).
    { pose proof (Z.div_mod n d ltac:(lia)) as Hdm. rewrite Hm in Hdm.
      assert (0 <= n / d)%Z by (apply Z.div_pos; lia). nia. }
    cbn [num_okb num_norm]. apply number_eqb_eq.
    destruct (sign_of neg _ Hv) as [-> ->].
    apply make_number_small. lia.
  - destruct (rnd n d) as [|q e|]; [reflexivity| |now destruct neg].
    destruct (shortest q e) as [[s t]|] eqn:Hs; [|reflexivity].
    apply (decimal_okb neg s t q e); [|exact Hs].
    unfold shortest in Hs. destruct (scaled q 1 (- e)) as [xn xd].
    exact (shortest_from_names _ _ _ _ _ _ _ _ _ Hs).
Qed.

Lemma make_number_okb (neg : bool) (d t : Z) :
  (0 <= d)%Z -> num_okb (make_number neg d t) = true.
Proof.
  intro Hd. unfold make_number. destruct (d =? 0)%Z eqn:E0; [reflexivity|].
  apply Z.eqb_neq in E0.
  destruct (strip_spec d t ltac:(lia)) as (d' & t' & E & V & L & P & M). rewrite E.
  unfold frac. destruct (0 <=? t')%Z eqn:Et.
  - apply of_rational_okb; [|lia].
    apply Z.mul_nonneg_nonneg; [lia | apply Z.pow_nonneg; lia].
  - apply of_rational_okb; [lia | apply Z.pow_pos_nonneg; lia].
Qed.

Lemma num_norm_ok (n : number) : num_okb (num_norm n) = true.
Proof.
  destruct n as [z|m e| |b]; cbn [num_norm];
    [apply make_number_okb; lia | apply make_number_okb; lia | reflexivity | now destruct b].
Qed.

Lemma num_okb_fix (n : number) : num_okb n = true -> num_norm n = n.
Proof.
  destruct n as [z|m e| |b]; cbn [num_okb]; intro H; try reflexivity.
  - now apply number_eqb_eq.
  - apply andb_prop in H as [_ H]. now apply number_eqb_eq.
Qed.

(** The value that a number names has a positive denominator. *)
Lemma exact_denominator (n : number) (a b : Z) : exact n = Some (a, b) -> (0 < b)%Z.
Proof.
  assert (H : forall neg r, value_of neg r = Some (a, b) -> (0 < b)%Z).
  { intros neg [|q e|]; cbn [value_of]; try discriminate.
    - intros [= _ <-]. lia.
    - destruct (0 <=? e)%Z eqn:E; intros [= _ <-]; [lia|].
      apply Z.pow_pos_nonneg; [lia|]. apply Z.leb_gt in E. lia. }
  destruct n as [z|m e| |c]; cbn [exact]; try discriminate.
  - destruct (Z.abs z <=? 2 ^ 53)%Z; [intros [= _ <-]; lia | apply H].
  - apply H.
Qed.

Lemma num_succ_ok (n : number) : num_okb n = true -> num_okb (num_succ n) = true.
Proof.
  intro Hn. destruct n as [z|m e| |c]; cbn [num_succ]; [| |reflexivity|exact Hn].
  - destruct (exact (Int z)) as [[a b]|] eqn:E; [|exact Hn].
    apply of_rational_okb; [lia | exact (exact_denominator _ _ _ E)].
  - destruct (exact (Dec m e)) as [[a b]|] eqn:E; [|exact Hn].
    apply of_rational_okb; [lia | exact (exact_denominator _ _ _ E)].
Qed.

(** Below [2^53] the successor of an integer is the next integer. *)
Lemma num_succ_int (z : Z) :
  (- 2 ^ 53 <= z < 2 ^ 53)%Z -> num_succ (Int z) = Int (z + 1).
Proof.
  intro Hz. cbn [num_succ exact].
  assert (E : (Z.abs z <=? 2 ^ 53)%Z = true) by (apply Z.leb_le; lia). rewrite E.
  rewrite of_rational_small by lia.
  destruct (z + 1 <? 0)%Z eqn:Es; [apply Z.ltb_lt in Es | apply Z.ltb_ge in Es];
    f_equal; lia.
Qed.

(** ** Decimal digits *)

Lemma fold_digits_acc (l : list N) (a : N) :
  fold_left (fun a d => (10 * a + d)%N) l a
  = (a * 10 ^ N.of_nat (length l) + digits_val l)%N.
Proof.
  unfold digits_val. revert a. induction l as [|d l IH]; intro a.
  - simpl. lia.
  - cbn [fold_left length]. rewrite IH, (IH (10 * 0 + d)%N).
    rewrite Nat2N.inj_succ, N.pow_succ_r'. lia.
Qed.

Lemma digits_val_app (l1 l2 : list N) :
  digits_val (l1 ++ l2)
  = (digits_val l1 * 10 ^ N.of_nat (length l2) + digits_val l2)%N.
Proof.
  unfold digits_val at 1. rewrite fold_left_app.
  fold (digits_val l1). apply fold_digits_acc.
Qed.

Lemma digits_val_cons (d : N) (l : list N) :
  digits_val (d :: l) = (d * 10 ^ N.of_nat (length l) + digits_val l)%N.
Proof. apply (digits_val_app [d] l). Qed.

Lemma digits_val_zeros (n : nat) : digits_val (zeros n) = 0%N.
Proof.
  induction n as [|n IH]; [reflexivity|].
  unfold zeros in *. cbn [repeat]. rewrite digits_val_cons, IH. lia.
Qed.

Lemma length_zeros (n : nat) : length (zeros n) = n.
Proof. apply repeat_length. Qed.

Lemma digits_val_lead_zeros (n : nat) (l : list N) :
  digits_val (zeros n ++ l) = digits_val l.
Proof. rewrite digits_val_app, digits_val_zeros. lia. Qed.

Lemma digits_val_trail_zeros (n : nat) (l : list N) :
  digits_val (l ++ zeros n) = (digits_val l * 10 ^ N.of_nat n)%N.
Proof. rewrite digits_val_app, digits_val_zeros, length_zeros. lia. Qed.

Lemma digits_fuel_val (f : nat) (n : N) (acc : list N) :
  digits_val (digits_fuel f n acc)
  = (n * 10 ^ N.of_nat (length acc) + digits_val acc)%N.
Proof.
  revert n acc. induction f as [|f IH]; intros n acc; simpl.
  - apply digits_val_cons.
  - destruct (n <? 10)%N; [apply digits_val_cons|].
    rewrite IH, digits_val_cons. cbn [length].
    rewrite Nat2N.inj_succ, N.pow_succ_r'.
    pose proof (N.div_mod n 10 ltac:(lia)) as H.
    set (q := (n / 10)%N) in *. set (r := (n mod 10)%N) in *.
    clearbody q r. subst n. ring.
Qed.

Lemma digits_val_digits (n : N) : digits_val (digits n) = n.
Proof.
  unfold digits. rewrite digits_fuel_val.
  change (N.of_nat (length (@nil N))) with 0%N.
  change (digits_val []) with 0%N. rewrite N.pow_0_r. lia.
Qed.

Lemma digits_fuel_all (f : nat) (n : N) (acc : list N) :
  (n < 10 * 2 ^ N.of_nat f)%N -> all_digits acc ->
  all_digits (digits_fuel f n acc).
Proof.
  revert n acc. induction f as [|f IH]; intros n acc Hn Hacc; simpl.
  - constructor; [simpl in Hn; lia | exact Hacc].
  - destruct (n <? 10)%N eqn:E.
    + apply N.ltb_lt in E. now constructor.
    + apply IH.
      * rewrite Nat2N.inj_succ, N.pow_succ_r' in Hn.
        apply N.Div0.div_lt_upper_bound. lia.
      * constructor; [|exact Hacc]. apply N.mod_lt. lia.
Qed.

Lemma digits_all (n : N) : all_digits (digits n).
Proof.
  unfold digits. apply digits_fuel_all; [|constructor].
  rewrite N2Nat.id.
  destruct n as [|p]; [simpl; lia|].
  pose proof (N.size_gt (N.pos p)). lia.
Qed.

Lemma digits_fuel_head (f : nat) (n : N) (acc : list N) :
  n <> 0%N ->
  exists d ds, digits_fuel f n acc = d :: ds /\ d <> 0%N.
Proof.
  revert n acc. induction f as [|f IH]; intros n acc Hn; simpl.
  - eauto.
  - destruct (n <? 10)%N eqn:E; [eauto|].
    apply IH. apply N.ltb_ge in E.
    intro H0. apply N.div_small_iff in H0; lia.
Qed.

Lemma digits_head (n : N) :
  n <> 0%N -> exists d ds, digits n = d :: ds /\ d <> 0%N.
Proof. apply digits_fuel_head. Qed.

Lemma digits_fuel_nonempty (f : nat) (n : N) (acc : list N) :
  digits_fuel f n acc <> [].
Proof.
  revert n acc. induction f as [|f IH]; intros n acc; simpl.
  - discriminate.
  - destruct (n <? 10)%N; [discriminate | apply IH].
Qed.

Lemma digits_nonempty (n : N) : digits n <> [].
Proof. apply digits_fuel_nonempty. Qed.

(** The digits without their trailing zeros, and the zeros. *)
Lemma strip_trailing_zeros_app (ds : list N) :
  exists j, ds = strip_trailing_zeros ds ++ zeros j.
Proof.
  induction ds as [|d ds [j IH]]; [now exists 0%nat|].
  simpl. destruct (strip_trailing_zeros ds) as [|r rs] eqn:E.
  - destruct (d =? 0)%N eqn:Ed.
    + apply N.eqb_eq in Ed. subst d. exists (S j). simpl in *. now rewrite IH at 1.
    + exists j. simpl in *. now rewrite IH at 1.
  - exists j. simpl in *. now rewrite IH at 1.
Qed.

Lemma strip_trailing_zeros_head (d : N) (ds : list N) :
  d <> 0%N ->
  exists rs, strip_trailing_zeros (d :: ds) = d :: rs.
Proof.
  intro Hd. simpl. destruct (strip_trailing_zeros ds).
  - apply N.eqb_neq in Hd. rewrite Hd. eauto.
  - eauto.
Qed.

Lemma strip_trailing_zeros_all (ds : list N) :
  all_digits ds -> all_digits (strip_trailing_zeros ds).
Proof.
  intro H. destruct (strip_trailing_zeros_app ds) as [j Hj].
  unfold all_digits in *. rewrite Hj in H. now apply Forall_app in H as [H _].
Qed.

(** ** Scanning digits *)

Lemma is_digit_char (d : N) : (d < 10)%N -> is_digit (digit_char d) = true.
Proof.
  intro H. unfold is_digit, digit_char.
  apply andb_true_intro. split; apply N.leb_le; lia.
Qed.

Lemma digit_char_val (d : N) : (digit_char d - 48)%N = d.
Proof. unfold digit_char. lia. Qed.

Lemma scan_digits_stop (s : jsstring) :
  not_digit_next s -> scan_digits s = ([], s).
Proof. destruct s as [|c s]; simpl; [reflexivity | now intros ->]. Qed.

Lemma scan_digits_chars (ds : list N) (rest : jsstring) :
  all_digits ds -> not_digit_next rest ->
  scan_digits (digit_chars ds ++ rest) = (ds, rest).
Proof.
  intros Hds Hrest. induction Hds as [|d ds Hd _ IH]; simpl.
  - now apply scan_digits_stop.
  - rewrite is_digit_char by exact Hd. rewrite IH, digit_char_val. reflexivity.
Qed.

(** ** Number literals *)

Lemma ends_number_not_digit (s : jsstring) : ends_number s -> not_digit_next s.
Proof. destruct s; simpl; tauto. Qed.

Lemma parse_exponent_text (x : option Z) (rest : jsstring) :
  ends_number rest ->
  JSON.parse_exponent (exp_text x ++ rest) = Some (exp_val x, rest).
Proof.
  intro Hrest. destruct x as [e|]; simpl.
  - assert (Hscan := scan_digits_chars (digits (Z.to_N (Z.abs e))) rest
                       (digits_all _) (ends_number_not_digit _ Hrest)).
    assert (Hne := digits_nonempty (Z.to_N (Z.abs e))).
    assert (Hval := digits_val_digits (Z.to_N (Z.abs e))).
    destruct (e <? 0)%Z eqn:E; simpl; rewrite Hscan;
      destruct (digits (Z.to_N (Z.abs e))) as [|d0 ds0] eqn:Hds;
      try congruence; rewrite Hval; do 2 f_equal.
    + apply Z.ltb_lt in E. lia.
    + apply Z.ltb_ge in E. lia.
  - destruct rest as [|c rest]; [reflexivity|]. simpl in *.
    destruct Hrest as (_ & _ & H1 & H2).
    apply N.eqb_neq in H1, H2. now rewrite H1, H2.
Qed.

Lemma exp_text_not_digit (x : option Z) (rest : jsstring) :
  ends_number rest -> not_digit_next (exp_text x ++ rest).
Proof.
  destruct x; simpl; [reflexivity | apply ends_number_not_digit].
Qed.

Lemma parse_fraction_text (fp : list N) (x : option Z) (rest : jsstring) :
  all_digits fp -> ends_number rest ->
  JSON.parse_fraction (frac_text fp ++ exp_text x ++ rest)
  = Some (fp, exp_text x ++ rest).
Proof.
  intros Hfp Hrest. destruct fp as [|d fp].
  - simpl. destruct x as [e|]; [reflexivity|]. simpl.
    destruct rest as [|c rest]; [reflexivity|]. simpl in *.
    destruct Hrest as (_ & H & _). apply N.eqb_neq in H. now rewrite H.
  - change (frac_text (d :: fp)) with (46%N :: digit_chars (d :: fp)).
    cbn [app JSON.parse_fraction N.eqb Pos.eqb].
    rewrite scan_digits_chars by (auto using exp_text_not_digit).
    reflexivity.
Qed.

Lemma frac_text_not_digit (fp : list N) (x : option Z) (rest : jsstring) :
  ends_number rest -> not_digit_next (frac_text fp ++ exp_text x ++ rest).
Proof.
  destruct fp; [apply exp_text_not_digit | reflexivity].
Qed.

(** The parser reads back the three parts of a literal. *)
Lemma parse_number_parts (neg : bool) (ip fp : list N) (x : option Z) (rest : jsstring) :
  int_part_ok ip -> all_digits fp -> ends_number rest ->
  JSON.parse_number
    (with_sign neg (digit_chars ip ++ frac_text fp ++ exp_text x ++ rest))
  = JSON.POk (make_number neg (Z.of_N (digits_val (ip ++ fp)))
                          (exp_val x - Z.of_nat (length fp))) rest.
Proof.
  intros [Hall Hip] Hfp Hrest.
  assert (Hd : exists d ip', ip = d :: ip' /\ (d < 10)%N).
  { destruct Hip as [-> | (d & ip' & -> & _)].
    - exists 0%N, []. split; [reflexivity | lia].
    - exists d, ip'. split; [reflexivity | now inversion Hall]. }
  destruct Hd as (d & ip' & Hipeq & Hd).
  set (tail := frac_text fp ++ exp_text x ++ rest) in *.
  assert (Hsign :
    JSON.parse_number (with_sign neg (digit_chars ip ++ tail))
    = let s1 := digit_chars ip ++ tail in
      match s1 with
      | [] => JSON.PErr
      | c :: s1' =>
          if is_digit c then
            let '(ip0, s2) := if (c =? 48)%N then ([0%N], s1') else scan_digits s1 in
            match JSON.parse_fraction s2 with
            | None => JSON.PErr
            | Some (fp0, s3) =>
                match JSON.parse_exponent s3 with
                | None => JSON.PErr
                | Some (x0, s4) =>
                    JSON.POk (make_number neg (Z.of_N (digits_val (ip0 ++ fp0)))
                                          (x0 - Z.of_nat (length fp0))) s4
                end
            end
          else JSON.PErr
      end).
  { destruct neg; [reflexivity|].
    subst ip. unfold with_sign, JSON.parse_number. cbn [digit_chars map app].
    replace (digit_char d =? 45)%N with false; [reflexivity|].
    symmetry. apply N.eqb_neq. unfold digit_char. lia. }
  rewrite Hsign. clear Hsign. cbv zeta.
  assert (Htail : forall s2,
    s2 = tail ->
    match JSON.parse_fraction s2 with
    | None => JSON.PErr
    | Some (fp0, s3) =>
        match JSON.parse_exponent s3 with
        | None => JSON.PErr
        | Some (x0, s4) =>
            JSON.POk (make_number neg (Z.of_N (digits_val (ip ++ fp0)))
                                  (x0 - Z.of_nat (length fp0))) s4
        end
    end
    = JSON.POk (make_number neg (Z.of_N (digits_val (ip ++ fp)))
                            (exp_val x - Z.of_nat (length fp))) rest).
  { intros s2 ->. unfold tail. rewrite parse_fraction_text by assumption.
    rewrite parse_exponent_text by assumption. reflexivity. }
  destruct Hip as [-> | (d0 & ip0 & -> & Hd0)].
  - cbn [digit_chars map app]. change (digit_char 0) with 48%N.
    cbn [is_digit N.leb N.compare Pos.compare Pos.compare_cont andb N.eqb Pos.eqb].
    now apply Htail.
  - injection Hipeq as -> ->.
    cbn [digit_chars map app].
    rewrite is_digit_char by exact Hd.
    replace (digit_char d =? 48)%N with false
      by (symmetry; apply N.eqb_neq; unfold digit_char; lia).
    change (digit_char d :: map digit_char ip' ++ tail)
      with (digit_chars (d :: ip') ++ tail).
    rewrite scan_digits_chars;
      [now apply Htail | exact Hall | now apply frac_text_not_digit].
Qed.

Lemma all_digits_zeros (n : nat) : all_digits (zeros n).
Proof. apply Forall_forall. intros d Hd. apply repeat_spec in Hd. subst. lia. Qed.

(** The text of a positive number splits into the parts of a literal
    that denote the same number. *)
Lemma format_digits_parts (d : N) (ds' : list N) (n : Z) :
  let ds := d :: ds' in
  let k := Z.of_nat (length ds) in
  all_digits ds -> d <> 0%N ->
  exists ip fp xo,
    format_digits ds n = digit_chars ip ++ frac_text fp ++ exp_text xo /\
    int_part_ok ip /\ all_digits fp /\
    ((digits_val (ip ++ fp) = (digits_val ds * 10 ^ Z.to_N (n - k))%N /\
      (k <= n)%Z /\ (exp_val xo - Z.of_nat (length fp) = 0)%Z) \/
     (digits_val (ip ++ fp) = digits_val ds /\
      (exp_val xo - Z.of_nat (length fp) = n - k)%Z)).
Proof.
  intros ds k Hall Hd. unfold format_digits. fold k.
  assert (Hk : k = Z.of_nat (length ds)) by reflexivity.
  assert (Hl : length ds = S (length ds')) by reflexivity.
  clearbody k.
  destruct ((k <=? n)%Z && (n <=? 21)%Z) eqn:C5.
  { apply andb_prop in C5 as [C5 _]. apply Z.leb_le in C5.
    exists (ds ++ zeros (Z.to_nat (n - k))), [], None.
    split; [now rewrite !app_nil_r|]. split; [|split; [constructor|]].
    - split; [apply Forall_app; split; [exact Hall | apply all_digits_zeros]|].
      right. exists d, (ds' ++ zeros (Z.to_nat (n - k))). now split.
    - left. rewrite app_nil_r, digits_val_trail_zeros.
      rewrite Z_nat_N. split; [reflexivity | split; [exact C5 | reflexivity]]. }
  destruct ((0 <? n)%Z && (n <=? 21)%Z) eqn:C6.
  { apply andb_prop in C6 as [C6 C6']. apply Z.ltb_lt in C6. apply Z.leb_le in C6'.
    assert (Hkn : (n < k)%Z).
    { apply andb_false_iff in C5 as [C5 | C5];
        [apply Z.leb_gt in C5 | apply Z.leb_gt in C5]; lia. }
    exists (firstn (Z.to_nat n) ds), (skipn (Z.to_nat n) ds), None.
    assert (Hlen : length (skipn (Z.to_nat n) ds) = (length ds - Z.to_nat n)%nat)
      by apply length_skipn.
    assert (Hsplit : all_digits (firstn (Z.to_nat n) ds) /\
                     all_digits (skipn (Z.to_nat n) ds)).
    { apply Forall_app. rewrite firstn_skipn. exact Hall. }
    destruct Hsplit as [Hfirst Hrest].
    destruct (skipn (Z.to_nat n) ds) as [|f0 fs] eqn:Hskip.
    { cbn [length] in Hlen. lia. }
    split; [now rewrite app_nil_r|]. split; [|split].
    - split; [exact Hfirst|].
      right. destruct (Z.to_nat n) as [|j] eqn:Hj; [lia|].
      exists d, (firstn j ds'). now split.
    - exact Hrest.
    - right. rewrite <- Hskip, firstn_skipn. split; [reflexivity|].
      rewrite Hskip, Hlen. cbn [exp_val]. lia. }
  destruct ((-6 <? n)%Z && (n <=? 0)%Z) eqn:C7.
  { apply andb_prop in C7 as [_ C7]. apply Z.leb_le in C7.
    exists [0%N], (zeros (Z.to_nat (- n)) ++ ds), None.
    split; [|split; [|split]].
    - destruct (zeros (Z.to_nat (- n)) ++ ds) eqn:E.
      + apply app_eq_nil in E as [_ E]. discriminate.
      + now rewrite app_nil_r.
    - split; [constructor; [lia | constructor] | now left].
    - apply Forall_app; split; [apply all_digits_zeros | exact Hall].
    - right.
      change ([0%N] ++ zeros (Z.to_nat (- n)) ++ ds)
        with (zeros (S (Z.to_nat (- n))) ++ ds).
      rewrite digits_val_lead_zeros. split; [reflexivity|].
      rewrite length_app, length_zeros. cbn [exp_val]. lia. }
  exists [d], ds', (Some (n - 1)%Z).
  split; [|split; [|split]].
  - unfold ds. destruct ds' as [|d1 ds1]; [reflexivity|].
    reflexivity.
  - split; [constructor; [now inversion Hall | constructor]|].
    right. exists d, []. now split.
  - now inversion Hall.
  - right. split; [reflexivity|]. cbn [exp_val]. lia.
Qed.

Lemma num_okb_ok (n : number) : num_okb n = true -> num_ok n.
Proof.
  destruct n as [z|m e| |b]; cbn [num_okb num_ok]; try trivial.
  intro H. apply andb_prop in H as [H _]. apply andb_prop in H as [He Hm].
  apply Z.ltb_lt in He. apply negb_true_iff, Z.eqb_neq in Hm. now split.
Qed.

(** Reading back the text of a finite number gives the number. *)
Lemma parse_number_to_string (x : number) (rest : jsstring) :
  num_okb x = true -> is_finite x = true -> ends_number rest ->
  JSON.parse_number (number_to_string x ++ rest) = JSON.POk x rest.
Proof.
  intros Hokb Hfin Hrest. pose proof (num_okb_fix x Hokb) as Hfix.
  pose proof (num_okb_ok x Hokb) as Hok.
  destruct x as [z | m e | | b]; try discriminate; cbn [num_norm] in Hfix.
  - (* integers *)
    unfold number_to_string. destruct (z =? 0)%Z eqn:Ez.
    { apply Z.eqb_eq in Ez. subst z.
      change ([ch "0"] ++ rest)
        with (with_sign false (digit_chars [0%N] ++ frac_text [] ++ exp_text None ++ rest)).
      rewrite parse_number_parts; [reflexivity | | constructor | exact Hrest].
      split; [constructor; [lia | constructor] | now left]. }
    apply Z.eqb_neq in Ez.
    set (D := Z.to_N (Z.abs z)).
    assert (HD : D <> 0%N) by (unfold D; lia).
    destruct (digits_head D HD) as (d & ds' & Hds & Hd).
    destruct (strip_trailing_zeros_app (digits D)) as [j Hj].
    destruct (strip_trailing_zeros_head d ds' Hd) as [rs Hrs].
    rewrite <- Hds in Hrs.
    assert (Hall : all_digits (d :: rs)).
    { rewrite <- Hrs. apply strip_trailing_zeros_all, digits_all. }
    destruct (format_digits_parts d rs (Z.of_nat (length (digits D))) Hall Hd)
      as (ip & fp & xo & Htext & Hip & Hfp & Hval).
    rewrite Hrs, Htext.
    assert (Hlen : length (digits D) = (length (d :: rs) + j)%nat).
    { rewrite Hj at 1. rewrite Hrs, length_app, length_zeros. reflexivity. }
    assert (HvD : (digits_val (d :: rs) * 10 ^ N.of_nat j)%N = D).
    { rewrite <- digits_val_trail_zeros, <- Hrs, <- Hj. apply digits_val_digits. }
    replace (with_sign (z <? 0)%Z (digit_chars ip ++ frac_text fp ++ exp_text xo) ++ rest)
      with (with_sign (z <? 0)%Z (digit_chars ip ++ frac_text fp ++ exp_text xo ++ rest))
      by (destruct (z <? 0)%Z; simpl; now rewrite <- !app_assoc).
    rewrite parse_number_parts by assumption. f_equal.
    assert (Hv0 : digits_val (d :: rs) <> 0%N) by (intros H0; rewrite H0 in HvD; lia).
    destruct Hval as [(Hv & Hkn & Hx) | (Hv & Hx)].
    + rewrite Hv, Hx. rewrite Hlen.
      replace (Z.to_N (Z.of_nat (length (d :: rs) + j) - Z.of_nat (length (d :: rs))))
        with (N.of_nat j) by lia.
      rewrite HvD. replace (Z.of_N D) with (Z.abs z) by (unfold D; lia).
      exact Hfix.
    + rewrite Hv, Hx, Hlen.
      replace (Z.of_nat (length (d :: rs) + j) - Z.of_nat (length (d :: rs)))%Z
        with (Z.of_nat j) by lia.
      assert (HvZ : (Z.of_N (digits_val (d :: rs)) * 10 ^ Z.of_nat j = Z.abs z)%Z).
      { replace (Z.abs z) with (Z.of_N D) by (unfold D; lia).
        rewrite <- HvD, N2Z.inj_mul, N2Z.inj_pow, nat_N_Z. reflexivity. }
      rewrite <- Hfix.
      rewrite (make_number_int _ (Z.abs z) 0) by lia.
      rewrite make_number_int by lia.
      now rewrite HvZ, Z.mul_1_r.
  - (* fractions *)
    destruct Hok as [He Hm]. unfold number_to_string.
    set (D := Z.to_N (Z.abs m)).
    assert (HD : D <> 0%N).
    { unfold D. intro H0. apply Hm. replace m with 0%Z by lia. reflexivity. }
    destruct (digits_head D HD) as (d & ds' & Hds & Hd).
    assert (Hall : all_digits (d :: ds')) by (rewrite <- Hds; apply digits_all).
    destruct (format_digits_parts d ds' (Z.of_nat (length (digits D)) - e) Hall Hd)
      as (ip & fp & xo & Htext & Hip & Hfp & Hval).
    rewrite Hds in *. rewrite Htext.
    replace (with_sign (m <? 0)%Z (digit_chars ip ++ frac_text fp ++ exp_text xo) ++ rest)
      with (with_sign (m <? 0)%Z (digit_chars ip ++ frac_text fp ++ exp_text xo ++ rest))
      by (destruct (m <? 0)%Z; simpl; now rewrite <- !app_assoc).
    rewrite parse_number_parts by assumption. f_equal.
    assert (HvD : digits_val (d :: ds') = D) by (rewrite <- Hds; apply digits_val_digits).
    destruct Hval as [(_ & Hkn & _) | (Hv & Hx)]; [lia|].
    rewrite Hv, Hx, HvD.
    replace (Z.of_nat (length (d :: ds')) - e - Z.of_nat (length (d :: ds')))%Z
      with (- e)%Z by lia.
    replace (Z.of_N D) with (Z.abs m) by (unfold D; lia).
    exact Hfix.
Qed.

(** ** String literals *)

Lemma hex_val_char (d : N) : (d < 16)%N -> JSON.hex_val (JSON.hex_char d) = Some d.
Proof.
  intro H. unfold JSON.hex_val, JSON.hex_char, is_digit.
  destruct (d <? 10)%N eqn:E.
  - apply N.ltb_lt in E.
    replace (48 <=? 48 + d)%N with true by (symmetry; apply N.leb_le; lia).
    replace (48 + d <=? 57)%N with true by (symmetry; apply N.leb_le; lia).
    cbn [andb]. f_equal. lia.
  - apply N.ltb_ge in E.
    replace (87 + d <=? 57)%N with false by (symmetry; apply N.leb_gt; lia).
    rewrite andb_false_r.
    replace (97 <=? 87 + d)%N with true by (symmetry; apply N.leb_le; lia).
    replace (87 + d <=? 102)%N with true by (symmetry; apply N.leb_le; lia).
    cbn [andb]. f_equal. lia.
Qed.

Lemma hex4_digits (c : N) :
  (c < 65536)%N ->
  ((((c / 4096 mod 16) * 16 + c / 256 mod 16) * 16 + c / 16 mod 16) * 16 + c mod 16)%N = c.
Proof.
  intro H.
  replace (c / 256)%N with (c / 16 / 16)%N by (rewrite N.Div0.div_div; reflexivity).
  replace (c / 4096)%N with (c / 16 / 16 / 16)%N by (rewrite !N.Div0.div_div; reflexivity).
  pose proof (N.div_mod c 16 ltac:(lia)) as H1.
  pose proof (N.div_mod (c / 16) 16 ltac:(lia)) as H2.
  pose proof (N.div_mod (c / 16 / 16) 16 ltac:(lia)) as H3.
  set (q1 := (c / 16)%N) in *. set (q2 := (q1 / 16)%N) in *.
  set (q3 := (q2 / 16)%N) in *.
  clearbody q3 q2 q1.
  remember (c mod 16)%N as r0. remember (q1 mod 16)%N as r1.
  remember (q2 mod 16)%N as r2.
  assert (H4 : (q3 < 16)%N) by lia.
  rewrite (N.mod_small q3 16 H4). lia.
Qed.

Lemma parse_unicode_escape (c : char) (t : jsstring) :
  (c < 65536)%N ->
  JSON.parse_string (JSON.unicode_escape c ++ t)
  = JSON.pmap (cons c) (JSON.parse_string t).
Proof.
  intro H. unfold JSON.unicode_escape.
  cbn [app JSON.parse_string ch N_of_ascii N.eqb Pos.eqb N.add N.mul Pos.add Pos.mul].
  unfold JSON.hex4.
  rewrite !hex_val_char by (apply N.mod_lt; lia).
  rewrite hex4_digits by exact H. reflexivity.
Qed.

Lemma parse_plain_char (c : char) (t : jsstring) :
  c <> 34%N -> c <> 92%N -> (32 <= c)%N ->
  JSON.parse_string (c :: t) = JSON.pmap (cons c) (JSON.parse_string t).
Proof.
  intros H1 H2 H3. cbn [JSON.parse_string].
  apply N.eqb_neq in H1, H2. rewrite H1, H2.
  replace (c <? 32)%N with false by (symmetry; apply N.ltb_ge; lia).
  reflexivity.
Qed.

Lemma parse_quote_char (c : char) (t : jsstring) :
  JSON.parse_string (JSON.quote_char c ++ t)
  = JSON.pmap (cons c) (JSON.parse_string t).
Proof.
  unfold JSON.quote_char.
  destruct (c =? 8)%N eqn:E8; [apply N.eqb_eq in E8; subst; reflexivity|].
  destruct (c =? 9)%N eqn:E9; [apply N.eqb_eq in E9; subst; reflexivity|].
  destruct (c =? 10)%N eqn:E10; [apply N.eqb_eq in E10; subst; reflexivity|].
  destruct (c =? 12)%N eqn:E12; [apply N.eqb_eq in E12; subst; reflexivity|].
  destruct (c =? 13)%N eqn:E13; [apply N.eqb_eq in E13; subst; reflexivity|].
  destruct (c =? 34)%N eqn:E34; [apply N.eqb_eq in E34; subst; reflexivity|].
  destruct (c =? 92)%N eqn:E92; [apply N.eqb_eq in E92; subst; reflexivity|].
  destruct ((c <? 32)%N || JSON.is_high_surrogate c || JSON.is_low_surrogate c) eqn:Eu.
  - apply parse_unicode_escape.
    apply orb_prop in Eu as [Eu | Eu]; [apply orb_prop in Eu as [Eu | Eu]|].
    + apply N.ltb_lt in Eu. lia.
    + unfold JSON.is_high_surrogate in Eu. apply andb_prop in Eu as [_ Eu].
      apply N.leb_le in Eu. lia.
    + unfold JSON.is_low_surrogate in Eu. apply andb_prop in Eu as [_ Eu].
      apply N.leb_le in Eu. lia.
  - apply orb_false_elim in Eu as [Eu _]. apply orb_false_elim in Eu as [Eu _].
    apply N.ltb_ge in Eu. apply N.eqb_neq in E34, E92.
    now apply parse_plain_char.
Qed.

Lemma quote_chars_cons (c d : char) (s : jsstring) :
  JSON.quote_chars (c :: d :: s)
  = if JSON.is_high_surrogate c && JSON.is_low_surrogate d
    then c :: d :: JSON.quote_chars s
    else JSON.quote_char c ++ JSON.quote_chars (d :: s).
Proof. reflexivity. Qed.

Lemma parse_quote_chars (s : jsstring) (rest : jsstring) :
  JSON.parse_string (JSON.quote_chars s ++ 34%N :: rest) = JSON.POk s rest.
Proof.
  remember (length s) as n eqn:Hn.
  assert (Hle : (length s <= n)%nat) by lia. clear Hn.
  revert s Hle. induction n as [|n IH]; intros s Hle.
  - destruct s; [reflexivity | simpl in Hle; lia].
  - destruct s as [|c [|d s]].
    + reflexivity.
    + cbn [JSON.quote_chars]. rewrite parse_quote_char.
      change (JSON.parse_string (34%N :: rest)) with (JSON.POk (@nil char) rest).
      reflexivity.
    + rewrite quote_chars_cons.
      destruct (JSON.is_high_surrogate c && JSON.is_low_surrogate d) eqn:Ep.
      * apply andb_prop in Ep as [Hc Hd].
        unfold JSON.is_high_surrogate in Hc. unfold JSON.is_low_surrogate in Hd.
        apply andb_prop in Hc as [Hc _]. apply andb_prop in Hd as [Hd _].
        apply N.leb_le in Hc, Hd.
        cbn [app].
        rewrite (parse_plain_char c) by lia.
        rewrite (parse_plain_char d) by lia.
        rewrite IH by (cbn [length] in *; lia). reflexivity.
      * rewrite <- app_assoc, parse_quote_char.
        rewrite IH by (cbn [length] in *; lia). reflexivity.
Qed.

(** A quoted string reads back as the string. *)
Lemma parse_quote (s : jsstring) (rest : jsstring) :
  JSON.parse_string (tl (JSON.quote s ++ rest)) = JSON.POk s rest.
Proof.
  unfold JSON.quote. cbn [app tl]. rewrite <- app_assoc. apply parse_quote_chars.
Qed.

(** ** Values *)

Lemma value_induction (P : value -> Prop) :
  P VNull ->
  (forall b, P (VBool b)) ->
  (forall n, P (VNum n)) ->
  (forall s, P (VStr s)) ->
  (forall l, Forall P l -> P (VArr l)) ->
  (forall o, Forall (fun kv => P (snd kv)) o -> P (VObj o)) ->
  forall v, P v.
Proof.
  intros Hnull Hbool Hnum Hstr Harr Hobj.
  fix IH 1. intros [| b | n | s | l | o].
  - exact Hnull.
  - apply Hbool.
  - apply Hnum.
  - apply Hstr.
  - apply Harr. induction l as [|v l IHl]; constructor; [apply IH | exact IHl].
  - apply Hobj. induction o as [|[k v] o IHo]; constructor; [apply IH | exact IHo].
Qed.

Lemma serialize_arr (gap indent : nat) (v0 : value) (l : list value) :
  JSON.serialize gap indent (VArr (v0 :: l))
  = ch "[" :: JSON.newline gap (indent + gap) ++
    JSON.serialize gap (indent + gap) v0 ++ elements_text gap indent l.
Proof.
  cbn [JSON.serialize]. do 3 f_equal.
  induction l as [|v l IH]; [reflexivity|].
  cbn [elements_text]. now rewrite IH.
Qed.

Lemma serialize_obj (gap indent : nat) (k0 : jsstring) (v0 : value) (o : object) :
  JSON.serialize gap indent (VObj ((k0, v0) :: o))
  = ch "{" :: JSON.newline gap (indent + gap) ++ JSON.quote k0 ++ JSON.colon gap ++
    JSON.serialize gap (indent + gap) v0 ++ members_text gap indent o.
Proof.
  cbn [JSON.serialize]. do 5 f_equal.
  induction o as [|[k v] o IH]; [reflexivity|].
  cbn [members_text]. now rewrite IH.
Qed.

(** ** Objects without repeated names *)

Lemma nodup_keys_NoDup (ks : list jsstring) : nodup_keys ks = true <-> NoDup ks.
Proof.
  induction ks as [|k ks IH]; simpl.
  - split; [constructor | reflexivity].
  - rewrite andb_true_iff, negb_true_iff, IH, NoDup_cons_iff.
    split; intros [H1 H2]; split; try assumption.
    + intro Hin. assert (Hex : existsb (str_eqb k) ks = true).
      { apply existsb_exists. exists k. split; [exact Hin | apply str_eqb_refl]. }
      congruence.
    + destruct (existsb (str_eqb k) ks) eqn:E; [|reflexivity].
      apply existsb_exists in E as (k' & Hin & Heq).
      apply str_eqb_eq in Heq. subst k'. contradiction.
Qed.

Lemma object_of_nodup (o : object) :
  nodup_keys (keys o) = true -> ordered_keys (keys o) = true ->
  JSON.object_of o = VObj o.
Proof.
  intros H Ho. unfold JSON.object_of. f_equal.
  apply (obj_assign_fresh o []); [now apply nodup_keys_NoDup | exact Ho].
Qed.

(** ** White space *)

Lemma skip_ws_spaces (n : nat) (t : jsstring) :
  JSON.skip_ws (JSON.spaces n ++ t) = JSON.skip_ws t.
Proof. induction n as [|n IH]; [reflexivity | exact IH]. Qed.

Lemma skip_ws_newline (gap indent : nat) (t : jsstring) :
  JSON.skip_ws (JSON.newline gap indent ++ t) = JSON.skip_ws t.
Proof.
  destruct gap as [|gap]; [reflexivity|].
  cbn [JSON.newline app]. change (JSON.skip_ws (LF :: JSON.spaces indent ++ t))
    with (JSON.skip_ws (JSON.spaces indent ++ t)).
  apply skip_ws_spaces.
Qed.

Lemma skip_ws_start (c : char) (t : jsstring) :
  JSON.is_ws c = false -> JSON.skip_ws (c :: t) = c :: t.
Proof. intro H. simpl. now rewrite H. Qed.

Lemma skip_ws_starts_value (s rest : jsstring) :
  starts_value s -> JSON.skip_ws (s ++ rest) = s ++ rest.
Proof. intros (c & t & -> & H & _). now apply skip_ws_start. Qed.

Lemma parse_value_skip_ws (f : nat) (s : jsstring) :
  JSON.parse_value f s = JSON.parse_value f (JSON.skip_ws s).
Proof.
  assert (Hidem : JSON.skip_ws (JSON.skip_ws s) = JSON.skip_ws s).
  { induction s as [|c s IH]; [reflexivity|]. simpl.
    destruct (JSON.is_ws c) eqn:E; [exact IH | simpl; now rewrite E]. }
  destruct f; simpl; [reflexivity | now rewrite Hidem].
Qed.

Lemma parse_value_newline (f gap indent : nat) (t : jsstring) :
  JSON.parse_value f (JSON.newline gap indent ++ t) = JSON.parse_value f t.
Proof.
  rewrite parse_value_skip_ws, skip_ws_newline, <- parse_value_skip_ws.
  reflexivity.
Qed.

(** ** The first character of a value *)

Lemma parse_number_head (s rest : jsstring) (x : number) :
  JSON.parse_number s = JSON.POk x rest ->
  exists c t, s = c :: t /\ (c = 45%N \/ is_digit c = true).
Proof.
  unfold JSON.parse_number. destruct s as [|c t]; [discriminate|].
  intro H. exists c, t. split; [reflexivity|].
  destruct (c =? 45)%N eqn:E; [left; now apply N.eqb_eq|].
  right. destruct (is_digit c); [reflexivity | discriminate].
Qed.


Lemma number_head (c : char) :
  c = 45%N \/ is_digit c = true ->
  JSON.is_ws c = false /\
  (c =? 34)%N = false /\ (c =? 91)%N = false /\ (c =? 123)%N = false /\
  (c =? 116)%N = false /\ (c =? 102)%N = false /\ (c =? 110)%N = false /\
  c <> 93%N.
Proof.
  intros [-> | H]; [repeat split; discriminate|].
  unfold is_digit in H. apply andb_prop in H as [H1 H2].
  apply N.leb_le in H1, H2. unfold JSON.is_ws.
  repeat split; try (apply N.eqb_neq; lia); try lia.
  repeat (apply orb_false_intro); apply N.eqb_neq; lia.
Qed.

Lemma number_to_string_head (n : number) :
  num_okb n = true -> is_finite n = true ->
  exists c t, number_to_string n = c :: t /\ (c = 45%N \/ is_digit c = true).
Proof.
  intros Hok Hfin.
  assert (H := parse_number_to_string n [] Hok Hfin I).
  rewrite app_nil_r in H. exact (parse_number_head _ _ _ H).
Qed.

Lemma serialize_starts (gap indent : nat) (v : value) :
  value_okb v = true -> starts_value (JSON.serialize gap indent v).
Proof.
  intro Hok. unfold starts_value. destruct v as [| [|] | n | s | [|v0 l] | [|[k0 v0] o]];
    try (cbn; do 2 eexists; split; [reflexivity | split; [reflexivity | discriminate]]).
  - cbn [JSON.serialize]. destruct (is_finite n) eqn:Hfin.
    + destruct (number_to_string_head n Hok Hfin) as (c & t & -> & Hc).
      exists c, t. split; [reflexivity|].
      destruct (number_head c Hc) as (H1 & _ & _ & _ & _ & _ & _ & H2). now split.
    + cbn. do 2 eexists; split; [reflexivity | split; [reflexivity | discriminate]].
Qed.

(** ** Reading back what [JSON.stringify] wrote *)

Lemma parse_value_number (f : nat) (c : char) (t : jsstring) :
  c = 45%N \/ is_digit c = true ->
  JSON.parse_value (S f) (c :: t) = JSON.pmap VNum (JSON.parse_number (c :: t)).
Proof.
  intro H. destruct (number_head c H) as (Hws & H1 & H2 & H3 & H4 & H5 & H6 & _).
  cbn [JSON.parse_value]. rewrite skip_ws_start by exact Hws.
  now rewrite H1, H2, H3, H4, H5, H6.
Qed.

Lemma parse_value_string (f : nat) (t : jsstring) :
  JSON.parse_value (S f) (34%N :: t) = JSON.pmap VStr (JSON.parse_string t).
Proof. reflexivity. Qed.

Lemma parse_value_array (f : nat) (t : jsstring) :
  JSON.parse_value (S f) (91%N :: t)
  = match JSON.skip_ws t with
    | d :: t' =>
        if (d =? 93)%N then JSON.POk (VArr []) t'
        else JSON.pmap VArr (JSON.parse_elements f t)
    | [] => JSON.PErr
    end.
Proof. reflexivity. Qed.

Lemma parse_value_object (f : nat) (t : jsstring) :
  JSON.parse_value (S f) (123%N :: t)
  = match JSON.skip_ws t with
    | d :: t' =>
        if (d =? 125)%N then JSON.POk (VObj []) t'
        else JSON.pmap JSON.object_of (JSON.parse_members f t)
    | [] => JSON.PErr
    end.
Proof. reflexivity. Qed.

Lemma parse_elements_step (f : nat) (s : jsstring) :
  JSON.parse_elements (S f) s
  = match JSON.parse_value f s with
    | JSON.POk v r =>
        match JSON.skip_ws r with
        | c :: r' =>
            if (c =? 44)%N then JSON.pmap (cons v) (JSON.parse_elements f r')
            else if (c =? 93)%N then JSON.POk [v] r'
            else JSON.PErr
        | [] => JSON.PErr
        end
    | JSON.PErr => JSON.PErr
    | JSON.PFuel => JSON.PFuel
    end.
Proof. reflexivity. Qed.

Lemma parse_members_step (f : nat) (s : jsstring) :
  JSON.parse_members (S f) s
  = match JSON.skip_ws s with
    | q :: s1 =>
        if (q =? 34)%N then
          match JSON.parse_string s1 with
          | JSON.POk k r =>
              match JSON.skip_ws r with
              | c :: r1 =>
                  if (c =? 58)%N then
                    match JSON.parse_value f r1 with
                    | JSON.POk v r2 =>
                        match JSON.skip_ws r2 with
                        | d :: r3 =>
                            if (d =? 44)%N
                            then JSON.pmap (cons (k, v)) (JSON.parse_members f r3)
                            else if (d =? 125)%N then JSON.POk [(k, v)] r3
                            else JSON.PErr
                        | [] => JSON.PErr
                        end
                    | JSON.PErr => JSON.PErr
                    | JSON.PFuel => JSON.PFuel
                    end
                  else JSON.PErr
              | [] => JSON.PErr
              end
          | JSON.PErr => JSON.PErr
          | JSON.PFuel => JSON.PFuel
          end
        else JSON.PErr
    | [] => JSON.PErr
    end.
Proof. reflexivity. Qed.

Lemma ends_number_elements (gap indent : nat) (l : list value) (rest : jsstring) :
  ends_number (elements_text gap indent l ++ rest).
Proof.
  destruct l as [|v l]; [destruct gap|]; cbn; repeat split; discriminate.
Qed.

Lemma ends_number_members (gap indent : nat) (o : object) (rest : jsstring) :
  ends_number (members_text gap indent o ++ rest).
Proof.
  destruct o as [|[k v] o]; [destruct gap|]; cbn; repeat split; discriminate.
Qed.

(** The elements of an array, from the first one to the closing bracket. *)
Lemma parse_elements_text (gap indent : nat) (l : list value) :
  Forall reads_back l -> forallb value_okb l = true ->
  forall v0 f rest,
    reads_back v0 -> value_okb v0 = true ->
    (S (need v0 + fold_right (fun x a => S (need x + a)) 0 l) <= f)%nat ->
    ends_number rest ->
    JSON.parse_elements f
      (JSON.newline gap (indent + gap) ++ JSON.serialize gap (indent + gap) v0 ++
       elements_text gap indent l ++ rest)
    = JSON.POk (to_json v0 :: map to_json l) rest.
Proof.
  induction l as [|v1 l IHl]; intros Hall Hoks v0 f rest IH0 Hok0 Hf Hrest;
    (destruct f as [|f]; [lia|]);
    rewrite parse_elements_step, parse_value_newline;
    rewrite (IH0 Hok0) by (try apply ends_number_elements; cbn [fold_right] in Hf; lia).
  - cbn [elements_text]. rewrite <- app_assoc, skip_ws_newline. reflexivity.
  - cbn [elements_text app].
    rewrite skip_ws_start by reflexivity.
    cbn [N.eqb Pos.eqb ch N_of_ascii].
    rewrite <- !app_assoc.
    cbn [forallb] in Hoks. apply andb_prop in Hoks as [Hok1 Hoks].
    inversion Hall as [|? ? IH1 Hall']; subst.
    rewrite IHl; try assumption; [reflexivity|].
    cbn [fold_right] in Hf. lia.
Qed.

Lemma keys_to_json (o : object) : keys (map to_json_member o) = keys o.
Proof. unfold keys. rewrite map_map. reflexivity. Qed.

Lemma skip_ws_colon (gap : nat) (t : jsstring) :
  JSON.skip_ws (JSON.colon gap ++ t) = 58%N :: (tl (JSON.colon gap) ++ t).
Proof. destruct gap; reflexivity. Qed.

Lemma parse_value_colon_tail (f gap : nat) (t : jsstring) :
  JSON.parse_value f (tl (JSON.colon gap) ++ t) = JSON.parse_value f t.
Proof.
  destruct gap; [reflexivity|].
  rewrite parse_value_skip_ws. cbn [JSON.colon tl app].
  change (JSON.skip_ws (ch " " :: t)) with (JSON.skip_ws t).
  now rewrite <- parse_value_skip_ws.
Qed.

(** The members of an object, from the first one to the closing brace. *)
Lemma parse_members_text (gap indent : nat) (o : object) :
  Forall (fun kv => reads_back (snd kv)) o ->
  forallb (fun kv => value_okb (snd kv)) o = true ->
  forall k0 v0 f rest,
    reads_back v0 -> value_okb v0 = true ->
    (S (need v0 + fold_right (fun kv a => S (need (snd kv) + a)) 0 o) <= f)%nat ->
    ends_number rest ->
    JSON.parse_members f
      (JSON.newline gap (indent + gap) ++ JSON.quote k0 ++ JSON.colon gap ++
       JSON.serialize gap (indent + gap) v0 ++ members_text gap indent o ++ rest)
    = JSON.POk (map to_json_member ((k0, v0) :: o)) rest.
Proof.
  induction o as [|[k1 v1] o IHo]; intros Hall Hoks k0 v0 f rest IH0 Hok0 Hf Hrest;
    (destruct f as [|f]; [lia|]);
    rewrite parse_members_step, skip_ws_newline;
    unfold JSON.quote at 1; cbn [app];
    rewrite skip_ws_start by reflexivity;
    cbn [N.eqb Pos.eqb];
    rewrite <- app_assoc; cbn [app];
    rewrite parse_quote_chars, skip_ws_colon;
    cbn [N.eqb Pos.eqb];
    rewrite parse_value_colon_tail;
    rewrite (IH0 Hok0) by (try apply ends_number_members; cbn [fold_right] in Hf; lia).
  - cbn [members_text]. rewrite <- app_assoc, skip_ws_newline. reflexivity.
  - cbn [members_text app].
    rewrite skip_ws_start by reflexivity.
    cbn [N.eqb Pos.eqb ch N_of_ascii].
    rewrite <- !app_assoc.
    cbn [forallb snd] in Hoks. apply andb_prop in Hoks as [Hok1 Hoks].
    inversion Hall as [|? ? IH1 Hall']; subst. cbn [snd] in IH1.
    rewrite IHo; try assumption; [reflexivity|].
    cbn [fold_right snd] in Hf. lia.
Qed.

Lemma parse_serialize (v : value) : reads_back v.
Proof.
  induction v as [| b | n | s | l IHl | o IHo] using value_induction;
    intros Hok f gap indent rest Hf Hrest;
    (destruct f as [|f]; [cbn in Hf; lia|]).
  - reflexivity.
  - destruct b; reflexivity.
  - cbn [JSON.serialize to_json]. destruct (is_finite n) eqn:Hfin; [|reflexivity].
    destruct (number_to_string_head n Hok Hfin) as (c & t & Htext & Hc).
    rewrite Htext. cbn [app]. rewrite parse_value_number by exact Hc.
    change (c :: t ++ rest) with ((c :: t) ++ rest). rewrite <- Htext.
    now rewrite parse_number_to_string.
  - cbn [JSON.serialize to_json]. unfold JSON.quote. cbn [app].
    rewrite parse_value_string, <- app_assoc. cbn [app].
    now rewrite parse_quote_chars.
  - destruct l as [|v0 l]; [reflexivity|].
    rewrite serialize_arr. cbn [app]. rewrite parse_value_array.
    rewrite <- !app_assoc.
    cbn [value_okb forallb] in Hok. apply andb_prop in Hok as [Hok0 Hoks].
    inversion IHl as [|? ? IH0 IHl']; subst.
    rewrite skip_ws_newline.
    destruct (serialize_starts gap (indent + gap) v0 Hok0) as (c & t & Htext & Hws & Hc).
    rewrite Htext at 1. cbn [app]. rewrite skip_ws_start by exact Hws.
    apply N.eqb_neq in Hc. rewrite Hc.
    rewrite parse_elements_text; try assumption; [reflexivity|].
    cbn [need fold_right] in Hf. lia.
  - destruct o as [|[k0 v0] o]; [reflexivity|].
    rewrite serialize_obj. cbn [app]. rewrite parse_value_object.
    rewrite <- !app_assoc.
    cbn [value_okb forallb map fst snd] in Hok.
    apply andb_prop in Hok as [Hnd Hok]. apply andb_prop in Hok as [Hok0 Hoks].
    inversion IHo as [|? ? IH0 IHo']; subst. cbn [snd] in IH0.
    rewrite skip_ws_newline. unfold JSON.quote at 1. cbn [app].
    rewrite skip_ws_start by reflexivity. cbn [N.eqb Pos.eqb].
    change (34%N :: (JSON.quote_chars k0 ++ [34%N]) ++
            JSON.colon gap ++ JSON.serialize gap (indent + gap) v0 ++
            members_text gap indent o ++ rest)
      with (JSON.quote k0 ++ JSON.colon gap ++ JSON.serialize gap (indent + gap) v0 ++
            members_text gap indent o ++ rest).
    rewrite parse_members_text; try assumption.
    + cbn [JSON.pmap to_json]. f_equal.
      change (map (fun kv => (fst kv, to_json (snd kv))) ((k0, v0) :: o))
        with (map to_json_member ((k0, v0) :: o)).
      apply andb_prop in Hnd as [Hnd Hord].
      apply object_of_nodup; rewrite keys_to_json; assumption.
    + cbn [need fold_right snd] in Hf. lia.
Qed.

(** ** What the parser builds is well-formed *)

Lemma parse_number_ok (s rest : jsstring) (n : number) :
  JSON.parse_number s = JSON.POk n rest -> num_okb n = true.
Proof.
  unfold JSON.parse_number.
  destruct (match s with
            | [] => (false, [])
            | c :: s' => if (c =? 45)%N then (true, s') else (false, s)
            end) as [neg s1].
  destruct s1 as [|c s1']; [discriminate|].
  destruct (is_digit c); [|discriminate].
  destruct (if (c =? 48)%N then ([0%N], s1') else scan_digits (c :: s1')) as [ip s2].
  destruct (JSON.parse_fraction s2) as [[fp s3]|]; [|discriminate].
  destruct (JSON.parse_exponent s3) as [[x s4]|]; [|discriminate].
  intros [= <- <-]. apply make_number_okb. lia.
Qed.

Lemma okb_arr (l : list value) :
  Forall (fun v => value_okb v = true) l -> value_okb (VArr l) = true.
Proof.
  intro H. cbn [value_okb]. apply forallb_forall. now apply Forall_forall.
Qed.

Lemma okb_obj (o : object) :
  NoDup (keys o) -> ordered_keys (keys o) = true ->
  Forall (fun kv => value_okb (snd kv) = true) o ->
  value_okb (VObj o) = true.
Proof.
  intros Hnd Ho H. cbn [value_okb]. fold (keys o). rewrite Ho.
  rewrite (proj2 (nodup_keys_NoDup (keys o)) Hnd). cbn [andb].
  apply forallb_forall. now apply Forall_forall.
Qed.

Lemma parse_literal_value (p : string) (v v' : value) (s rest : jsstring) :
  JSON.parse_literal p v s = JSON.POk v' rest -> v' = v.
Proof.
  unfold JSON.parse_literal. destruct (JSON.strip_prefix (str p) s); [|discriminate].
  now intros [= <- _].
Qed.

Lemma pmap_ok {A B : Type} (g : A -> B) (r : JSON.presult A) (b : B) (rest : jsstring) :
  JSON.pmap g r = JSON.POk b rest -> exists a, r = JSON.POk a rest /\ b = g a.
Proof.
  destruct r as [a rest'| |]; simpl; try discriminate.
  intros [= <- <-]. eauto.
Qed.

Lemma parse_value_ok (f : nat) :
  (forall s v rest, JSON.parse_value f s = JSON.POk v rest -> value_okb v = true) /\
  (forall s l rest, JSON.parse_elements f s = JSON.POk l rest ->
                    Forall (fun v => value_okb v = true) l) /\
  (forall s ms rest, JSON.parse_members f s = JSON.POk ms rest ->
                     Forall (fun kv => value_okb (snd kv) = true) ms).
Proof.
  induction f as [|f (IHv & IHe & IHm)]; [repeat split; discriminate|].
  split; [|split].
  - intros s v rest. cbn [JSON.parse_value].
    destruct (JSON.skip_ws s) as [|c s']; [discriminate|].
    destruct (c =? 34)%N.
    { intro H. apply pmap_ok in H as (t & _ & ->). reflexivity. }
    destruct (c =? 91)%N.
    { destruct (JSON.skip_ws s') as [|d s'']; [discriminate|].
      destruct (d =? 93)%N; [now intros [= <- _]|].
      intro H. apply pmap_ok in H as (l & H & ->).
      apply okb_arr. exact (IHe _ _ _ H). }
    destruct (c =? 123)%N.
    { destruct (JSON.skip_ws s') as [|d s'']; [discriminate|].
      destruct (d =? 125)%N; [now intros [= <- _]|].
      intro H. apply pmap_ok in H as (ms & H & ->).
      unfold JSON.object_of. apply okb_obj.
      - apply obj_assign_NoDup. constructor.
      - now apply obj_assign_ordered.
      - apply (obj_assign_Forall (fun v => value_okb v = true));
          [exact (IHm _ _ _ H) | constructor]. }
    destruct (c =? 116)%N; [intro H; now rewrite (parse_literal_value _ _ _ _ _ H)|].
    destruct (c =? 102)%N; [intro H; now rewrite (parse_literal_value _ _ _ _ _ H)|].
    destruct (c =? 110)%N; [intro H; now rewrite (parse_literal_value _ _ _ _ _ H)|].
    intro H. apply pmap_ok in H as (n & H & ->).
    apply parse_number_ok in H. exact H.
  - intros s l rest. rewrite parse_elements_step.
    destruct (JSON.parse_value f s) as [v r| |] eqn:Hv; try discriminate.
    destruct (JSON.skip_ws r) as [|c r']; [discriminate|].
    destruct (c =? 44)%N.
    { intro H. apply pmap_ok in H as (l' & H & ->).
      constructor; [exact (IHv _ _ _ Hv) | exact (IHe _ _ _ H)]. }
    destruct (c =? 93)%N; [|discriminate].
    intros [= <- _]. constructor; [exact (IHv _ _ _ Hv) | constructor].
  - intros s ms rest. rewrite parse_members_step.
    destruct (JSON.skip_ws s) as [|q s1]; [discriminate|].
    destruct (q =? 34)%N; [|discriminate].
    destruct (JSON.parse_string s1) as [k r| |]; try discriminate.
    destruct (JSON.skip_ws r) as [|c r1]; [discriminate|].
    destruct (c =? 58)%N; [|discriminate].
    destruct (JSON.parse_value f r1) as [v r2| |] eqn:Hv; try discriminate.
    destruct (JSON.skip_ws r2) as [|d r3]; [discriminate|].
    destruct (d =? 44)%N.
    { intro H. apply pmap_ok in H as (ms' & H & ->).
      constructor; [exact (IHv _ _ _ Hv) | exact (IHm _ _ _ H)]. }
    destruct (d =? 125)%N; [|discriminate].
    intros [= <- _]. constructor; [exact (IHv _ _ _ Hv) | constructor].
Qed.

(** Every value [JSON.parse] returns is well-formed. *)
Lemma JSON_parse_okb (text : jsstring) (v : value) :
  JSON.parse text = Some v -> value_okb v = true.
Proof.
  unfold JSON.parse.
  destruct (JSON.parse_value (2 * length text + 1) text) as [v' rest| |] eqn:H;
    try discriminate.
  destruct (JSON.skip_ws rest); [|discriminate].
  intros [= <-]. exact (proj1 (parse_value_ok _) _ _ _ H).
Qed.

Lemma to_json_finite (v : value) : finite_numbers v = true -> to_json v = v.
Proof.
  induction v as [| b | n | s | l IHl | o IHo] using value_induction;
    cbn [finite_numbers to_json]; intro H; try reflexivity.
  - now rewrite H.
  - f_equal. induction IHl as [|v l Hv _ IH]; [reflexivity|].
    cbn [forallb] in H. apply andb_prop in H as [H1 H2].
    cbn [map]. now rewrite Hv, IH.
  - f_equal. induction IHo as [|[k v] o Hv _ IH]; [reflexivity|].
    cbn [forallb snd] in H. apply andb_prop in H as [H1 H2].
    cbn [map fst snd]. cbn [snd] in Hv. now rewrite Hv, IH.
Qed.

(** ** The recursion budget of [JSON.parse] *)

Lemma skip_ws_length (s : jsstring) : (length (JSON.skip_ws s) <= length s)%nat.
Proof.
  induction s as [|c s IH]; simpl; [lia|].
  destruct (JSON.is_ws c); simpl; lia.
Qed.

Lemma scan_digits_length (s : jsstring) :
  (length (snd (scan_digits s)) <= length s)%nat.
Proof.
  induction s as [|c s IH]; simpl; [lia|].
  destruct (is_digit c); [|simpl; lia].
  destruct (scan_digits s) as [ds r]. simpl in *. lia.
Qed.

Lemma parse_string_length (s t rest : jsstring) :
  JSON.parse_string s = JSON.POk t rest -> (length rest < length s)%nat.
Proof.
  assert (H : forall n s t rest,
             (length s <= n)%nat -> JSON.parse_string s = JSON.POk t rest ->
             (length rest < length s)%nat).
  { clear. induction n as [|n IH]; intros s t rest Hle.
    - destruct s; [discriminate | simpl in Hle; lia].
    - destruct s as [|c s']; [discriminate|]. cbn [JSON.parse_string].
      destruct (c =? 34)%N; [intros [= _ <-]; simpl; lia|].
      destruct (c =? 92)%N.
      + destruct s' as [|e s'']; [discriminate|].
        destruct (e =? 117)%N.
        * destruct s'' as [|h1 [|h2 [|h3 [|h4 s3]]]]; try discriminate.
          destruct (JSON.hex4 h1 h2 h3 h4); [|discriminate].
          intro H. apply pmap_ok in H as (t' & H & _).
          apply IH in H; cbn [length] in *; lia.
        * destruct (JSON.simple_escape e); [|discriminate].
          intro H. apply pmap_ok in H as (t' & H & _).
          apply IH in H; cbn [length] in *; lia.
      + destruct (c <? 32)%N; [discriminate|].
        intro H. apply pmap_ok in H as (t' & H & _).
        apply IH in H; cbn [length] in *; lia. }
  apply (H (length s)). lia.
Qed.

Lemma parse_string_no_fuel (s : jsstring) : JSON.parse_string s <> JSON.PFuel.
Proof.
  remember (length s) as n eqn:Hn.
  assert (Hle : (length s <= n)%nat) by lia. clear Hn.
  revert s Hle. induction n as [|n IH]; intros s Hle.
  - destruct s; [discriminate | simpl in Hle; lia].
  - assert (Hp : forall (g : jsstring -> jsstring) s0,
               (length s0 <= n)%nat -> JSON.pmap g (JSON.parse_string s0) <> JSON.PFuel).
    { intros g s0 H0. specialize (IH s0 H0).
      destruct (JSON.parse_string s0); [discriminate | discriminate | congruence]. }
    destruct s as [|c s']; [discriminate|]. cbn [JSON.parse_string].
    destruct (c =? 34)%N; [discriminate|].
    destruct (c =? 92)%N.
    + destruct s' as [|e s'']; [discriminate|].
      destruct (e =? 117)%N.
      * destruct s'' as [|h1 [|h2 [|h3 [|h4 s3]]]]; try discriminate.
        destruct (JSON.hex4 h1 h2 h3 h4); [|discriminate].
        apply Hp. cbn [length] in *. lia.
      * destruct (JSON.simple_escape e); [|discriminate].
        apply Hp. cbn [length] in *. lia.
    + destruct (c <? 32)%N; [discriminate|].
      apply Hp. cbn [length] in *. lia.
Qed.

Lemma parse_fraction_length (s s' : jsstring) (fp : list N) :
  JSON.parse_fraction s = Some (fp, s') -> (length s' <= length s)%nat.
Proof.
  unfold JSON.parse_fraction. destruct s as [|c s1]; [intros [= _ <-]; lia|].
  destruct (c =? 46)%N; [|intros [= _ <-]; lia].
  pose proof (scan_digits_length s1) as H.
  destruct (scan_digits s1) as [ds s2]. destruct ds; [discriminate|].
  intros [= _ <-]. simpl in *. lia.
Qed.

Lemma parse_exponent_length (s s' : jsstring) (x : Z) :
  JSON.parse_exponent s = Some (x, s') -> (length s' <= length s)%nat.
Proof.
  unfold JSON.parse_exponent. destruct s as [|c s1]; [intros [= _ <-]; lia|].
  destruct ((c =? 101)%N || (c =? 69)%N); [|intros [= _ <-]; lia].
  assert (Hs : exists neg s2,
             match s1 with
             | [] => (false, [])
             | d :: s1' =>
                 if (d =? 45)%N then (true, s1')
                 else if (d =? 43)%N then (false, s1') else (false, s1)
             end = (neg, s2) /\ (length s2 <= length s1)%nat).
  { destruct s1 as [|d s1']; [exists false, []; split; [reflexivity | lia]|].
    destruct (d =? 45)%N; [exists true, s1'; split; [reflexivity | simpl; lia]|].
    destruct (d =? 43)%N; [exists false, s1'; split; [reflexivity | simpl; lia]|].
    exists false, (d :: s1'). split; [reflexivity | lia]. }
  destruct Hs as (neg & s2 & -> & Hlen).
  pose proof (scan_digits_length s2) as H.
  destruct (scan_digits s2) as [ds s3]. destruct ds; [discriminate|].
  intros [= _ <-]. simpl in *. lia.
Qed.

Lemma parse_number_length (s rest : jsstring) (n : number) :
  JSON.parse_number s = JSON.POk n rest -> (length rest < length s)%nat.
Proof.
  unfold JSON.parse_number.
  assert (Hs : exists neg s1,
             match s with
             | [] => (false, [])
             | c :: s' => if (c =? 45)%N then (true, s') else (false, s)
             end = (neg, s1) /\ (length s1 <= length s)%nat).
  { destruct s as [|c s']; [exists false, []; split; [reflexivity | lia]|].
    destruct (c =? 45)%N; [exists true, s' | exists false, (c :: s')];
      (split; [reflexivity | simpl; lia]). }
  destruct Hs as (neg & s1 & -> & Hlen).
  destruct s1 as [|c s1']; [discriminate|].
  destruct (is_digit c) eqn:Hc; [|discriminate].
  assert (Hip : exists ip s2,
             (if (c =? 48)%N then ([0%N], s1') else scan_digits (c :: s1')) = (ip, s2) /\
             (length s2 <= length s1')%nat).
  { destruct (c =? 48)%N; [exists [0%N], s1'; split; [reflexivity | lia]|].
    cbn [scan_digits]. rewrite Hc.
    pose proof (scan_digits_length s1') as H.
    destruct (scan_digits s1') as [ds r]. exists ((c - 48)%N :: ds), r.
    split; [reflexivity | exact H]. }
  destruct Hip as (ip & s2 & -> & Hlen2).
  destruct (JSON.parse_fraction s2) as [[fp s3]|] eqn:Hf; [|discriminate].
  destruct (JSON.parse_exponent s3) as [[x s4]|] eqn:Hx; [|discriminate].
  intros [= _ <-].
  apply parse_fraction_length in Hf. apply parse_exponent_length in Hx.
  cbn [length] in *. lia.
Qed.

Lemma strip_prefix_length (p s rest : jsstring) :
  JSON.strip_prefix p s = Some rest -> (length rest + length p = length s)%nat.
Proof.
  revert s. induction p as [|c p IH]; intros s; simpl.
  - intros [= <-]. lia.
  - destruct s as [|d s]; [discriminate|].
    destruct (c =? d)%N; [|discriminate].
    intro H. apply IH in H. simpl. lia.
Qed.

Lemma parse_literal_length (p : string) (v v' : value) (s rest : jsstring) :
  p <> EmptyString ->
  JSON.parse_literal p v s = JSON.POk v' rest -> (length rest < length s)%nat.
Proof.
  intro Hp. unfold JSON.parse_literal.
  destruct (JSON.strip_prefix (str p) s) eqn:H; [|discriminate].
  intros [= _ <-]. apply strip_prefix_length in H.
  destruct p; [congruence|]. simpl in H. lia.
Qed.

(** A parser that succeeds has consumed some text. *)
Lemma parse_value_length (f : nat) :
  (forall s v rest, JSON.parse_value f s = JSON.POk v rest ->
                    (length rest < length s)%nat) /\
  (forall s l rest, JSON.parse_elements f s = JSON.POk l rest ->
                    (length rest < length s)%nat) /\
  (forall s ms rest, JSON.parse_members f s = JSON.POk ms rest ->
                     (length rest < length s)%nat).
Proof.
  induction f as [|f (IHv & IHe & IHm)]; [repeat split; discriminate|].
  split; [|split].
  - intros s v rest. cbn [JSON.parse_value].
    pose proof (skip_ws_length s) as Hs.
    destruct (JSON.skip_ws s) as [|c s']; [discriminate|]. cbn [length] in Hs.
    destruct (c =? 34)%N.
    { intro H. apply pmap_ok in H as (t & H & _).
      apply parse_string_length in H. lia. }
    destruct (c =? 91)%N.
    { pose proof (skip_ws_length s') as Hs'.
      destruct (JSON.skip_ws s') as [|d s'']; [discriminate|]. cbn [length] in Hs'.
      destruct (d =? 93)%N; [intros [= _ <-]; lia|].
      intro H. apply pmap_ok in H as (l & H & _). apply IHe in H. lia. }
    destruct (c =? 123)%N.
    { pose proof (skip_ws_length s') as Hs'.
      destruct (JSON.skip_ws s') as [|d s'']; [discriminate|]. cbn [length] in Hs'.
      destruct (d =? 125)%N; [intros [= _ <-]; lia|].
      intro H. apply pmap_ok in H as (ms & H & _). apply IHm in H. lia. }
    destruct (c =? 116)%N;
      [intro H; apply parse_literal_length in H; [cbn [length] in H; lia | discriminate]|].
    destruct (c =? 102)%N;
      [intro H; apply parse_literal_length in H; [cbn [length] in H; lia | discriminate]|].
    destruct (c =? 110)%N;
      [intro H; apply parse_literal_length in H; [cbn [length] in H; lia | discriminate]|].
    intro H. apply pmap_ok in H as (n & H & _).
    apply parse_number_length in H. cbn [length] in H. lia.
  - intros s l rest. rewrite parse_elements_step.
    destruct (JSON.parse_value f s) as [v r| |] eqn:Hv; try discriminate.
    apply IHv in Hv. pose proof (skip_ws_length r) as Hr.
    destruct (JSON.skip_ws r) as [|c r']; [discriminate|]. cbn [length] in Hr.
    destruct (c =? 44)%N.
    { intro H. apply pmap_ok in H as (l' & H & _). apply IHe in H. lia. }
    destruct (c =? 93)%N; [|discriminate].
    intros [= _ <-]. lia.
  - intros s ms rest. rewrite parse_members_step.
    pose proof (skip_ws_length s) as Hs.
    destruct (JSON.skip_ws s) as [|q s1]; [discriminate|]. cbn [length] in Hs.
    destruct (q =? 34)%N; [|discriminate].
    destruct (JSON.parse_string s1) as [k r| |] eqn:Hk; try discriminate.
    apply parse_string_length in Hk. pose proof (skip_ws_length r) as Hr.
    destruct (JSON.skip_ws r) as [|c r1]; [discriminate|]. cbn [length] in Hr.
    destruct (c =? 58)%N; [|discriminate].
    destruct (JSON.parse_value f r1) as [v r2| |] eqn:Hv; try discriminate.
    apply IHv in Hv. pose proof (skip_ws_length r2) as Hr2.
    destruct (JSON.skip_ws r2) as [|d r3]; [discriminate|]. cbn [length] in Hr2.
    destruct (d =? 44)%N.
    { intro H. apply pmap_ok in H as (ms' & H & _). apply IHm in H. lia. }
    destruct (d =? 125)%N; [|discriminate].
    intros [= _ <-]. lia.
Qed.

Lemma pmap_no_fuel {A B : Type} (g : A -> B) (r : JSON.presult A) :
  r <> JSON.PFuel -> JSON.pmap g r <> JSON.PFuel.
Proof. destruct r; simpl; congruence. Qed.

Lemma pmap_fuel {A B : Type} (g : A -> B) (r : JSON.presult A) :
  JSON.pmap g r <> JSON.PFuel -> r <> JSON.PFuel.
Proof. destruct r; simpl; congruence. Qed.

Lemma parse_literal_no_fuel (p : string) (v : value) (s : jsstring) :
  JSON.parse_literal p v s <> JSON.PFuel.
Proof. unfold JSON.parse_literal. destruct (JSON.strip_prefix (str p) s); discriminate. Qed.

Lemma parse_number_no_fuel (s : jsstring) : JSON.parse_number s <> JSON.PFuel.
Proof.
  unfold JSON.parse_number.
  destruct (match s with
            | [] => (false, [])
            | c :: s' => if (c =? 45)%N then (true, s') else (false, s)
            end) as [neg s1].
  destruct s1 as [|c s1']; [discriminate|].
  destruct (is_digit c); [|discriminate].
  destruct (if (c =? 48)%N then ([0%N], s1') else scan_digits (c :: s1')) as [ip s2].
  destruct (JSON.parse_fraction s2) as [[fp s3]|]; [|discriminate].
  destruct (JSON.parse_exponent s3) as [[x s4]|]; discriminate.
Qed.

(** The budget [JSON.parse] gives is never used up. *)
Lemma parse_value_fuel (f : nat) :
  (forall s, (2 * length s + 1 <= f)%nat -> JSON.parse_value f s <> JSON.PFuel) /\
  (forall s, (2 * length s + 2 <= f)%nat -> JSON.parse_elements f s <> JSON.PFuel) /\
  (forall s, (2 * length s + 2 <= f)%nat -> JSON.parse_members f s <> JSON.PFuel).
Proof.
  induction f as [|f (IHv & IHe & IHm)]; [repeat split; intros; lia|].
  split; [|split].
  - intros s Hf. cbn [JSON.parse_value].
    pose proof (skip_ws_length s) as Hs.
    destruct (JSON.skip_ws s) as [|c s']; [discriminate|]. cbn [length] in Hs.
    destruct (c =? 34)%N; [apply pmap_no_fuel, parse_string_no_fuel|].
    destruct (c =? 91)%N.
    { destruct (JSON.skip_ws s') as [|d s'']; [discriminate|].
      destruct (d =? 93)%N; [discriminate|].
      apply pmap_no_fuel, IHe. lia. }
    destruct (c =? 123)%N.
    { destruct (JSON.skip_ws s') as [|d s'']; [discriminate|].
      destruct (d =? 125)%N; [discriminate|].
      apply pmap_no_fuel, IHm. lia. }
    destruct (c =? 116)%N; [apply parse_literal_no_fuel|].
    destruct (c =? 102)%N; [apply parse_literal_no_fuel|].
    destruct (c =? 110)%N; [apply parse_literal_no_fuel|].
    apply pmap_no_fuel, parse_number_no_fuel.
  - intros s Hf. rewrite parse_elements_step.
    pose proof (IHv s ltac:(lia)) as Hv.
    destruct (JSON.parse_value f s) as [v r| |] eqn:Ev; [|discriminate|congruence].
    apply (proj1 (parse_value_length f)) in Ev.
    pose proof (skip_ws_length r) as Hr.
    destruct (JSON.skip_ws r) as [|c r']; [discriminate|]. cbn [length] in Hr.
    destruct (c =? 44)%N; [apply pmap_no_fuel, IHe; lia|].
    destruct (c =? 93)%N; discriminate.
  - intros s Hf. rewrite parse_members_step.
    pose proof (skip_ws_length s) as Hs.
    destruct (JSON.skip_ws s) as [|q s1]; [discriminate|]. cbn [length] in Hs.
    destruct (q =? 34)%N; [|discriminate].
    pose proof (parse_string_no_fuel s1) as Hk.
    destruct (JSON.parse_string s1) as [k r| |] eqn:Ek; [|discriminate|congruence].
    apply parse_string_length in Ek. pose proof (skip_ws_length r) as Hr.
    destruct (JSON.skip_ws r) as [|c r1]; [discriminate|]. cbn [length] in Hr.
    destruct (c =? 58)%N; [|discriminate].
    pose proof (IHv r1 ltac:(lia)) as Hv.
    destruct (JSON.parse_value f r1) as [v r2| |] eqn:Ev; [|discriminate|congruence].
    apply (proj1 (parse_value_length f)) in Ev.
    pose proof (skip_ws_length r2) as Hr2.
    destruct (JSON.skip_ws r2) as [|d r3]; [discriminate|]. cbn [length] in Hr2.
    destruct (d =? 44)%N; [apply pmap_no_fuel, IHm; lia|].
    destruct (d =? 125)%N; discriminate.
Qed.

(** A result that did not use up its budget is the result for every
    larger budget. *)
Lemma parse_value_more_fuel (f : nat) :
  (forall f' s, (f <= f')%nat -> JSON.parse_value f s <> JSON.PFuel ->
                JSON.parse_value f' s = JSON.parse_value f s) /\
  (forall f' s, (f <= f')%nat -> JSON.parse_elements f s <> JSON.PFuel ->
                JSON.parse_elements f' s = JSON.parse_elements f s) /\
  (forall f' s, (f <= f')%nat -> JSON.parse_members f s <> JSON.PFuel ->
                JSON.parse_members f' s = JSON.parse_members f s).
Proof.
  induction f as [|f (IHv & IHe & IHm)]; [repeat split; intros; simpl in *; congruence|].
  split; [|split].
  - intros [|f'] s Hf; [lia|]. cbn [JSON.parse_value].
    destruct (JSON.skip_ws s) as [|c s']; [reflexivity|].
    destruct (c =? 34)%N; [reflexivity|].
    destruct (c =? 91)%N.
    { destruct (JSON.skip_ws s') as [|d s'']; [reflexivity|].
      destruct (d =? 93)%N; [reflexivity|].
      intro H. apply pmap_fuel in H. now rewrite (IHe f' s') by (assumption || lia). }
    destruct (c =? 123)%N.
    { destruct (JSON.skip_ws s') as [|d s'']; [reflexivity|].
      destruct (d =? 125)%N; [reflexivity|].
      intro H. apply pmap_fuel in H. now rewrite (IHm f' s') by (assumption || lia). }
    reflexivity.
  - intros [|f'] s Hf; [lia|]. rewrite !parse_elements_step.
    destruct (JSON.parse_value f s) as [v r| |] eqn:Ev; [| |congruence].
    + rewrite (IHv f' s) by (try lia; congruence). rewrite Ev.
      destruct (JSON.skip_ws r) as [|c r']; [reflexivity|].
      destruct (c =? 44)%N; [|reflexivity].
      intro H. apply pmap_fuel in H. now rewrite (IHe f' r') by (assumption || lia).
    + rewrite (IHv f' s) by (try lia; congruence). now rewrite Ev.
  - intros [|f'] s Hf; [lia|]. rewrite !parse_members_step.
    destruct (JSON.skip_ws s) as [|q s1]; [reflexivity|].
    destruct (q =? 34)%N; [|reflexivity].
    destruct (JSON.parse_string s1) as [k r| |]; try reflexivity.
    destruct (JSON.skip_ws r) as [|c r1]; [reflexivity|].
    destruct (c =? 58)%N; [|reflexivity].
    destruct (JSON.parse_value f r1) as [v r2| |] eqn:Ev; [| |congruence].
    + rewrite (IHv f' r1) by (try lia; congruence). rewrite Ev.
      destruct (JSON.skip_ws r2) as [|d r3]; [reflexivity|].
      destruct (d =? 44)%N; [|reflexivity].
      intro H. apply pmap_fuel in H. now rewrite (IHm f' r3) by (assumption || lia).
    + rewrite (IHv f' r1) by (try lia; congruence). now rewrite Ev.
Qed.

(** [JSON.parse] undoes [JSON.stringify], up to the numbers that JSON
    cannot write. *)
Lemma JSON_parse_stringify (v : value) (space : nat) :
  value_okb v = true -> JSON.parse (JSON.stringify v space) = Some (to_json v).
Proof.
  intro Hok. unfold JSON.parse, JSON.stringify.
  set (text := JSON.serialize (Nat.min space 10) 0 v).
  set (f0 := (2 * length text + 1)%nat).
  set (f1 := Nat.max f0 (need v)).
  assert (H1 : JSON.parse_value f1 text = JSON.POk (to_json v) []).
  { rewrite <- (app_nil_r text). unfold text.
    apply parse_serialize; [exact Hok | unfold f1; lia | exact I]. }
  assert (H0 : JSON.parse_value f0 text <> JSON.PFuel).
  { apply (proj1 (parse_value_fuel f0)). unfold f0. lia. }
  rewrite <- (proj1 (parse_value_more_fuel f0) f1 text) by (assumption || (unfold f1; lia)).
  now rewrite H1.
Qed.

(* ===================================================================== *)
(** * The handlers *)
(* ===================================================================== *)

Lemma fold_max_int (zs : list Z) (a : Z) :
  fold_left
    (fun hi x =>
       match hi, x with
       | NaN, _ | _, NaN => NaN
       | _, _ => if num_ltb hi x then x else hi
       end)
    (map Int zs) (Int a) = Int (fold_left Z.max zs a).
Proof.
  revert a. induction zs as [|z zs IH]; intro a; simpl; [reflexivity|].
  destruct (a <? z)%Z eqn:E; rewrite IH; f_equal; f_equal.
  - apply Z.ltb_lt in E. lia.
  - apply Z.ltb_ge in E. lia.
Qed.

Lemma fold_Zmax_bounds (zs : list Z) (a : Z) :
  (a <= fold_left Z.max zs a)%Z /\
  (forall z, In z zs -> (z <= fold_left Z.max zs a)%Z) /\
  (fold_left Z.max zs a = a \/ In (fold_left Z.max zs a) zs).
Proof.
  revert a. induction zs as [|z zs IH]; intro a; simpl.
  - repeat split; [lia | tauto | now left].
  - destruct (IH (Z.max a z)) as (H1 & H2 & H3). repeat split.
    + lia.
    + intros y [<- | Hy]; [lia | now apply H2].
    + destruct H3 as [H3 | H3]; [|now right; right].
      rewrite H3. destruct (Z.max_spec a z) as [[_ ->] | [_ ->]]; auto.
Qed.

(** [Math.max] of a non-empty list of integers is its greatest element. *)
Lemma Math_max_int (zs : list Z) :
  zs <> [] ->
  exists m, In m zs /\ (forall z, In z zs -> (z <= m)%Z) /\
            Math.max (map Int zs) = Int m.
Proof.
  destruct zs as [|z zs]; [congruence | intros _].
  unfold Math.max. simpl. rewrite fold_max_int.
  destruct (fold_Zmax_bounds zs z) as (H1 & H2 & H3).
  exists (fold_left Z.max zs z). repeat split.
  - destruct H3 as [-> | H3]; [now left | now right].
  - intros y [<- | Hy]; [exact H1 | now apply H2].
Qed.

Section Handlers.

Variable ToNumber_other : value -> throws number.

(** The ids that [nextId] hands to [Math.max], for Records with integer
    ids. *)
Lemma ids_of_records (users : list value) (zs : list Z) :
  Forall2 (fun u z => record_id z u) users zs ->
  map_throws (fun user => get_prop user (str "id")) users
  = Some (map (fun z => Some (VNum (Int z))) zs).
Proof.
  induction 1 as [|u z users zs (o & -> & Hid) _ IH]; simpl; [reflexivity|].
  now rewrite Hid, IH.
Qed.

Lemma ToNumber_ints (zs : list Z) :
  map_throws (ToNumber ToNumber_other) (map (fun z => Some (VNum (Int z))) zs)
  = Some (map Int zs).
Proof.
  induction zs as [|z zs IH]; simpl; [reflexivity | now rewrite IH].
Qed.

(** [nextId] on Records with integer ids: the successor of the greatest
    id, which below [2^53] is the next integer. *)
Lemma nextId_integers (users : list value) (zs : list Z) :
  Forall2 (fun u z => record_id z u) users zs ->
  (users = [] -> nextId ToNumber_other users = Some (Int 1)) /\
  (users <> [] ->
   exists m, In m zs /\ (forall z, In z zs -> (z <= m)%Z) /\
             nextId ToNumber_other users = Some (num_succ (Int m)) /\
             ((- 2 ^ 53 <= m < 2 ^ 53)%Z ->
              nextId ToNumber_other users = Some (Int (m + 1)))).
Proof.
  intro H. split.
  - now intros ->.
  - intro Hne.
    assert (Hzs : zs <> []) by (destruct H; congruence).
    destruct (Math_max_int zs Hzs) as (m & Hin & Hmax & Hm).
    exists m.
    assert (Hn : nextId ToNumber_other users = Some (num_succ (Int m))).
    { unfold nextId. destruct users as [|u users]; [congruence|].
      rewrite (ids_of_records _ _ H), ToNumber_ints, Hm. reflexivity. }
    repeat split; try assumption.
    intro Hm53. now rewrite Hn, num_succ_int.
Qed.

(** What a 201 response tells about the run of the handler. *)
Lemma post_users_created (d d' : disk) (body : value) (w : write_outcome) (r : response) :
  post_users ToNumber_other d body w = (r, d') ->
  status r = 201%Z ->
  exists data users nid user,
    d users_path = Some data /\
    JSON.parse data = Some (VArr users) /\
    nextId ToNumber_other users = Some nid /\
    newUser nid body = Some user /\
    w = WriteOk /\
    r = res_json 201 user /\
    d' = fs.store d users_path (Some (JSON.stringify (VArr (users ++ [user])) 4)).
Proof.
  unfold post_users, fs.readFile. intros H Hst.
  destruct (d users_path) as [data|] eqn:Hd;
    [|injection H as <- <-; discriminate].
  destruct (JSON.parse data) as [[| | | |users|]|] eqn:Hp;
    try (injection H as <- <-; discriminate).
  destruct (nextId ToNumber_other users) as [nid|] eqn:Hn;
    [|injection H as <- <-; discriminate].
  destruct (newUser nid body) as [user|] eqn:Hu;
    [|injection H as <- <-; discriminate].
  destruct w as [|remains]; simpl in H; injection H as <- <-; [|discriminate].
  exists data, users, nid, user. repeat split; assumption.
Qed.

(** C7. When the write of [create] fails, the response is the 500 of the
    [catch] block: never a 201, and the new Record is not sent. *)
Theorem post_users_write_fails (d : disk) (body : value) (remains : file) :
  fst (post_users ToNumber_other d body (WriteFail remains))
  = res_send 500 "Error processing request".
Proof.
  unfold post_users, fs.readFile.
  destruct (d users_path) as [data|]; [|reflexivity].
  destruct (JSON.parse data) as [[| | | |users|]|]; try reflexivity.
  destruct (nextId ToNumber_other users) as [nid|]; [|reflexivity].
  destruct (newUser nid body) as [user|]; reflexivity.
Qed.

(** C3, amended. In the Record that [create] returns, [role] is the
    caller's [role] when that is a truthy value, and ["peasant"] when the
    caller gave no [role] or a falsy one (null, false, 0, the empty
    string). *)
Theorem post_users_role (d d' : disk) (body : value) (w : write_outcome) (user : value) :
  post_users ToNumber_other d body w = (res_json 201 user, d') ->
  exists u,
    user = VObj u /\
    (forall r, get_prop body (str "role") = Some (Some r) -> truthy r = true ->
               obj_get (str "role") u = Some r) /\
    (forall r, get_prop body (str "role") = Some (Some r) -> truthy r = false ->
               obj_get (str "role") u = Some (VStr defaultRole)) /\
    (get_prop body (str "role") = Some None ->
     obj_get (str "role") u = Some (VStr defaultRole)).
Proof.
  intro H.
  destruct (post_users_created _ _ _ _ _ H eq_refl)
    as (data & users & nid & user' & _ & _ & _ & Hu & _ & Hr & _).
  injection Hr as <-.
  unfold newUser in Hu.
  destruct (get_prop body (str "role")) as [role|]; [|discriminate].
  injection Hu as <-. eexists. split; [reflexivity|].
  rewrite obj_get_set_same. repeat split.
  - intros r [= ->] ->. reflexivity.
  - intros r [= ->] ->. reflexivity.
  - intros [= ->]. reflexivity.
Qed.

End Handlers.

(** An own [id] of the request body is the [id] of the new Record,
    whatever [nextId] is: in the object literal the spread of the body
    comes after [id: nextId]. *)
Lemma newUser_own_id (nid : number) (o : object) (v : value) :
  NoDup (keys o) -> obj_get (str "id") o = Some v ->
  exists u, newUser nid (VObj o) = Some (VObj u) /\ obj_get (str "id") u = Some v.
Proof.
  intros Hnd Hid. unfold newUser. cbn [get_prop spread].
  eexists. split; [reflexivity|].
  rewrite obj_get_set_other by discriminate.
  rewrite obj_get_assign.
  assert (Hrev : obj_get (str "id") (rev o) = Some v).
  { clear nid. induction o as [|[k w] o IH]; [discriminate|].
    cbn [keys map fst] in Hnd. apply NoDup_cons_iff in Hnd as [Hk Hnd].
    assert (Happ : forall l : object,
               obj_get (str "id") (l ++ [(k, w)]) =
               match obj_get (str "id") l with
               | Some x => Some x
               | None => if str_eqb (str "id") k then Some w else None
               end).
    { induction l as [|[k1 v1] l IHl]; cbn [app obj_get]; [reflexivity|].
      now destruct (str_eqb (str "id") k1). }
    cbn [rev]. rewrite Happ. cbn [obj_get] in Hid.
    destruct (str_eqb (str "id") k) eqn:E.
    - apply str_eqb_eq in E. subst k.
      destruct (obj_get (str "id") (rev o)) as [x|] eqn:Ex; [|exact Hid].
      exfalso. apply Hk.
      assert (Hin : forall l : object, obj_get (str "id") l = Some x ->
                                       In (str "id") (map fst l)).
      { induction l as [|[k1 v1] l IHl]; cbn [obj_get map fst In]; [discriminate|].
        destruct (str_eqb (str "id") k1) eqn:E1.
        - apply str_eqb_eq in E1. now left.
        - intro H1. right. now apply IHl. }
      apply Hin in Ex. rewrite map_rev in Ex. now apply in_rev in Ex.
    - now rewrite (IH Hnd Hid). }
  now rewrite Hrev.
Qed.

(** C1: the code at the input that breaks the claim.  The Collection holds
    one Record with id 1, so [nextId] is 2; the caller sends an [id] of its
    own, and the Record that is returned and stored carries the caller's
    id. *)
Theorem post_users_caller_id_wins :
  let d := disk_of "[{'id': 1}]" in
  let body := VObj [(str "id", VNum (Int 1)); (str "name", VStr (str "Eve"))] in
  let user := VObj [(str "id", VNum (Int 1));
                    (str "name", VStr (str "Eve"));
                    (str "role", VStr (str "peasant"))] in
  nextId ToNumber_NaN [VObj [(str "id", VNum (Int 1))]] = Some (Int 2) /\
  fst (post_users ToNumber_NaN d body WriteOk) = res_json 201 user /\
  readJsonFile (snd (post_users ToNumber_NaN d body WriteOk)) users_path
  = VArr [VObj [(str "id", VNum (Int 1))]; user].
Proof. repeat split; vm_compute; reflexivity. Qed.

(** ** Reading a file *)

(** C5: a file whose text is valid JSON and for which [getAll] fails.
    The text [0] parses, to a falsy value, and [if (users)] takes the
    error branch. *)
Lemma get_users_valid_json_unavailable :
  JSON.parse (str "0") = Some (VNum (Int 0)) /\
  get_users (disk_of "0") = res_send 500 "Error reading users data".
Proof. split; vm_compute; reflexivity. Qed.

(** [readJsonFile] answers [null] for a failed read, a failed parse, and
    a text that denotes [null]. *)
Lemma readJsonFile_null (d : disk) (p : string) :
  readJsonFile d p = VNull <->
  d p = None \/
  exists data, d p = Some data /\
               (JSON.parse data = None \/ JSON.parse data = Some VNull).
Proof.
  unfold readJsonFile, fs.readFile. destruct (d p) as [data|].
  - destruct (JSON.parse data) as [v|] eqn:Hp; split.
    + intros ->. right. exists data. auto.
    + intros [H | (data' & [= <-] & [H | H])]; congruence.
    + intros _. right. exists data. auto.
    + reflexivity.
  - split; auto.
Qed.

(** C5, amended. [load] answers [null] for a failed read, a failed parse
    and a stored [null] alike, and [getAll] fails, with status 500, exactly
    when the file cannot be read, or its text is not valid JSON, or the
    text denotes a falsy value (null, false, 0, the empty string).  For a
    text that denotes a truthy value it sends that value; every array is
    truthy, so an empty Collection is sent as such and a failure is never
    sent as one. *)
Theorem get_all_unavailable_iff (filePath message : string) (d : disk) :
  (readJsonFile d filePath = VNull <->
   d filePath = None \/
   exists data, d filePath = Some data /\
                (JSON.parse data = None \/ JSON.parse data = Some VNull)) /\
  (status (get_all filePath message d) = 500%Z <->
   d filePath = None \/
   exists data, d filePath = Some data /\
                (JSON.parse data = None \/
                 exists v, JSON.parse data = Some v /\ truthy v = false)) /\
  (forall data v, d filePath = Some data -> JSON.parse data = Some v ->
                  truthy v = true -> get_all filePath message d = res_json 200 v) /\
  (forall data l, d filePath = Some data -> JSON.parse data = Some (VArr l) ->
                  get_all filePath message d = res_json 200 (VArr l)) /\
  (status (get_all filePath message d) = 500%Z ->
   get_all filePath message d = res_send 500 message).
Proof.
  split; [apply readJsonFile_null|].
  unfold get_all, readJsonFile, fs.readFile.
  destruct (d filePath) as [data|].
  2: { repeat split; intros; try congruence; auto. }
  destruct (JSON.parse data) as [v|] eqn:Hp.
  2: { repeat split; intros; try congruence.
       right. exists data. auto. }
  destruct (truthy v) eqn:Ht.
  - split; [split|split; [|split]].
    + discriminate.
    + intros [H | (data' & H1 & [H2 | (v' & H2 & H3)])]; congruence.
    + intros data' v' H1 H2 _. congruence.
    + intros data' l H1 H2. congruence.
    + discriminate.
  - split; [split|split; [|split]].
    + intros _. right. exists data. split; [reflexivity|]. right. eauto.
    + reflexivity.
    + intros data' v' H1 H2 H3. congruence.
    + intros data' l H1 H2. assert (v = VArr l) by congruence. subst.
      discriminate.
    + reflexivity.
Qed.

(** ** Looking a Record up *)

Lemma record_idb_spec (z : Z) (r : value) : record_idb z r = true <-> record_id z r.
Proof.
  unfold record_idb, record_id. split.
  - destruct r as [| | | | |o]; try discriminate.
    destruct (obj_get (str "id") o) as [[| |[a| | |]| | |]|] eqn:E; try discriminate.
    intro H. apply Z.eqb_eq in H. subst. eauto.
  - intros (o & -> & ->). apply Z.eqb_refl.
Qed.

Lemma obj_get_ok (k : jsstring) (o : object) (v : value) :
  value_okb (VObj o) = true -> obj_get k o = Some v -> value_okb v = true.
Proof.
  cbn [value_okb]. intros H Hget. apply andb_prop in H as [_ H].
  induction o as [|[k' v'] o IH]; [discriminate|].
  cbn [forallb snd] in H. apply andb_prop in H as [H1 H2].
  simpl in Hget. destruct (str_eqb k k'); [now injection Hget as <- | auto].
Qed.

(** On a well-formed Record, the test of the handler is [record_idb]. *)
Lemma has_id_record (z : Z) (o : object) :
  value_okb (VObj o) = true ->
  has_id (Int z) (VObj o) = Some (record_idb z (VObj o)).
Proof.
  intro Hok. unfold has_id, record_idb. cbn [get_prop]. f_equal.
  destruct (obj_get (str "id") o) as [v|] eqn:E; [|reflexivity].
  apply (obj_get_ok _ _ _ Hok) in E.
  destruct v as [| |[a|m e| |]| | |]; try reflexivity.
  cbn [strict_eq_num num_eqb]. cbn [value_okb] in E.
  apply num_okb_ok in E. destruct E as [He Hm].
  apply Z.eqb_neq. intro H. apply Hm. rewrite <- H.
  replace e with (Z.succ (e - 1)) by lia. rewrite Z.pow_succ_r by lia.
  replace (z * (10 * 10 ^ (e - 1)))%Z with ((z * 10 ^ (e - 1)) * 10)%Z by ring.
  apply Z.mod_mul. lia.
Qed.

Lemma array_find_records (z : Z) (users : list value) :
  Forall is_record users -> forallb value_okb users = true ->
  array_find (has_id (Int z)) users = Some (find (record_idb z) users).
Proof.
  induction 1 as [|u users [o ->] _ IH]; intro Hok; [reflexivity|].
  cbn [forallb] in Hok. apply andb_prop in Hok as [Hu Hok].
  cbn [array_find find]. rewrite (has_id_record z o Hu).
  destruct (record_idb z (VObj o)); [reflexivity | now apply IH].
Qed.

Lemma find_first (z : Z) (l1 l2 : list value) (r : value) :
  record_id z r -> Forall (fun u => ~ record_id z u) l1 ->
  find (record_idb z) (l1 ++ r :: l2) = Some r.
Proof.
  intros Hr Hl1. induction Hl1 as [|u l1 Hu _ IH]; cbn [app find].
  - apply record_idb_spec in Hr. now rewrite Hr.
  - destruct (record_idb z u) eqn:E; [|exact IH].
    apply record_idb_spec in E. contradiction.
Qed.

Lemma find_none (z : Z) (l : list value) :
  Forall (fun u => ~ record_id z u) l -> find (record_idb z) l = None.
Proof.
  induction 1 as [|u l Hu _ IH]; cbn [find]; [reflexivity|].
  destruct (record_idb z u) eqn:E; [|exact IH].
  apply record_idb_spec in E. contradiction.
Qed.

Lemma first_or_none (z : Z) (l : list value) :
  (exists l1 r l2, l = l1 ++ r :: l2 /\ record_id z r /\
                   Forall (fun u => ~ record_id z u) l1) \/
  Forall (fun u => ~ record_id z u) l.
Proof.
  induction l as [|u l IH]; [right; constructor|].
  destruct (record_idb z u) eqn:E.
  - left. exists [], u, l. apply record_idb_spec in E. repeat split; auto.
  - assert (Hu : ~ record_id z u).
    { intro H. apply record_idb_spec in H. congruence. }
    destruct IH as [(l1 & r & l2 & -> & Hr & Hl1) | IH].
    + left. exists (u :: l1), r, l2. repeat split; auto.
    + right. now constructor.
Qed.

Lemma is_json_okb (v : value) : is_json v = true -> value_okb v = true.
Proof. unfold is_json. intro H. now apply andb_prop in H. Qed.

Lemma is_json_finite (v : value) : is_json v = true -> finite_numbers v = true.
Proof. unfold is_json. intro H. now apply andb_prop in H. Qed.

Lemma get_api_users_id_collection (d : disk) (id data : jsstring) (users : list value) (z : Z) :
  parseInt id 10 = Int z ->
  d users_path = Some data -> JSON.parse data = Some (VArr users) ->
  Forall is_record users ->
  get_api_users_id d id =
  match find (record_idb z) users with
  | Some user => Responded (res_json 200 user)
  | None => Responded (res_send 404 "User not found")
  end.
Proof.
  intros Hid Hd Hp Hrec.
  unfold get_api_users_id, readJsonFile, fs.readFile. rewrite Hid, Hd, Hp.
  cbn [truthy]. apply JSON_parse_okb in Hp. cbn [value_okb] in Hp.
  rewrite (array_find_records z users Hrec Hp).
  destruct (find (record_idb z) users) as [user|] eqn:E; [|reflexivity].
  apply find_some in E as [Hin _].
  rewrite Forall_forall in Hrec. destruct (Hrec user Hin) as [o ->]. reflexivity.
Qed.

(** C6. For an integer id, [getById] has three outcomes.  When the load
    fails it is Unavailable (500).  On a Collection it is the first Record
    whose [id] is the given one (200) if there is one, and NotFound (404)
    if there is none; one of the two is always the case, and the three
    responses differ. *)
Theorem getById_outcomes (d : disk) (id : jsstring) (z : Z) :
  parseInt id 10 = Int z ->
  ((d users_path = None \/
    exists data, d users_path = Some data /\ JSON.parse data = None) ->
   get_api_users_id d id = Responded (res_send 500 "Error reading users data")) /\
  (forall data users,
      d users_path = Some data -> JSON.parse data = Some (VArr users) ->
      Forall is_record users ->
      (forall l1 r l2,
          users = l1 ++ r :: l2 -> record_id z r ->
          Forall (fun u => ~ record_id z u) l1 ->
          get_api_users_id d id = Responded (res_json 200 r)) /\
      (Forall (fun u => ~ record_id z u) users ->
       get_api_users_id d id = Responded (res_send 404 "User not found")) /\
      ((exists l1 r l2, users = l1 ++ r :: l2 /\ record_id z r /\
                        Forall (fun u => ~ record_id z u) l1) \/
       Forall (fun u => ~ record_id z u) users)) /\
  (forall r, res_json 200 r <> res_send 404 "User not found" /\
             res_json 200 r <> res_send 500 "Error reading users data") /\
  res_send 404 "User not found" <> res_send 500 "Error reading users data".
Proof.
  intro Hid. split; [|split; [|split]].
  - unfold get_api_users_id, readJsonFile, fs.readFile.
    intros [-> | (data & -> & ->)]; reflexivity.
  - intros data users Hd Hp Hrec.
    pose proof (get_api_users_id_collection d id data users z Hid Hd Hp Hrec) as H.
    split; [|split].
    + intros l1 r l2 -> Hr Hl1. now rewrite H, find_first.
    + intro Hnone. now rewrite H, find_none.
    + apply first_or_none.
  - intro r. split; discriminate.
  - discriminate.
Qed.

(** C10. When the [:id] parameter does not start with a decimal integer,
    so that [parseInt] is NaN, [getById] on a Collection is NotFound
    (404): no [id] is strictly equal to NaN.  The handler is a total
    function of the parameter. *)
Theorem getById_NaN_not_found (d : disk) (id data : jsstring) (users : list value) :
  parseInt id 10 = NaN ->
  d users_path = Some data -> JSON.parse data = Some (VArr users) ->
  Forall is_record users ->
  get_api_users_id d id = Responded (res_send 404 "User not found").
Proof.
  intros Hid Hd Hp Hrec.
  unfold get_api_users_id, readJsonFile, fs.readFile. rewrite Hid, Hd, Hp.
  cbn [truthy].
  assert (H : array_find (has_id NaN) users = Some None).
  { clear -Hrec. induction Hrec as [|u users [o ->] _ IH]; [reflexivity|].
    cbn [array_find]. unfold has_id. cbn [get_prop].
    assert (Hne : strict_eq_num (obj_get (str "id") o) NaN = false).
    { destruct (obj_get (str "id") o) as [[| |[| | |]| | |]|]; reflexivity. }
    now rewrite Hne. }
  now rewrite H.
Qed.

(** ** Creating a Record *)

Lemma Math_max_ok (ns : list number) :
  Forall (fun n => num_okb n = true) ns -> num_okb (Math.max ns) = true.
Proof.
  unfold Math.max.
  assert (Hhi : num_okb (Inf true) = true) by reflexivity.
  revert Hhi. generalize (Inf true).
  induction ns as [|x ns IH]; intros hi Hhi H; [exact Hhi|].
  inversion H as [|? ? Hx Hns]; subst. cbn [fold_left]. apply IH; [|exact Hns].
  destruct hi, x; try reflexivity;
    match goal with
    | |- context [if ?b then _ else _] => destruct b; assumption
    end.
Qed.

Section CreateFacts.

Variable ToNumber_other : value -> throws number.

Lemma ToNumber_ok (a : option value) (n : number) :
  (forall v, a = Some v -> value_okb v = true) ->
  ToNumber ToNumber_other a = Some n -> num_okb n = true.
Proof.
  intros Ha. unfold ToNumber.
  destruct a as [[| b | m | s | l | o]|];
    try (destruct (ToNumber_other _); [intros [= <-]; apply num_norm_ok | discriminate]).
  - intros [= <-]. reflexivity.
  - intros [= <-]. now destruct b.
  - intros [= <-]. exact (Ha _ eq_refl).
  - intros [= <-]. reflexivity.
Qed.

Lemma ids_ok (users : list value) (ids : list (option value)) :
  forallb value_okb users = true ->
  map_throws (fun user => get_prop user (str "id")) users = Some ids ->
  Forall (fun a => forall v, a = Some v -> value_okb v = true) ids.
Proof.
  revert ids. induction users as [|u users IH]; intros ids Hok; cbn [map_throws].
  - intros [= <-]. constructor.
  - cbn [forallb] in Hok. apply andb_prop in Hok as [Hu Hok].
    destruct (get_prop u (str "id")) as [a|] eqn:Ea; [|discriminate].
    destruct (map_throws _ users) as [ids'|]; [|discriminate].
    intros [= <-]. constructor; [|now apply IH].
    intros v ->. destruct u as [| | | | |o]; try discriminate.
    cbn [get_prop] in Ea. injection Ea as Ea. exact (obj_get_ok _ _ _ Hu Ea).
Qed.

Lemma ToNumbers_ok (ids : list (option value)) (ns : list number) :
  Forall (fun a => forall v, a = Some v -> value_okb v = true) ids ->
  map_throws (ToNumber ToNumber_other) ids = Some ns ->
  Forall (fun n => num_okb n = true) ns.
Proof.
  intro H. revert ns. induction H as [|a ids Ha _ IH]; intro ns; cbn [map_throws].
  - intros [= <-]. constructor.
  - destruct (ToNumber ToNumber_other a) as [n|] eqn:En; [|discriminate].
    destruct (map_throws _ ids) as [ns'|]; [|discriminate].
    intros [= <-]. constructor; [exact (ToNumber_ok _ _ Ha En) | now apply IH].
Qed.

Lemma nextId_ok (users : list value) (nid : number) :
  forallb value_okb users = true ->
  nextId ToNumber_other users = Some nid -> num_okb nid = true.
Proof.
  intro Hok. unfold nextId. destruct users as [|u users]; [now intros [= <-]|].
  destruct (map_throws _ (u :: users)) as [ids|] eqn:Eids; [|discriminate].
  destruct (map_throws _ ids) as [ns|] eqn:Ens; [|discriminate].
  intros [= <-]. apply num_succ_ok, Math_max_ok.
  exact (ToNumbers_ok _ _ (ids_ok _ _ Hok Eids) Ens).
Qed.

End CreateFacts.

Lemma forallb_Forall_snd (P : value -> bool) (o : object) :
  forallb (fun kv => P (snd kv)) o = true <-> Forall (fun kv => P (snd kv) = true) o.
Proof.
  rewrite forallb_forall, Forall_forall. reflexivity.
Qed.

Lemma indexed_ok {A : Type} (g : A -> value) (i : nat) (l : list A) :
  (forall a, In a l -> value_okb (g a) = true) ->
  Forall (fun kv => value_okb (snd kv) = true) (indexed g i l).
Proof.
  revert i. induction l as [|a l IH]; intros i H; cbn [indexed]; constructor.
  - apply H. now left.
  - apply IH. intros b Hb. apply H. now right.
Qed.

Lemma spread_ok (body : value) :
  value_okb body = true ->
  Forall (fun kv => value_okb (snd kv) = true) (spread body).
Proof.
  intro H. destruct body as [| b | n | s | l | o]; cbn [spread]; try constructor.
  - apply indexed_ok. reflexivity.
  - apply indexed_ok. cbn [value_okb] in H.
    rewrite forallb_forall in H. exact H.
  - cbn [value_okb] in H. apply andb_prop in H as [_ H].
    now apply forallb_Forall_snd.
Qed.

(** The new Record is well-formed when the request body is. *)
Lemma newUser_ok (nid : number) (body user : value) :
  num_okb nid = true -> value_okb body = true ->
  newUser nid body = Some user -> value_okb user = true.
Proof.
  intros Hn Hb. unfold newUser.
  destruct (get_prop body (str "role")) as [role|] eqn:Er; [|discriminate].
  intros [= <-]. apply okb_obj.
  - apply obj_set_NoDup, obj_assign_NoDup.
    constructor; [intros [] | constructor].
  - now apply obj_set_ordered, obj_assign_ordered.
  - apply (obj_set_Forall (fun v => value_okb v = true)).
    + destruct role as [v|]; [|reflexivity].
      destruct (truthy v); [|reflexivity].
      destruct body as [| | | | |o]; try discriminate.
      cbn [get_prop] in Er. injection Er as Er. exact (obj_get_ok _ _ _ Hb Er).
    + apply (obj_assign_Forall (fun v => value_okb v = true)).
      * now apply spread_ok.
      * constructor; [exact Hn | constructor].
Qed.

Lemma to_json_arr_app (users : list value) (user : value) :
  to_json (VArr (users ++ [user])) = VArr (map to_json users ++ [to_json user]).
Proof. cbn [to_json]. now rewrite map_app. Qed.

Lemma map_to_json_finite (users : list value) :
  forallb finite_numbers users = true -> map to_json users = users.
Proof.
  induction users as [|u users IH]; intro H; [reflexivity|].
  cbn [forallb] in H. apply andb_prop in H as [Hu H].
  cbn [map]. now rewrite (to_json_finite u Hu), IH.
Qed.

Lemma store_same (d : disk) (p : string) (f : file) : fs.store d p f p = f.
Proof. unfold fs.store. now rewrite String.eqb_refl. Qed.

Lemma store_other (d : disk) (p q : string) (f : file) :
  q <> p -> fs.store d p f q = d q.
Proof. intro H. unfold fs.store. apply String.eqb_neq in H. now rewrite H. Qed.

Section Create.

Variable ToNumber_other : value -> throws number.

(** What [create] leaves on the disk, read back: the Records that were
    read and the new one, each as [JSON.stringify] writes it. *)
Lemma post_users_persisted (d d' : disk) (body user : value) (w : write_outcome) :
  value_okb body = true ->
  post_users ToNumber_other d body w = (res_json 201 user, d') ->
  exists data users,
    d users_path = Some data /\
    JSON.parse data = Some (VArr users) /\
    newUser_of_users ToNumber_other users body user /\
    readJsonFile d' users_path = VArr (map to_json users ++ [to_json user]) /\
    value_okb (VArr (users ++ [user])) = true /\
    (forall p, p <> users_path -> d' p = d p).
Proof.
  intros Hb H.
  destruct (post_users_created _ _ _ _ _ _ H eq_refl)
    as (data & users & nid & user' & Hd & Hp & Hn & Hu & _ & Hr & ->).
  injection Hr as <-.
  exists data, users. split; [exact Hd|]. split; [exact Hp|].
  pose proof (JSON_parse_okb _ _ Hp) as Hok.
  cbn [value_okb] in Hok.
  assert (Hall : value_okb (VArr (users ++ [user])) = true).
  { cbn [value_okb]. rewrite forallb_app, Hok. cbn [forallb].
    rewrite (newUser_ok nid body user (nextId_ok _ _ _ Hok Hn) Hb Hu).
    reflexivity. }
  split; [exists nid; now split|]. split; [|split; [exact Hall|]].
  - unfold readJsonFile, fs.readFile. rewrite store_same.
    rewrite JSON_parse_stringify by exact Hall.
    now rewrite to_json_arr_app.
  - intros p Hp'. now apply store_other.
Qed.

End Create.

Section Persistence.

Variable ToNumber_other : value -> throws number.


(** The id of the new Record when the body has none of its own. *)
Lemma newUser_fresh_id (nid : number) (o : object) :
  obj_get (str "id") o = None ->
  exists u, newUser nid (VObj o) = Some (VObj u) /\
            obj_get (str "id") u = Some (VNum nid).
Proof.
  intro Hid. unfold newUser. cbn [get_prop spread]. eexists. split; [reflexivity|].
  rewrite obj_get_set_other by discriminate.
  rewrite obj_get_assign.
  assert (Hrev : obj_get (str "id") (rev o) = None).
  { assert (Hnone : forall l : object,
               obj_get (str "id") l = None <-> ~ In (str "id") (keys l)).
    { induction l as [|[k v] l IHl]; cbn [obj_get keys map In fst].
      - tauto.
      - destruct (str_eqb (str "id") k) eqn:E.
        + apply str_eqb_eq in E. split; [discriminate | intro Hn; exfalso; auto].
        + apply str_eqb_neq in E. rewrite IHl. unfold keys.
          split; [intros Hn [Hk | Hk]; auto | tauto]. }
    apply Hnone. apply Hnone in Hid. unfold keys in *.
    rewrite map_rev. intro Hin. apply in_rev in Hin. contradiction. }
  rewrite Hrev. cbn [obj_get]. now rewrite str_eqb_refl.
Qed.

Lemma finite_obj_get (k : jsstring) (o : object) (v : value) :
  forallb (fun kv => finite_numbers (snd kv)) o = true ->
  obj_get k o = Some v -> finite_numbers v = true.
Proof.
  induction o as [|[k' v'] o IH]; [discriminate|].
  cbn [forallb snd obj_get]. intro H. apply andb_prop in H as [H1 H2].
  destruct (str_eqb k k'); [now intros [= <-] | auto].
Qed.

Lemma newUser_finite (nid : number) (o : object) (user : value) :
  is_finite nid = true -> finite_numbers (VObj o) = true ->
  newUser nid (VObj o) = Some user -> finite_numbers user = true.
Proof.
  intros Hn Ho. unfold newUser. cbn [get_prop spread]. intros [= <-].
  cbn [finite_numbers] in *. apply forallb_Forall_snd.
  apply (obj_set_Forall (fun v => finite_numbers v = true)).
  - destruct (obj_get (str "role") o) as [v|] eqn:E; [|reflexivity].
    destruct (truthy v); [|reflexivity]. exact (finite_obj_get _ _ _ Ho E).
  - apply (obj_assign_Forall (fun v => finite_numbers v = true)).
    + now apply forallb_Forall_snd.
    + constructor; [exact Hn | constructor].
Qed.


(** C2, amended. On a Collection whose Records carry integer ids, for a
    request body without an [id] of its own, [create] assigns the id 1
    when the Collection is empty, and otherwise the greatest existing id
    plus one, provided that id is below [2^53] (and not below [-2^53]):
    [nextId] is that number, and when the write goes through the request
    is answered 201 with a Record that carries it. *)
Theorem nextId_max_plus_one (d : disk) (data : jsstring) (users : list value)
    (zs : list Z) (o : object) :
  d users_path = Some data ->
  JSON.parse data = Some (VArr users) ->
  Forall2 (fun u z => record_id z u) users zs ->
  obj_get (str "id") o = None ->
  (users = [] ->
   nextId ToNumber_other users = Some (Int 1) /\
   exists user,
     fst (post_users ToNumber_other d (VObj o) WriteOk) = res_json 201 user /\
     record_id 1 user) /\
  (users <> [] ->
   exists m, In m zs /\ (forall z, In z zs -> (z <= m)%Z) /\
             ((- 2 ^ 53 <= m < 2 ^ 53)%Z ->
              nextId ToNumber_other users = Some (Int (m + 1)) /\
              exists user,
                fst (post_users ToNumber_other d (VObj o) WriteOk) = res_json 201 user /\
                record_id (m + 1) user)).
Proof.
  intros Hd Hp Hids Ho.
  assert (Hpost : forall n, nextId ToNumber_other users = Some (Int n) ->
            exists user,
              fst (post_users ToNumber_other d (VObj o) WriteOk) = res_json 201 user /\
              record_id n user).
  { intros n Hn. destruct (newUser_fresh_id (Int n) o Ho) as (u & Hu & Hid).
    exists (VObj u). split; [|exists u; now split].
    unfold post_users, fs.readFile. now rewrite Hd, Hp, Hn, Hu. }
  destruct (nextId_integers ToNumber_other users zs Hids) as [H0 H1]. split.
  - intro Hnil. split; [now apply H0 | apply Hpost; now apply H0].
  - intro Hne. destruct (H1 Hne) as (m & Hin & Hmax & _ & Hm).
    exists m. split; [exact Hin|]. split; [exact Hmax|].
    intro Hm53. split; [now apply Hm | apply Hpost; now apply Hm].
Qed.

End Persistence.





(** C2: two create calls whose new id is not the greatest id plus one.
    On a Collection whose greatest id is [2^53], [nextId] is [2^53] again,
    because [2^53 + 1] rounds to [2^53] in binary64, and the new Record
    gets the id that is already there.  And when the body carries an [id],
    the new Record has that one (here 7 where [nextId] is 2). *)
Lemma new_id_not_max_plus_one :
  (let d := disk_of "[{'id': 9007199254740992}]" in
   readJsonFile d users_path = VArr [VObj [(str "id", VNum (Int (2 ^ 53)))]] /\
   nextId ToNumber_NaN [VObj [(str "id", VNum (Int (2 ^ 53)))]] = Some (Int (2 ^ 53)) /\
   fst (post_users ToNumber_NaN d (VObj []) WriteOk)
   = res_json 201 (VObj [(str "id", VNum (Int (2 ^ 53)));
                         (str "role", VStr (str "peasant"))])) /\
  (let d := disk_of "[{'id': 1}]" in
   nextId ToNumber_NaN [VObj [(str "id", VNum (Int 1))]] = Some (Int 2) /\
   fst (post_users ToNumber_NaN d (VObj [(str "id", VNum (Int 7))]) WriteOk)
   = res_json 201 (VObj [(str "id", VNum (Int 7));
                         (str "role", VStr (str "peasant"))])).
Proof. repeat split; vm_compute; reflexivity. Qed.

(** C4: the code at the input that breaks the claim.  The Collection
    holds one Record, with id 1; a single [create] whose body carries
    [id: 1] succeeds, and the file then holds two Records with id 1. *)
Theorem history_duplicate_id :
  let d := disk_of "[{'id': 1}]" in
  let body := VObj [(str "id", VNum (Int 1))] in
  distinct_ids d /\
  map (fun d' => readJsonFile d' users_path)
      (history ToNumber_NaN d [(body, WriteOk)])
  = [VArr [VObj [(str "id", VNum (Int 1))];
           VObj [(str "id", VNum (Int 1)); (str "role", VStr (str "peasant"))]]] /\
  ~ Forall distinct_ids (history ToNumber_NaN d [(body, WriteOk)]).
Proof.
  split; [|split].
  - exists (json "[{'id': 1}]"), [VObj [(str "id", VNum (Int 1))]], [1%Z].
    split; [reflexivity|]. split; [vm_compute; reflexivity|]. split.
    + repeat constructor. exists [(str "id", VNum (Int 1))]. now split.
    + repeat constructor. intros [].
  - vm_compute. reflexivity.
  - intro H.
    set (d' := snd (post_users ToNumber_NaN (disk_of "[{'id': 1}]")
                      (VObj [(str "id", VNum (Int 1))]) WriteOk)).
    assert (Hh : history ToNumber_NaN (disk_of "[{'id': 1}]")
                   [(VObj [(str "id", VNum (Int 1))], WriteOk)] = [d'])
      by reflexivity.
    rewrite Hh in H. apply Forall_inv in H.
    destruct H as (data & users & zs & Hd & Hp & Hids & Hnd).
    assert (Hread : readJsonFile d' users_path = VArr users).
    { unfold readJsonFile, fs.readFile. now rewrite Hd, Hp. }
    vm_compute in Hread. injection Hread as <-.
    inversion Hids as [|u1 z1 us1 zs1 (o1 & E1 & Hz1) Hids1]; subst.
    inversion Hids1 as [|u2 z2 us2 zs2 (o2 & E2 & Hz2) Hids2]; subst.
    inversion Hids2; subst.
    injection E1 as <-. injection E2 as <-.
    vm_compute in Hz1, Hz2. injection Hz1 as <-. injection Hz2 as <-.
    inversion Hnd as [|? ? Hin _]; subst. apply Hin. now left.
Qed.

(** C3: a body that includes [role] and does not keep it.  The caller
    sends the empty string as [role]; the Record that comes back has the
    default. *)
Lemma post_users_empty_role_replaced :
  let body := VObj [(str "name", VStr (str "Ann")); (str "role", VStr [])] in
  get_prop body (str "role") = Some (Some (VStr [])) /\
  fst (post_users ToNumber_NaN (disk_of "[]") body WriteOk)
  = res_json 201 (VObj [(str "id", VNum (Int 1));
                        (str "name", VStr (str "Ann"));
                        (str "role", VStr (str "peasant"))]).
Proof. split; vm_compute; reflexivity. Qed.
(* ===================================================================== *)
(** * The edges of binary64, and the order of property keys *)
(* ===================================================================== *)

(** A literal between two binary64 values is read as the nearest one, a
    literal beyond the greatest as [Infinity], and one below the least as
    zero. *)
Lemma parse_rounds :
  JSON.parse (json "9007199254740993") = Some (VNum (Int 9007199254740992)) /\
  JSON.parse (json "0.1000000000000000055511151231257827") = Some (VNum (Dec 1 1)) /\
  JSON.parse (json "1e400") = Some (VNum (Inf false)) /\
  JSON.parse (json "-1e400") = Some (VNum (Inf true)) /\
  JSON.parse (json "1e-400") = Some (VNum (Int 0)).
Proof. vm_compute. repeat split. Qed.

Lemma parseInt_rounds :
  parseInt (str "9007199254740993") 10 = Int 9007199254740992 /\
  parseInt (str "-9007199254740995") 10 = Int (- 9007199254740996).
Proof. vm_compute. split; reflexivity. Qed.

Lemma num_succ_rounds :
  num_succ (Int 9007199254740991) = Int 9007199254740992 /\
  num_succ (Int 9007199254740992) = Int 9007199254740992 /\
  num_succ (Dec 1 1) = Dec 11 1 /\
  num_succ (Int (- 9007199254740994)) = Int (- 9007199254740992).
Proof. vm_compute. repeat split. Qed.

(** A file that holds [1e-400] holds zero, which is falsy. *)
Lemma get_users_underflow :
  get_users (disk_of "1e-400") = res_send 500 "Error reading users data".
Proof. vm_compute. reflexivity. Qed.

(** The parameter [9007199254740993] is read as [2 ^ 53] and finds the
    Record with that id. *)
Lemma getById_rounded_parameter :
  get_api_users_id (disk_of "[{'id': 9007199254740992}, null]") (str "9007199254740993")
  = Responded (res_json 200 (VObj [(str "id", VNum (Int 9007199254740992))])).
Proof. vm_compute. reflexivity. Qed.

(** The properties of an array body come before [id] in the new Record,
    and [JSON.parse] lists array indices first, in ascending order. *)
Lemma newUser_array_body :
  newUser (Int 3) (VArr [VNum (Int 1); VNum (Int 2)])
  = Some (VObj [(str "0", VNum (Int 1)); (str "1", VNum (Int 2));
                (str "id", VNum (Int 3)); (str "role", VStr (str "peasant"))]).
Proof. vm_compute. reflexivity. Qed.

Lemma parse_orders_keys :
  JSON.parse (json "{'b': 1, '10': 2, '9': 3, '01': 4, '4294967295': 5, 'b': 6}")
  = Some (VObj [(str "9", VNum (Int 3)); (str "10", VNum (Int 2));
                (str "b", VNum (Int 6)); (str "01", VNum (Int 4));
                (str "4294967295", VNum (Int 5))]).
Proof. vm_compute. reflexivity. Qed.


(** ** The theorems at sample inputs *)

Lemma two_users_parsed : JSON.parse (json two_users_text) = Some (VArr two_users).
Proof. vm_compute. reflexivity. Qed.

Lemma two_users_records : Forall is_record two_users.
Proof. repeat constructor; eexists; reflexivity. Qed.

Lemma two_users_ids : Forall2 (fun u z => record_id z u) two_users [3%Z; 7%Z].
Proof. repeat constructor; eexists; split; reflexivity. Qed.

Lemma new_user_posted :
  post_users ToNumber_NaN two_users_disk new_body WriteOk
  = (res_json 201 new_user, three_users_disk).
Proof. vm_compute. reflexivity. Qed.

Lemma nextId_max_plus_one_witness :
  exists m, In m [3%Z; 7%Z] /\ (forall z, In z [3%Z; 7%Z] -> (z <= m)%Z) /\
            ((- 2 ^ 53 <= m < 2 ^ 53)%Z ->
             nextId ToNumber_NaN two_users = Some (Int (m + 1)) /\
             exists user,
               fst (post_users ToNumber_NaN two_users_disk new_body WriteOk)
               = res_json 201 user /\
               record_id (m + 1) user).
Proof.
  apply (proj2 (nextId_max_plus_one ToNumber_NaN two_users_disk
                  (json two_users_text) two_users [3%Z; 7%Z]
                  [(str "name", VStr (str "Cy"))]
                  eq_refl two_users_parsed two_users_ids eq_refl)).
  discriminate.
Defined.

Lemma post_users_role_witness :
  exists u,
    VObj [(str "id", VNum (Int 1)); (str "role", VStr (str "admin"))] = VObj u /\
    obj_get (str "role") u = Some (VStr (str "admin")).
Proof.
  pose (body := VObj [(str "role", VStr (str "admin"))]).
  pose (user := VObj [(str "id", VNum (Int 1)); (str "role", VStr (str "admin"))]).
  destruct (post_users_role ToNumber_NaN (disk_of "[]")
              (snd (post_users ToNumber_NaN (disk_of "[]") body WriteOk))
              body WriteOk user)
    as (u & Hu & Hkeep & _ & _).
  - vm_compute. reflexivity.
  - exists u. split; [exact Hu|]. apply Hkeep; reflexivity.
Defined.

Lemma getById_outcomes_witness :
  parseInt (str "7") 10 = Int 7 /\
  get_api_users_id (disk_of two_users_text) (str "7")
  = Responded (res_json 200 (VObj [(str "id", VNum (Int 7)); (str "name", VStr (str "Bob"))])).
Proof.
  split; [reflexivity|].
  destruct (getById_outcomes (disk_of two_users_text) (str "7") 7 eq_refl)
    as (_ & Hcoll & _).
  destruct (Hcoll (json two_users_text) two_users eq_refl two_users_parsed two_users_records)
    as (Hfound & _ & _).
  apply (Hfound [VObj [(str "id", VNum (Int 3)); (str "name", VStr (str "Ann"))]] _ []).
  - reflexivity.
  - eexists. split; reflexivity.
  - repeat constructor. intros (o & [= <-] & Hid). discriminate Hid.
Defined.

Lemma getById_NaN_not_found_witness :
  parseInt (str "abc") 10 = NaN /\
  get_api_users_id (disk_of two_users_text) (str "abc")
  = Responded (res_send 404 "User not found").
Proof.
  split; [reflexivity|].
  apply (getById_NaN_not_found (disk_of two_users_text) (str "abc")
           (json two_users_text) two_users eq_refl eq_refl
           two_users_parsed two_users_records).
Defined.



(* ===================================================================== *)
(** * More about [POST /users] *)
(* ===================================================================== *)

Lemma obj_get_app (k : jsstring) (o1 o2 : object) :
  obj_get k (o1 ++ o2) =
  match obj_get k o1 with
  | Some v => Some v
  | None => obj_get k o2
  end.
Proof.
  induction o1 as [|[k' v'] o1 IH]; simpl; [reflexivity|].
  destruct (str_eqb k k'); [reflexivity | exact IH].
Qed.

Lemma obj_get_not_in (k : jsstring) (o : object) :
  ~ In k (keys o) -> obj_get k o = None.
Proof.
  induction o as [|[k' v'] o IH]; simpl; [reflexivity|]. intro H.
  destruct (str_eqb k k') eqn:E.
  - apply str_eqb_eq in E. subst. tauto.
  - apply IH. tauto.
Qed.

(** Without two properties of one name, the last binding of a name is its
    first. *)
Lemma obj_get_rev (k : jsstring) (o : object) :
  NoDup (keys o) -> obj_get k (rev o) = obj_get k o.
Proof.
  induction o as [|[k' v'] o IH]; simpl; [reflexivity|]. intro H.
  inversion H as [|? ? Hin Hnd]; subst.
  rewrite obj_get_app, IH by assumption. simpl.
  destruct (str_eqb k k') eqn:E.
  - apply str_eqb_eq in E. subst. now rewrite (obj_get_not_in k' o).
  - now destruct (obj_get k o).
Qed.

Lemma value_okb_keys (o : object) : value_okb (VObj o) = true -> NoDup (keys o).
Proof.
  cbn [value_okb]. intro H. apply andb_prop in H as [H _].
  apply andb_prop in H as [H _]. now apply nodup_keys_NoDup.
Qed.

(** The two integer ids of one Record are one. *)
Lemma record_id_functional (z n : Z) (u : value) :
  record_id z u -> record_id n u -> z = n.
Proof.
  intros (o & -> & H1) (o' & E & H2). injection E as <-. congruence.
Qed.

Lemma record_id_is_record (z : Z) (u : value) : record_id z u -> is_record u.
Proof. intros (o & -> & _). now exists o. Qed.

Lemma records_of_ids (users : list value) (zs : list Z) :
  Forall2 (fun u z => record_id z u) users zs -> Forall is_record users.
Proof.
  induction 1 as [|u z users zs H _ IH]; constructor;
    [exact (record_id_is_record z u H) | exact IH].
Qed.

Lemma ids_below (users : list value) (zs : list Z) (n : Z) :
  Forall2 (fun u z => record_id z u) users zs ->
  (forall z, In z zs -> (z < n)%Z) ->
  Forall (fun u => ~ record_id n u) users.
Proof.
  induction 1 as [|u z users zs H _ IH]; intro Hlt; constructor.
  - intro Hn. specialize (Hlt z (or_introl eq_refl)).
    rewrite (record_id_functional z n u H Hn) in Hlt. lia.
  - apply IH. intros y Hy. apply Hlt. now right.
Qed.

(** The JSON image of a value is a Record with integer id [z] exactly when
    the value is. *)
Lemma obj_get_to_json (k : jsstring) (o : object) :
  obj_get k (map (fun kv => (fst kv, to_json (snd kv))) o)
  = option_map to_json (obj_get k o).
Proof.
  induction o as [|[k' v'] o IH]; simpl; [reflexivity|].
  destruct (str_eqb k k'); [reflexivity | exact IH].
Qed.

Lemma record_id_to_json (z : Z) (v : value) :
  record_id z (to_json v) <-> record_id z v.
Proof.
  split.
  - intros (o & E & H). destruct v as [| |n| |l|o']; simpl in E; try discriminate.
    + destruct (is_finite n); discriminate.
    + injection E as <-. exists o'. split; [reflexivity|].
      rewrite obj_get_to_json in H.
      destruct (obj_get (str "id") o') as [[| |n| |l|o'']|]; simpl in H; try discriminate.
      destruct (is_finite n); [exact H | discriminate].
  - intros (o & -> & H). simpl. eexists. split; [reflexivity|].
    now rewrite obj_get_to_json, H.
Qed.

Lemma is_record_to_json (v : value) : is_record v -> is_record (to_json v).
Proof. intros [o ->]. simpl. eexists. reflexivity. Qed.

Lemma find_app_miss {A : Type} (p : A -> bool) (l : list A) (a : A) :
  p a = false -> find p (l ++ [a]) = find p l.
Proof.
  intro H. induction l as [|x l IH]; simpl; [now rewrite H|].
  destruct (p x); [reflexivity | exact IH].
Qed.

Lemma record_idb_false (z : Z) (r : value) : ~ record_id z r -> record_idb z r = false.
Proof.
  intro H. destruct (record_idb z r) eqn:E; [|reflexivity].
  apply record_idb_spec in E. contradiction.
Qed.

Section CreateMore.

Variable ToNumber_other : value -> throws number.

(** The ways through the handler: it gets as far as the write, or it
    stops before it and touches nothing. *)
Lemma post_users_cases (d : disk) (body : value) (w : write_outcome) :
  (exists data users nid user,
      d users_path = Some data /\
      JSON.parse data = Some (VArr users) /\
      nextId ToNumber_other users = Some nid /\
      newUser nid body = Some user /\
      ((w = WriteOk /\
        post_users ToNumber_other d body w
        = (res_json 201 user,
           fs.store d users_path (Some (JSON.stringify (VArr (users ++ [user])) 4)))) \/
       (exists remains,
           w = WriteFail remains /\
           post_users ToNumber_other d body w
           = (res_send 500 "Error processing request", fs.store d users_path remains)))) \/
  (post_users ToNumber_other d body w = (res_send 500 "Error processing request", d) /\
   forall data users nid,
     d users_path = Some data -> JSON.parse data = Some (VArr users) ->
     nextId ToNumber_other users = Some nid -> newUser nid body = None).
Proof.
  unfold post_users, fs.readFile.
  destruct (d users_path) as [data|] eqn:Hd; [|right; split; [reflexivity | discriminate]].
  destruct (JSON.parse data) as [[| | | |users|]|] eqn:Hp;
    try (right; split; [reflexivity | intros ? ? ? [= <-]; congruence]).
  destruct (nextId ToNumber_other users) as [nid|] eqn:Hn;
    [|right; split; [reflexivity | intros ? ? ? [= <-]; congruence]].
  destruct (newUser nid body) as [user|] eqn:Hu;
    [|right; split; [reflexivity | intros ? ? ? [= <-]; congruence]].
  left. exists data, users, nid, user. do 4 (split; [first [reflexivity | assumption]|]).
  destruct w as [|remains]; [left | right; exists remains]; split; reflexivity.
Qed.

(** X1.  [POST /users] leaves every file other than [users.json] as it
    was, whatever the body, the state of the disk and the fate of the
    write. *)
Theorem post_users_other_files (d : disk) (body : value) (w : write_outcome) (p : string) :
  p <> users_path ->
  snd (post_users ToNumber_other d body w) p = d p.
Proof.
  intro Hp.
  destruct (post_users_cases d body w)
    as [(data & users & nid & user & _ & _ & _ & _ & [[_ ->] | (remains & _ & ->)]) | [-> _]];
    cbn [snd]; [now apply store_other | now apply store_other | reflexivity].
Qed.

(** X2.  [POST /users] answers in one of two ways: 201 with the new
    Record, and then the write went through; or 500 with the text
    [Error processing request], and then the disk is as it was unless the
    write itself failed, in which case [users.json] holds what the failed
    write left. *)
Theorem post_users_two_outcomes (d : disk) (body : value) (w : write_outcome) :
  (exists user,
      fst (post_users ToNumber_other d body w) = res_json 201 user /\ w = WriteOk) \/
  (fst (post_users ToNumber_other d body w) = res_send 500 "Error processing request" /\
   (snd (post_users ToNumber_other d body w) = d \/
    exists remains,
      w = WriteFail remains /\
      snd (post_users ToNumber_other d body w) = fs.store d users_path remains)).
Proof.
  destruct (post_users_cases d body w)
    as [(data & users & nid & user & _ & _ & _ & _ & [[Hw ->] | (remains & Hw & ->)]) | [-> _]].
  - left. exists user. now split.
  - right. split; [reflexivity|]. right. exists remains. now split.
  - right. split; [reflexivity|]. now left.
Qed.

Lemma newUser_not_null (nid : number) (body : value) :
  body <> VNull -> exists u, newUser nid body = Some (VObj u).
Proof.
  intro H. unfold newUser. destruct body; try congruence; cbn [get_prop]; eexists; reflexivity.
Qed.

(** On Records with integer ids, [nextId] does not throw. *)
Lemma nextId_defined (users : list value) (zs : list Z) :
  Forall2 (fun u z => record_id z u) users zs ->
  exists nid, nextId ToNumber_other users = Some nid.
Proof.
  intro Hids. destruct (nextId_integers ToNumber_other users zs Hids) as [H0 H1].
  destruct users as [|u users]; [eexists; now apply H0|].
  destruct H1 as (m & _ & _ & H & _); [discriminate | eauto].
Qed.

(** X3.  On a Collection whose Records carry integer ids, a request with
    any body other than [null] whose write goes through is answered with
    201, and [users.json] then holds the text of the Collection with the
    new Record at its end. *)
Theorem post_users_succeeds (d : disk) (data : jsstring) (users : list value) (zs : list Z)
    (body : value) :
  d users_path = Some data ->
  JSON.parse data = Some (VArr users) ->
  Forall2 (fun u z => record_id z u) users zs ->
  body <> VNull ->
  exists user,
    newUser_of_users ToNumber_other users body user /\
    post_users ToNumber_other d body WriteOk
    = (res_json 201 user,
       fs.store d users_path (Some (JSON.stringify (VArr (users ++ [user])) 4))).
Proof.
  intros Hd Hp Hids Hbody.
  destruct (nextId_defined users zs Hids) as [nid Hn].
  destruct (newUser_not_null nid body Hbody) as [u Hu].
  exists (VObj u). split; [exists nid; now split|].
  unfold post_users, fs.readFile. now rewrite Hd, Hp, Hn, Hu.
Qed.

(** X4.  A request whose body is [null] is answered with 500 and writes
    nothing, whatever [users.json] holds: the spread of [null] is empty,
    but reading [role] of it throws. *)
Theorem post_users_null_body (d : disk) (w : write_outcome) :
  post_users ToNumber_other d VNull w = (res_send 500 "Error processing request", d).
Proof.
  destruct (post_users_cases d VNull w)
    as [(data & users & nid & user & _ & _ & _ & Hu & _) | [H _]];
    [discriminate Hu | exact H].
Qed.

(** The fields of the Record built for an object. *)
Lemma newUser_fields (nid : number) (o : object) :
  NoDup (keys o) ->
  exists u,
    newUser nid (VObj o) = Some (VObj u) /\
    (exists r, obj_get (str "role") u = Some r /\ truthy r = true) /\
    (forall k, k <> str "role" ->
               obj_get k u =
               match obj_get k o with
               | Some v => Some v
               | None => if str_eqb k (str "id") then Some (VNum nid) else None
               end).
Proof.
  intro Hnd. unfold newUser. cbn [get_prop spread]. eexists. split; [reflexivity|]. split.
  - rewrite obj_get_set_same. eexists. split; [reflexivity|].
    destruct (obj_get (str "role") o) as [v|]; [|reflexivity].
    destruct (truthy v) eqn:E; [exact E | reflexivity].
  - intros k Hk. rewrite obj_get_set_other by exact Hk.
    rewrite obj_get_assign, obj_get_rev by exact Hnd.
    destruct (obj_get k o); [reflexivity|]. simpl.
    now destruct (str_eqb k (str "id")).
Qed.

(** X5.  The Record made for an object body carries every field of the
    body other than [role] with the value the body gave it, and has no
    field besides [id], [role] and those of the body. *)
Theorem post_users_keeps_fields (d d' : disk) (o : object) (w : write_outcome) (user : value) :
  value_okb (VObj o) = true ->
  post_users ToNumber_other d (VObj o) w = (res_json 201 user, d') ->
  exists u,
    user = VObj u /\
    (forall k v, k <> str "role" -> obj_get k o = Some v -> obj_get k u = Some v) /\
    (forall k, k <> str "role" -> k <> str "id" -> obj_get k o = None ->
               obj_get k u = None).
Proof.
  intros Hok H.
  destruct (post_users_created ToNumber_other d d' (VObj o) w _ H eq_refl)
    as (data & users & nid & user' & _ & _ & _ & Hu & _ & Hr & _).
  injection Hr as ->.
  destruct (newUser_fields nid o (value_okb_keys o Hok)) as (u & Hu' & _ & Hf).
  rewrite Hu' in Hu. injection Hu as <-. exists u. split; [reflexivity|]. split.
  - intros k v Hk Hv. now rewrite (Hf k Hk), Hv.
  - intros k Hk Hid Hv. rewrite (Hf k Hk), Hv.
    apply str_eqb_neq in Hid. now rewrite Hid.
Qed.

(** X6.  Every Record that [POST /users] creates has a [role], and the
    role is truthy: never missing, [null], [false], zero or the empty
    text. *)
Theorem post_users_role_truthy (d d' : disk) (body : value) (w : write_outcome) (user : value) :
  post_users ToNumber_other d body w = (res_json 201 user, d') ->
  exists u r, user = VObj u /\ obj_get (str "role") u = Some r /\ truthy r = true.
Proof.
  intro H.
  destruct (post_users_created ToNumber_other d d' body w _ H eq_refl)
    as (data & users & nid & user' & _ & _ & _ & Hu & _ & Hr & _).
  injection Hr as ->. unfold newUser in Hu.
  destruct (get_prop body (str "role")) as [role|]; [|discriminate].
  injection Hu as <-. eexists. eexists. split; [reflexivity|].
  rewrite obj_get_set_same. split; [reflexivity|].
  destruct role as [v|]; [|reflexivity].
  destruct (truthy v) eqn:E; [exact E | reflexivity].
Qed.

End CreateMore.

Lemma readJsonFile_value (d : disk) (p : string) (v : value) :
  readJsonFile d p = v -> v <> VNull ->
  exists data, d p = Some data /\ JSON.parse data = Some v.
Proof.
  unfold readJsonFile, fs.readFile. intros H Hv.
  destruct (d p) as [data|]; [|congruence].
  destruct (JSON.parse data) as [v'|] eqn:E; [|congruence].
  exists data. split; congruence.
Qed.


Lemma Forall2_to_json (users : list value) (zs : list Z) :
  Forall2 (fun u z => record_id z u) users zs ->
  Forall2 (fun u z => record_id z u) (map to_json users) zs.
Proof.
  induction 1 as [|u z users zs H _ IH]; cbn [map]; constructor;
    [now apply record_id_to_json | exact IH].
Qed.

Lemma array_find_app_miss (p : value -> throws bool) (l : list value) (a : value) :
  p a = Some false -> array_find p (l ++ [a]) = array_find p l.
Proof.
  intro H. induction l as [|x l IH]; cbn [app array_find]; [now rewrite H|].
  destruct (p x) as [[|]|]; [reflexivity | exact IH | reflexivity].
Qed.

Section CreateIds.

Variable ToNumber_other : value -> throws number.

(** The id of the Record built for a body without an [id], on top of
    Records whose ids are integers that binary64 counts exactly. *)
Lemma created_id (users : list value) (zs : list Z) (o : object) (nid : number) (user : value) :
  Forall2 (fun u z => record_id z u) users zs ->
  (forall z, In z zs -> (- 2 ^ 53 <= z < 2 ^ 53)%Z) ->
  obj_get (str "id") o = None ->
  nextId ToNumber_other users = Some nid ->
  newUser nid (VObj o) = Some user ->
  exists n,
    nid = Int n /\ record_id n user /\
    (forall z, In z zs -> (z < n)%Z) /\
    (zs = [] -> n = 1%Z) /\
    (forall m, In m zs -> (forall z, In z zs -> (z <= m)%Z) -> n = (m + 1)%Z).
Proof.
  intros Hids Hsafe Ho Hn Hu.
  destruct (newUser_fresh_id ToNumber_other nid o Ho) as (u & Hu' & Hid).
  rewrite Hu' in Hu. injection Hu as <-.
  destruct (nextId_integers ToNumber_other users zs Hids) as [H0 H1].
  destruct users as [|u0 users].
  - inversion Hids; subst. rewrite H0 in Hn by reflexivity. injection Hn as <-.
    exists 1%Z. split; [reflexivity|]. split; [exists u; now split|].
    split; [intros z []|]. split; [reflexivity | intros m []].
  - destruct H1 as (m & Hin & Hmax & _ & Hm); [discriminate|].
    rewrite (Hm (Hsafe m Hin)) in Hn. injection Hn as <-.
    exists (m + 1)%Z. split; [reflexivity|]. split; [exists u; now split|].
    split; [intros z Hz; specialize (Hmax z Hz); lia|].
    split; [intros ->; destruct Hin|].
    intros m' Hin' Hmax'. specialize (Hmax m' Hin'). specialize (Hmax' m Hin). lia.
Qed.

(** What a successful request on such a Collection leaves behind. *)
Lemma post_users_step (d d' : disk) (data : jsstring) (users : list value) (zs : list Z)
    (body user : value) (w : write_outcome) :
  d users_path = Some data ->
  JSON.parse data = Some (VArr users) ->
  Forall2 (fun u z => record_id z u) users zs ->
  (forall z, In z zs -> (- 2 ^ 53 <= z < 2 ^ 53)%Z) ->
  no_own_id body ->
  post_users ToNumber_other d body w = (res_json 201 user, d') ->
  exists n data',
    record_id n user /\
    (forall z, In z zs -> (z < n)%Z) /\
    (zs = [] -> n = 1%Z) /\
    (forall m, In m zs -> (forall z, In z zs -> (z <= m)%Z) -> n = (m + 1)%Z) /\
    d' users_path = Some data' /\
    JSON.parse data' = Some (VArr (map to_json users ++ [user])) /\
    finite_numbers user = true.
Proof.
  intros Hd Hp Hids Hsafe (Hjson & o & -> & Ho) H.
  destruct (post_users_persisted ToNumber_other d d' (VObj o) user w
              (is_json_okb _ Hjson) H)
    as (data0 & users0 & Hd0 & Hp0 & (nid & Hn & Hu) & Hread & _).
  rewrite Hd in Hd0. injection Hd0 as <-. rewrite Hp in Hp0. injection Hp0 as <-.
  destruct (created_id users zs o nid user Hids Hsafe Ho Hn Hu)
    as (n & -> & Hrec & Hlt & H1 & Hmax).
  pose proof (newUser_finite (Int n) o user eq_refl (is_json_finite _ Hjson) Hu)
    as Hfin.
  rewrite (to_json_finite user Hfin) in Hread.
  destruct (readJsonFile_value d' users_path _ Hread) as (data' & Hd' & Hp');
    [discriminate|].
  exists n, data'. repeat (split; [assumption|]). assumption.
Qed.

(** X7.  When the body has no [id] of its own, the Record that
    [POST /users] creates on a Collection whose ids are integers from
    [- 2 ^ 53] up to, but not including, [2 ^ 53] carries an id greater
    than every id in the file, and the id 1 when the file holds the empty
    array.  (From [2 ^ 53] on, adding one rounds back to the same
    number.) *)
Theorem post_users_new_id_fresh (d d' : disk) (data : jsstring) (users : list value)
    (zs : list Z) (body user : value) (w : write_outcome) :
  d users_path = Some data ->
  JSON.parse data = Some (VArr users) ->
  Forall2 (fun u z => record_id z u) users zs ->
  (forall z, In z zs -> (- 2 ^ 53 <= z < 2 ^ 53)%Z) ->
  no_own_id body ->
  post_users ToNumber_other d body w = (res_json 201 user, d') ->
  exists n,
    record_id n user /\
    (forall z, In z zs -> (z < n)%Z) /\
    (zs = [] -> n = 1%Z).
Proof.
  intros Hd Hp Hids Hsafe Hbody H.
  destruct (post_users_step d d' data users zs body user w Hd Hp Hids Hsafe Hbody H)
    as (n & _ & Hrec & Hlt & H1 & _).
  exists n. now repeat split.
Qed.

(** X8.  Reading back what was created: after a successful
    [POST /users] with a body that has no [id] of its own, on a
    Collection whose ids are integers from [- 2 ^ 53] up to, but not
    including, [2 ^ 53], [GET /api/users/:id] with a parameter that
    [parseInt] reads as the id of the new Record answers 200 with that
    Record. *)
Theorem post_then_get (d d' : disk) (data : jsstring) (users : list value) (zs : list Z)
    (body user : value) (w : write_outcome) (id : jsstring) (n : Z) :
  d users_path = Some data ->
  JSON.parse data = Some (VArr users) ->
  Forall2 (fun u z => record_id z u) users zs ->
  (forall z, In z zs -> (- 2 ^ 53 <= z < 2 ^ 53)%Z) ->
  no_own_id body ->
  post_users ToNumber_other d body w = (res_json 201 user, d') ->
  record_id n user ->
  parseInt id 10 = Int n ->
  get_api_users_id d' id = Responded (res_json 200 user).
Proof.
  intros Hd Hp Hids Hsafe Hbody H Hrec Hid.
  destruct (post_users_step d d' data users zs body user w Hd Hp Hids Hsafe Hbody H)
    as (n' & data' & Hrec' & Hlt & _ & _ & Hd' & Hp' & _).
  assert (n' = n) as -> by exact (record_id_functional n' n user Hrec' Hrec).
  pose proof (Forall2_to_json users zs Hids) as Hids'.
  rewrite (get_api_users_id_collection d' id data' (map to_json users ++ [user]) n
             Hid Hd' Hp').
  - now rewrite (find_first n (map to_json users) [] user Hrec
                   (ids_below _ zs n Hids' Hlt)).
  - apply Forall_app. split; [exact (records_of_ids _ zs Hids')|].
    constructor; [exact (record_id_is_record n user Hrec) | constructor].
Qed.

(** X9.  Creating a Record does not change what [GET /api/users/:id]
    answers for any other id: when every number in the file is finite, a
    parameter whose [parseInt] is not the id of the new Record as it is
    written (the test [u.id === userId] is false on it) gets the same
    answer before and after a successful [POST /users]. *)
Theorem post_keeps_other_answers (d d' : disk) (data : jsstring) (users : list value)
    (body user : value) (w : write_outcome) (id : jsstring) :
  d users_path = Some data ->
  JSON.parse data = Some (VArr users) ->
  forallb finite_numbers users = true ->
  value_okb body = true ->
  post_users ToNumber_other d body w = (res_json 201 user, d') ->
  has_id (parseInt id 10) (to_json user) = Some false ->
  get_api_users_id d' id = get_api_users_id d id.
Proof.
  intros Hd Hp Hfin Hok H Hother.
  destruct (post_users_persisted ToNumber_other d d' body user w Hok H)
    as (data0 & users0 & Hd0 & Hp0 & _ & Hread & _).
  rewrite Hd in Hd0. injection Hd0 as <-. rewrite Hp in Hp0. injection Hp0 as <-.
  rewrite (map_to_json_finite users Hfin) in Hread.
  unfold get_api_users_id. rewrite Hread.
  unfold readJsonFile, fs.readFile. rewrite Hd, Hp. cbn [truthy].
  now rewrite (array_find_app_miss _ users _ Hother).
Qed.

End CreateIds.



Section CreateHistory.

Variable ToNumber_other : value -> throws number.



End CreateHistory.


(* ===================================================================== *)
(** * The text that [res.json] sends *)
(* ===================================================================== *)

Lemma visible_digit_chars (ds : list N) : Forall (fun c => (32 <= c)%N) (digit_chars ds).
Proof.
  induction ds as [|d ds IH]; constructor; [unfold digit_char; lia | exact IH].
Qed.

Lemma visible_format_digits (ds : list N) (n : Z) :
  Forall (fun c => (32 <= c)%N) (format_digits ds n).
Proof.
  unfold format_digits.
  destruct ((Z.of_nat (length ds) <=? n) && (n <=? 21))%Z; [apply visible_digit_chars|].
  destruct ((0 <? n) && (n <=? 21))%Z.
  { apply Forall_app. split; [apply visible_digit_chars|].
    constructor; [discriminate | apply visible_digit_chars]. }
  destruct ((-6 <? n) && (n <=? 0))%Z.
  { constructor; [discriminate|]. constructor; [discriminate | apply visible_digit_chars]. }
  assert (He : Forall (fun c => (32 <= c)%N)
                 (ch "e" :: (if (n - 1 <? 0)%Z then ch "-" else ch "+")
                         :: digit_chars (digits (Z.to_N (Z.abs (n - 1)))))).
  { constructor; [discriminate|].
    constructor; [destruct (n - 1 <? 0)%Z; discriminate | apply visible_digit_chars]. }
  destruct ds as [|d [|d' ds]]; [exact He | |].
  - constructor; [unfold digit_char; lia | exact He].
  - constructor; [unfold digit_char; lia|]. constructor; [discriminate|].
    apply Forall_app. split; [apply visible_digit_chars | exact He].
Qed.

Lemma visible_number (n : number) : Forall (fun c => (32 <= c)%N) (number_to_string n).
Proof.
  assert (Hs : forall neg s, Forall (fun c => (32 <= c)%N) s ->
                             Forall (fun c => (32 <= c)%N) (with_sign neg s)).
  { intros [|] s H; [constructor; [discriminate | exact H] | exact H]. }
  destruct n as [z|m e| |b]; unfold number_to_string.
  - destruct (z =? 0)%Z; [constructor; [discriminate | constructor]|].
    apply Hs, visible_format_digits.
  - apply Hs, visible_format_digits.
  - repeat (constructor; [discriminate|]). constructor.
  - apply Hs. repeat (constructor; [discriminate|]). constructor.
Qed.

Lemma visible_hex_char (d : N) : (32 <= JSON.hex_char d)%N.
Proof. unfold JSON.hex_char. destruct (d <? 10)%N; lia. Qed.

Lemma visible_quote_char (c : char) : Forall (fun x => (32 <= x)%N) (JSON.quote_char c).
Proof.
  unfold JSON.quote_char.
  repeat match goal with
         | |- context [if (c =? ?k)%N then _ else _] =>
             destruct (c =? k)%N; [repeat (constructor; [discriminate|]); constructor|]
         end.
  destruct (c <? 32)%N eqn:E; cbn [orb].
  - unfold JSON.unicode_escape.
    do 2 (constructor; [discriminate|]).
    repeat (constructor; [apply visible_hex_char|]). constructor.
  - apply N.ltb_ge in E.
    destruct (JSON.is_high_surrogate c || JSON.is_low_surrogate c).
    + unfold JSON.unicode_escape.
      do 2 (constructor; [discriminate|]).
      repeat (constructor; [apply visible_hex_char|]). constructor.
    + constructor; [exact E | constructor].
Qed.

Lemma visible_quote_chars (s : jsstring) : Forall (fun x => (32 <= x)%N) (JSON.quote_chars s).
Proof.
  assert (H : forall n s, (length s <= n)%nat ->
                          Forall (fun x => (32 <= x)%N) (JSON.quote_chars s)).
  { clear s. induction n as [|n IH]; intros [|c [|d s]] Hlen; simpl in Hlen;
      try lia; try (now constructor); try (exact (visible_quote_char c)).
    rewrite quote_chars_cons.
    destruct (JSON.is_high_surrogate c && JSON.is_low_surrogate d) eqn:E.
    - apply andb_prop in E. destruct E as [E1 E2].
      unfold JSON.is_high_surrogate in E1. unfold JSON.is_low_surrogate in E2.
      apply andb_prop in E1, E2. destruct E1 as [E1 _]. destruct E2 as [E2 _].
      apply N.leb_le in E1, E2.
      constructor; [lia|]. constructor; [lia|]. apply IH. simpl. lia.
    - apply Forall_app. split; [apply visible_quote_char|]. apply IH. simpl. lia. }
  exact (H (length s) s (le_n _)).
Qed.

Lemma visible_quote (s : jsstring) : Forall (fun x => (32 <= x)%N) (JSON.quote s).
Proof.
  unfold JSON.quote. constructor; [discriminate|].
  apply Forall_app. split; [apply visible_quote_chars|].
  constructor; [discriminate | constructor].
Qed.

(** Without a gap, the text of a value has no control character in it. *)
Lemma visible_serialize (v : value) :
  forall indent, Forall (fun c => (32 <= c)%N) (JSON.serialize 0 indent v).
Proof.
  induction v as [|b|n|s|l IH|o IH] using value_induction; intro indent.
  - repeat (constructor; [discriminate|]). constructor.
  - destruct b; repeat (constructor; [discriminate|]); constructor.
  - cbn [JSON.serialize]. destruct (is_finite n); [apply visible_number|].
    repeat (constructor; [discriminate|]). constructor.
  - apply visible_quote.
  - destruct l as [|v0 l]; [repeat (constructor; [discriminate|]); constructor|].
    rewrite serialize_arr. inversion IH as [|? ? H0 Hl]; subst.
    constructor; [discriminate|]. cbn [JSON.newline app].
    apply Forall_app. split; [apply H0|].
    clear H0 IH. induction Hl as [|v l Hv _ IHl]; cbn [elements_text JSON.newline app].
    + constructor; [discriminate | constructor].
    + constructor; [discriminate|]. apply Forall_app. split; [apply Hv | exact IHl].
  - destruct o as [|[k0 v0] o]; [repeat (constructor; [discriminate|]); constructor|].
    rewrite serialize_obj. inversion IH as [|? ? H0 Hl]; subst. cbn [snd] in H0.
    constructor; [discriminate|]. cbn [JSON.newline JSON.colon app].
    apply Forall_app. split; [apply visible_quote|].
    constructor; [discriminate|].
    apply Forall_app. split; [apply H0|].
    clear H0 IH. induction Hl as [|[k v] l Hv _ IHl];
      cbn [members_text JSON.newline JSON.colon app].
    + constructor; [discriminate | constructor].
    + constructor; [discriminate|]. apply Forall_app. split; [apply visible_quote|].
      constructor; [discriminate|]. apply Forall_app. split; [apply Hv | exact IHl].
Qed.

(** X13.  [GET /prettyusers] is no prettier than [GET /users]: both
    answer with the same status, and a 200 answer has in both the same
    body, a JSON text on one line without a line feed or any other control
    character. *)
Theorem prettyusers_one_line (d : disk) :
  status (get_prettyusers d) = status (get_users d) /\
  (status (get_prettyusers d) = 200%Z ->
   wire (sent (get_prettyusers d)) = wire (sent (get_users d)) /\
   Forall (fun c => (32 <= c)%N) (wire (sent (get_prettyusers d))) /\
   ~ In LF (wire (sent (get_prettyusers d)))).
Proof.
  unfold get_prettyusers, get_users, get_all.
  destruct (truthy (readJsonFile d users_path)); cbn [status sent res_json res_send wire].
  - split; [reflexivity|]. intros _. split; [reflexivity|].
    pose proof (visible_serialize (readJsonFile d users_path) 0) as H.
    split; [exact H|]. intro Hin.
    change (JSON.stringify (readJsonFile d users_path) 0)
      with (JSON.serialize 0 0 (readJsonFile d users_path)) in Hin.
    rewrite Forall_forall in H. specialize (H _ Hin). unfold LF in H. lia.
  - split; [reflexivity | discriminate].
Qed.

(* ===================================================================== *)
(** * More about [GET /api/users/:id] *)
(* ===================================================================== *)

Lemma array_find_found (p : value -> throws bool) (l : list value) (x : value) :
  array_find p l = Some (Some x) ->
  exists l1 l2, l = l1 ++ x :: l2 /\ p x = Some true /\
                Forall (fun u => p u = Some false) l1.
Proof.
  induction l as [|y l IH]; simpl; [discriminate|].
  destruct (p y) as [[|]|] eqn:E; [| |discriminate].
  - intros [= <-]. exists [], l. now repeat split.
  - intro H. destruct (IH H) as (l1 & l2 & -> & Hx & Hl1).
    exists (y :: l1), l2. repeat split; [assumption | now constructor].
Qed.

Lemma array_find_throws (p : value -> throws bool) (l : list value) :
  array_find p l = None <->
  exists l1 x l2, l = l1 ++ x :: l2 /\ p x = None /\
                  Forall (fun u => p u = Some false) l1.
Proof.
  split.
  - induction l as [|y l IH]; simpl; [discriminate|].
    destruct (p y) as [[|]|] eqn:E; [discriminate | |].
    + intro H. destruct (IH H) as (l1 & x & l2 & -> & Hx & Hl1).
      exists (y :: l1), x, l2. repeat split; [assumption | now constructor].
    + intros _. exists [], y, l. now repeat split.
  - intros (l1 & x & l2 & -> & Hx & Hl1).
    induction Hl1 as [|y l1 Hy _ IH]; simpl; [now rewrite Hx | now rewrite Hy].
Qed.

Lemma has_id_throws (n : number) (u : value) : has_id n u = None <-> u = VNull.
Proof.
  unfold has_id. destruct u; simpl; split; congruence.
Qed.

(** A Number of a JSON text that is strictly equal to an integer is that
    integer. *)
Lemma num_eqb_int (m : number) (z : Z) :
  num_okb m = true -> num_eqb m (Int z) = true -> m = Int z.
Proof.
  intro Hok. apply num_okb_ok in Hok. revert Hok.
  destruct m as [a|m e| |b]; cbn [num_ok num_eqb]; try discriminate.
  - intros _ H. apply Z.eqb_eq in H. now subst.
  - intros [He Hm] H. apply Z.eqb_eq in H.
    exfalso. apply Hm. subst m.
    replace e with (Z.succ (e - 1)) by lia.
    rewrite Z.pow_succ_r by lia.
    replace (z * (10 * 10 ^ (e - 1)))%Z with (z * 10 ^ (e - 1) * 10)%Z by ring.
    apply Z_mod_mult.
Qed.

Lemma has_id_true (z : Z) (u : value) :
  value_okb u = true -> has_id (Int z) u = Some true -> record_id z u.
Proof.
  intros Hok H. unfold has_id in H.
  destruct u as [| | | | |o]; simpl in H; try discriminate.
  destruct (obj_get (str "id") o) as [[| |m| | |]|] eqn:E; simpl in H; try discriminate.
  injection H as H. exists o. split; [reflexivity|].
  rewrite (num_eqb_int m z (obj_get_ok _ _ _ Hok E) H) in E. exact E.
Qed.

Lemma has_id_false (z : Z) (u : value) :
  has_id (Int z) u = Some false -> ~ record_id z u.
Proof.
  intros H (o & -> & Hid). unfold has_id in H. simpl in H. rewrite Hid in H.
  simpl in H. rewrite Z.eqb_refl in H. discriminate.
Qed.

Lemma has_id_NaN (u : value) : has_id NaN u <> Some true.
Proof.
  unfold has_id. destruct u as [| | | | |o]; simpl; try discriminate.
  destruct (obj_get (str "id") o) as [[| |[| | |]| | |]|]; discriminate.
Qed.

Lemma forallb_In {A : Type} (p : A -> bool) (l : list A) (a : A) :
  forallb p l = true -> In a l -> p a = true.
Proof. intros H Ha. rewrite forallb_forall in H. now apply H. Qed.

(** X14.  A 200 answer of [GET /api/users/:id] always carries an element
    of the array in [users.json]: the first one whose [id] is strictly
    equal to the number that [parseInt] reads in the parameter, which is
    not NaN.  When that number is an integer, the element is a Record with
    that integer as its [id], and no element before it is one. *)
Theorem getById_found_sound (d : disk) (id : jsstring) (r : response) :
  get_api_users_id d id = Responded r ->
  status r = 200%Z ->
  exists data l1 user l2,
    d users_path = Some data /\
    JSON.parse data = Some (VArr (l1 ++ user :: l2)) /\
    has_id (parseInt id 10) user = Some true /\
    Forall (fun u => has_id (parseInt id 10) u = Some false) l1 /\
    parseInt id 10 <> NaN /\
    r = res_json 200 user /\
    (forall z, parseInt id 10 = Int z ->
               record_id z user /\ Forall (fun u => ~ record_id z u) l1).
Proof.
  unfold get_api_users_id, readJsonFile, fs.readFile.
  destruct (d users_path) as [data|]; [|intros [= <-]; discriminate].
  destruct (JSON.parse data) as [v|] eqn:Hp; [|intros [= <-]; discriminate].
  destruct (truthy v); [|intros [= <-]; discriminate].
  destruct v as [| | | |users|]; try discriminate.
  destruct (array_find (has_id (parseInt id 10)) users) as [[user|]|] eqn:Hf;
    [| intros [= <-]; discriminate | discriminate].
  destruct (truthy user); [|intros [= <-]; discriminate].
  intros [= <-] _.
  destruct (array_find_found _ _ _ Hf) as (l1 & l2 & -> & Hx & Hl1).
  exists data, l1, user, l2. split; [reflexivity|]. split; [exact Hp|].
  split; [exact Hx|]. split; [exact Hl1|]. split; [|split; [reflexivity|]].
  - intro E. rewrite E in Hx. now destruct (has_id_NaN user).
  - intros z E. rewrite E in Hx, Hl1. split.
    + apply has_id_true; [|exact Hx].
      pose proof (JSON_parse_okb _ _ Hp) as Hok. cbn [value_okb] in Hok.
      apply (forallb_In _ _ _ Hok). apply in_or_app. right. now left.
    + apply (Forall_impl _ (has_id_false z) Hl1).
Qed.

(** X15.  [GET /api/users/:id] sends nothing, because a TypeError escapes
    the handler, exactly when [users.json] parses to a truthy value that is
    not an array, or to an array that has a [null] before any element whose
    [id] is the one asked for. *)
Theorem getById_rejected_iff (d : disk) (id : jsstring) :
  get_api_users_id d id = Rejected <->
  exists data v,
    d users_path = Some data /\ JSON.parse data = Some v /\ truthy v = true /\
    ((forall l, v <> VArr l) \/
     exists l1 l2,
       v = VArr (l1 ++ VNull :: l2) /\
       Forall (fun u => has_id (parseInt id 10) u = Some false) l1).
Proof.
  unfold get_api_users_id, readJsonFile, fs.readFile. split.
  - destruct (d users_path) as [data|]; [|discriminate].
    destruct (JSON.parse data) as [v|] eqn:Hp; [|discriminate].
    destruct (truthy v) eqn:Ht; [|discriminate].
    intro H. exists data, v. do 3 (split; [first [reflexivity | assumption]|]).
    destruct v as [| | | |users|]; try (left; discriminate).
    right.
    destruct (array_find (has_id (parseInt id 10)) users) as [[user|]|] eqn:Hf.
    + destruct (truthy user); discriminate.
    + discriminate.
    + apply array_find_throws in Hf. destruct Hf as (l1 & x & l2 & -> & Hx & Hl1).
      apply has_id_throws in Hx. subst x. now exists l1, l2.
  - intros (data & v & -> & -> & -> & [Hv | (l1 & l2 & -> & Hl1)]).
    + destruct v; try reflexivity. now destruct (Hv l).
    + assert (Hf : array_find (has_id (parseInt id 10)) (l1 ++ VNull :: l2) = None).
      { apply array_find_throws. exists l1, VNull, l2. now repeat split. }
      now rewrite Hf.
Qed.

(* ===================================================================== *)
(** * Files that [POST /users] cannot extend *)
(* ===================================================================== *)

Lemma map_throws_throws {A B : Type} (g : A -> throws B) (l : list A) (a : A) :
  In a l -> g a = None -> map_throws g l = None.
Proof.
  intros Hin Ha. induction l as [|x l IH]; [destruct Hin|]. simpl.
  destruct Hin as [-> | Hin]; [now rewrite Ha|].
  destruct (g x); [|reflexivity]. now rewrite (IH Hin).
Qed.


Section CreateEdges.

Variable ToNumber_other : value -> throws number.

(** X16.  When [users.json] holds JSON that is not an array, or an array
    with a [null] in it, [POST /users] answers 500 and writes nothing,
    whatever the body; [GET /users] serves the same file with 200 all the
    while, if its value is truthy. *)
Theorem post_users_bad_file (d : disk) (data : jsstring) (v body : value) (w : write_outcome) :
  d users_path = Some data ->
  JSON.parse data = Some v ->
  (forall l, v <> VArr l) \/ (exists l, v = VArr l /\ In VNull l) ->
  post_users ToNumber_other d body w = (res_send 500 "Error processing request", d) /\
  (truthy v = true -> get_users d = res_json 200 v).
Proof.
  intros Hd Hp Hv. split.
  - unfold post_users, fs.readFile. rewrite Hd, Hp.
    destruct Hv as [Hv | (l & -> & Hin)].
    + destruct v; try reflexivity. now destruct (Hv l).
    + unfold nextId. destruct l as [|u l]; [destruct Hin|].
      now rewrite (map_throws_throws _ _ VNull Hin eq_refl).
  - intro Ht. unfold get_users, get_all, readJsonFile, fs.readFile.
    now rewrite Hd, Hp, Ht.
Qed.



Lemma post_users_unusable (d : disk) (body : value) (w : write_outcome) :
  unusable (d users_path) ->
  post_users ToNumber_other d body w = (res_send 500 "Error processing request", d).
Proof.
  unfold unusable, post_users, fs.readFile.
  destruct (d users_path) as [data|]; [|reflexivity].
  destruct (JSON.parse data) as [[| | | |l|]|]; try reflexivity.
  intro Hin. unfold nextId. destruct l as [|u l]; [destruct Hin|].
  now rewrite (map_throws_throws _ _ VNull Hin eq_refl).
Qed.

(** X18.  The program never repairs [users.json]: when the file is
    missing, is not JSON, holds JSON that is not an array, or holds an
    array with a [null] in it, every [POST /users] of a history fails and
    leaves the disk exactly as it was. *)
Theorem history_stuck (d : disk) (reqs : list (value * write_outcome)) :
  unusable (d users_path) ->
  history ToNumber_other d reqs = repeat d (length reqs).
Proof.
  intro H. induction reqs as [|[body w] reqs IH]; [reflexivity|].
  cbn [history length repeat]. rewrite (post_users_unusable d body w H). cbn [snd].
  now rewrite IH.
Qed.

End CreateEdges.

(* ===================================================================== *)
(** * How the parameter of [GET /api/users/:id] is read *)
(* ===================================================================== *)

Lemma is_digit_range (c : char) : is_digit c = true -> (48 <= c <= 57)%N.
Proof.
  unfold is_digit. intro H. apply andb_prop in H. destruct H as [H1 H2].
  apply N.leb_le in H1, H2. lia.
Qed.

Lemma digit_not_sign (c : char) :
  is_digit c = true ->
  is_str_ws c = false /\ (c =? 45)%N = false /\ (c =? 43)%N = false.
Proof.
  intro H. apply is_digit_range in H.
  assert (E : (c = 48 \/ c = 49 \/ c = 50 \/ c = 51 \/ c = 52 \/ c = 53 \/ c = 54 \/
               c = 55 \/ c = 56 \/ c = 57)%N) by lia.
  repeat destruct E as [E | E]; subst c; repeat split; reflexivity.
Qed.

Lemma radix_digit_char (d : N) : (d < 10)%N -> radix_digit (digit_char d) = Some d.
Proof.
  intro H. unfold radix_digit. now rewrite (is_digit_char d H), digit_char_val.
Qed.

Lemma scan_radix_stop (rest : jsstring) (acc : option N) :
  not_digit_next rest -> scan_radix 10 rest acc = acc.
Proof.
  destruct rest as [|c rest]; [reflexivity|]. simpl. intro H.
  unfold radix_digit. rewrite H.
  destruct (N.leb 97 c && N.leb c 122)%N eqn:E1.
  - apply andb_prop in E1. destruct E1 as [E1 _]. apply N.leb_le in E1.
    assert (E : (c - 87 <? 10)%N = false) by (apply N.ltb_ge; lia). now rewrite E.
  - destruct (N.leb 65 c && N.leb c 90)%N eqn:E2; [|reflexivity].
    apply andb_prop in E2. destruct E2 as [E2 _]. apply N.leb_le in E2.
    assert (E : (c - 55 <? 10)%N = false) by (apply N.ltb_ge; lia). now rewrite E.
Qed.

Lemma scan_radix_digits (ds : list N) (rest : jsstring) (a : N) :
  all_digits ds -> not_digit_next rest ->
  scan_radix 10 (digit_chars ds ++ rest) (Some a)
  = Some (fold_left (fun a d => (10 * a + d)%N) ds a).
Proof.
  intros Hds Hrest. revert a. induction Hds as [|d ds Hd _ IH]; intro a.
  - simpl. now apply scan_radix_stop.
  - cbn [digit_chars map app scan_radix fold_left].
    rewrite (radix_digit_char d Hd).
    assert (E : (d <? 10)%N = true) by now apply N.ltb_lt. rewrite E.
    fold (digit_chars ds). rewrite IH. do 2 f_equal. lia.
Qed.

(** [parseInt] on an optional minus sign, decimal digits, and a tail that
    does not start with a digit: the binary64 value nearest to the integer
    that the digits spell, with the sign. *)
Lemma parseInt_decimal (neg : bool) (ds : list N) (rest : jsstring) :
  all_digits ds -> ds <> [] -> not_digit_next rest ->
  parseInt (with_sign neg (digit_chars ds ++ rest)) 10
  = of_rational neg (Z.of_N (digits_val ds)) 1.
Proof.
  intros Hds Hne Hrest. destruct ds as [|d ds]; [congruence|].
  inversion Hds as [|? ? Hd Hds']; subst.
  destruct (digit_not_sign (digit_char d) (is_digit_char d Hd)) as (Hws & Hm & Hp).
  assert (Hscan : scan_radix 10 (digit_chars (d :: ds) ++ rest) None
                  = Some (digits_val (d :: ds))).
  { cbn [digit_chars map app scan_radix]. rewrite (radix_digit_char d Hd).
    assert (E : (d <? 10)%N = true) by now apply N.ltb_lt. rewrite E.
    fold (digit_chars ds). rewrite (scan_radix_digits ds rest d Hds' Hrest).
    unfold digits_val. cbn [fold_left]. reflexivity. }
  unfold parseInt. change (ToInt32 10) with 10%Z.
  destruct neg; cbn [with_sign].
  - change (trim_start (ch "-" :: digit_chars (d :: ds) ++ rest))
      with (ch "-" :: digit_chars (d :: ds) ++ rest).
    cbv iota beta.
    assert (E45 : (ch "-" =? 45)%N = true) by reflexivity. rewrite E45. cbv iota beta.
    change ((10 <? 0) || (0 <? 10) && (10 <? 2) || (36 <? 10))%Z with false.
    change ((10 =? 0) || (10 =? 16))%Z with false. cbv iota beta.
    change (Z.to_N 10) with 10%N. now rewrite Hscan.
  - assert (Htrim : trim_start (digit_chars (d :: ds) ++ rest)
                    = digit_char d :: digit_chars ds ++ rest).
    { cbn [digit_chars map app trim_start]. now rewrite Hws. }
    rewrite Htrim. cbv iota beta. rewrite Hm, Hp. cbv iota beta.
    change ((10 <? 0) || (0 <? 10) && (10 <? 2) || (36 <? 10))%Z with false.
    change ((10 =? 0) || (10 =? 16))%Z with false. cbv iota beta.
    change (Z.to_N 10) with 10%N.
    change (digit_char d :: digit_chars ds ++ rest) with (digit_chars (d :: ds) ++ rest).
    now rewrite Hscan.
Qed.

(** X19.  [parseInt] stops at the first character that is not a digit: a
    parameter made of an optional minus sign and decimal digits, followed
    by anything that does not start with a digit, is read as sign and
    digits alone are read, and [GET /api/users/:id] answers it as it
    answers sign and digits alone.  When the digits spell an integer up to
    [2 ^ 53], the parameter is read as exactly that integer, with the
    sign; a longer row of digits is read as the nearest binary64 value. *)
Theorem getById_decimal_prefix (neg : bool) (ds : list N) (rest : jsstring) :
  all_digits ds -> ds <> [] -> not_digit_next rest ->
  parseInt (with_sign neg (digit_chars ds ++ rest)) 10
  = parseInt (with_sign neg (digit_chars ds)) 10 /\
  ((Z.of_N (digits_val ds) <= 2 ^ 53)%Z ->
   parseInt (with_sign neg (digit_chars ds ++ rest)) 10
   = Int (if neg then - Z.of_N (digits_val ds) else Z.of_N (digits_val ds))) /\
  forall d, get_api_users_id d (with_sign neg (digit_chars ds ++ rest))
            = get_api_users_id d (with_sign neg (digit_chars ds)).
Proof.
  intros Hds Hne Hrest.
  pose proof (parseInt_decimal neg ds rest Hds Hne Hrest) as H1.
  pose proof (parseInt_decimal neg ds [] Hds Hne I) as H2.
  rewrite app_nil_r in H2. split; [now rewrite H1, H2|]. split.
  - intro Hle. rewrite H1. apply of_rational_small. lia.
  - intro d. unfold get_api_users_id. now rewrite H1, H2.
Qed.

Lemma digits_length (n : N) (b : nat) :
  (n < 10 ^ N.of_nat b)%N -> (length (digits n) <= Nat.max b 1)%nat.
Proof.
  intro H. destruct (N.eq_dec n 0) as [-> | Hn]; [simpl; lia|].
  destruct (digits_head n Hn) as (d & ds & E & Hd).
  pose proof (digits_val_digits n) as Hv. rewrite E, digits_val_cons in Hv.
  rewrite E. cbn [length].
  destruct (Nat.le_gt_cases (S (length ds)) b) as [Hle | Hgt]; [lia|].
  exfalso.
  assert (Hpow : (10 ^ N.of_nat b <= 10 ^ N.of_nat (length ds))%N)
    by (apply N.pow_le_mono_r; lia).
  assert (Hmul : (1 * 10 ^ N.of_nat (length ds) <= d * 10 ^ N.of_nat (length ds))%N)
    by (apply N.mul_le_mono_r; lia).
  lia.
Qed.

Lemma digit_chars_app (l1 l2 : list N) :
  digit_chars (l1 ++ l2) = digit_chars l1 ++ digit_chars l2.
Proof. apply map_app. Qed.

(** The text of a positive integer below [10^21] is the row of its
    digits. *)
Lemma format_digits_integer (n : N) :
  (n < 10 ^ 21)%N ->
  format_digits (strip_trailing_zeros (digits n)) (Z.of_nat (length (digits n)))
  = digit_chars (digits n).
Proof.
  intro H. pose proof (digits_length n 21 H) as Hlen.
  destruct (strip_trailing_zeros_app (digits n)) as [j Hj].
  set (ds := digits n) in *. set (s := strip_trailing_zeros ds) in *.
  assert (Hl : length ds = (length s + j)%nat).
  { rewrite Hj at 1. now rewrite length_app, length_zeros. }
  unfold format_digits.
  assert (E : ((Z.of_nat (length s) <=? Z.of_nat (length ds)) &&
               (Z.of_nat (length ds) <=? 21))%Z = true).
  { apply andb_true_intro. split; apply Z.leb_le; simpl in Hlen; lia. }
  rewrite E. replace (Z.to_nat (Z.of_nat (length ds) - Z.of_nat (length s))) with j by lia.
  now rewrite <- Hj.
Qed.

(** X20.  The id that a response prints leads back to the Record: for an
    integer in the safe range, [parseInt] reads the text that
    [JSON.stringify] writes for it as that integer. *)
Theorem parseInt_number_to_string (z : Z) :
  (Z.abs z <= 2 ^ 53)%Z ->
  parseInt (number_to_string (Int z)) 10 = Int z /\
  parseInt (JSON.stringify (VNum (Int z)) 0) 10 = Int z.
Proof.
  intro Hz.
  assert (H : parseInt (number_to_string (Int z)) 10 = Int z).
  { unfold number_to_string. destruct (z =? 0)%Z eqn:E0.
    - apply Z.eqb_eq in E0. now subst.
    - apply Z.eqb_neq in E0.
      assert (Hn : (Z.to_N (Z.abs z) < 10 ^ 21)%N).
      { change (10 ^ 21)%N with (Z.to_N (10 ^ 21)). apply Z2N.inj_lt; lia. }
      rewrite (format_digits_integer _ Hn).
      pose proof (parseInt_decimal (z <? 0)%Z (digits (Z.to_N (Z.abs z))) []
                    (digits_all _) (digits_nonempty _) I) as Hp.
      rewrite app_nil_r, digits_val_digits, Z2N.id in Hp by lia.
      rewrite Hp, of_rational_small by lia. f_equal.
      destruct (z <? 0)%Z eqn:En; [apply Z.ltb_lt in En | apply Z.ltb_ge in En]; lia. }
  split; [exact H | exact H].
Qed.

(* ===================================================================== *)
(** * The routes *)
(* ===================================================================== *)

Lemma split_slash_nonempty (s : jsstring) : split_slash s <> [].
Proof.
  destruct s as [|c s]; simpl; [discriminate|].
  destruct (c =? 47)%N; [discriminate|]. now destruct (split_slash s).
Qed.

Lemma split_slash_plain (a : jsstring) :
  Forall (fun c => c <> 47%N) a -> split_slash a = [a].
Proof.
  induction 1 as [|c a Hc _ IH]; [reflexivity|]. simpl.
  apply N.eqb_neq in Hc. now rewrite Hc, IH.
Qed.

Lemma split_slash_piece (a t : jsstring) :
  Forall (fun c => c <> 47%N) a ->
  split_slash (a ++ 47%N :: t) = a :: split_slash t.
Proof.
  induction 1 as [|c a Hc _ IH]; [reflexivity|]. cbn [app split_slash].
  apply N.eqb_neq in Hc. now rewrite Hc, IH.
Qed.

(** A path that the route [/api/users/:id] matches is matched by the
    route [/:api/:route/:variable]. *)
Lemma user_by_id_path_is_general (path : jsstring) (raw : list (string * jsstring)) :
  match_path [Lit "api"; Lit "users"; Param "id"] path = Some raw ->
  exists raw', match_path [Param "api"; Param "route"; Param "variable"] path = Some raw'.
Proof.
  unfold match_path. destruct path as [|c rest]; [discriminate|].
  destruct (c =? 47)%N; [|discriminate].
  destruct (split_slash rest) as [|s1 [|s2 [|s3 tail]]]; cbn [match_segments].
  - discriminate.
  - destruct (lit_eqb (str "api") s1); discriminate.
  - destruct (lit_eqb (str "api") s1); [|discriminate].
    destruct (lit_eqb (str "users") s2); discriminate.
  - destruct s1 as [|c1 s1]; [discriminate|].
    destruct (lit_eqb (str "api") (c1 :: s1)); [|discriminate].
    destruct s2 as [|c2 s2]; [discriminate|].
    destruct (lit_eqb (str "users") (c2 :: s2)); [|discriminate].
    destruct s3 as [|c3 s3]; [discriminate|].
    destruct tail as [|[|] [|]]; try discriminate; intros _; eexists; reflexivity.
Qed.

Section Routing.

Variable decodeURIComponent : jsstring -> option jsstring.

(** One step of the walk through the routes. *)
Lemma dispatch_in_step (m' : method) (pat : list segment) (h' : handler)
    (rs : list (method * list segment * handler)) (m : method) (path : jsstring)
    (h : handler) (ps : list (string * jsstring)) :
  dispatch_in decodeURIComponent ((m', pat, h') :: rs) m path = Found h ps ->
  (h = h' /\ m = m' /\
   exists raw, match_path pat path = Some raw /\
               decode_params decodeURIComponent raw = Some ps) \/
  ((match_path pat path = None \/ method_eqb m m' = false) /\
   dispatch_in decodeURIComponent rs m path = Found h ps).
Proof.
  cbn [dispatch_in]. destruct (match_path pat path) as [raw|]; [|now right; split; [left|]].
  destruct (decode_params decodeURIComponent raw) as [ps'|] eqn:Hdec; [|discriminate].
  destruct (method_eqb m m') eqn:E; [|now right; split; [right|]].
  intros [= <- <-]. left. split; [reflexivity|]. split; [now destruct m, m'|].
  exists raw. now split.
Qed.

(** The route that a request is sent to. *)
Lemma dispatch_in_route (rs : list (method * list segment * handler)) (m : method)
    (path : jsstring) (h : handler) (ps : list (string * jsstring)) :
  dispatch_in decodeURIComponent rs m path = Found h ps ->
  exists pat raw,
    In (m, pat, h) rs /\ match_path pat path = Some raw /\
    decode_params decodeURIComponent raw = Some ps.
Proof.
  induction rs as [|[[m' pat] h'] rs IH]; [discriminate|]. intro H.
  apply dispatch_in_step in H. destruct H as [(-> & -> & raw & Hm & Hd) | [_ H]].
  - exists pat, raw. split; [now left | now split].
  - destruct (IH H) as (pat' & raw & Hin & Hm & Hd).
    exists pat', raw. split; [now right | now split].
Qed.

(** X21.  The handler of [GET /api/users/:id] is never run: the route
    [/:api/:route/:variable], registered before it, takes every request
    that it could get. *)
Theorem user_by_id_shadowed (m : method) (path : jsstring) (h : handler)
    (ps : list (string * jsstring)) :
  dispatch decodeURIComponent m path = Found h ps -> h <> h_user_by_id.
Proof.
  intros H ->. unfold dispatch, routes in H.
  do 3 (apply dispatch_in_step in H; destruct H as [(E & _) | [_ H]]; [discriminate E|]).
  apply dispatch_in_step in H. destruct H as [(E & _) | [H4 H]]; [discriminate E|].
  apply dispatch_in_step in H. destruct H as [(_ & -> & raw & H5 & _) | [_ H]].
  - destruct H4 as [H4 | H4]; [|discriminate H4].
    destruct (user_by_id_path_is_general path raw H5) as [raw' H5'].
    rewrite H4 in H5'. discriminate.
  - do 6 (apply dispatch_in_step in H; destruct H as [(E & _) | [_ H]]; [discriminate E|]).
    discriminate H.
Qed.

(** X22.  Every [GET] request whose path has three segments is answered
    by the echo of [/:api/:route/:variable] with its three decoded
    segments, and changes nothing on the disk; the paths
    [/api/users/<id>] are among them. *)
Theorem three_segments_echo (ToNumber_other : value -> throws number) (d : disk)
    (a b c a' b' c' : jsstring) (body : option value) (w : write_outcome) :
  a <> [] -> b <> [] -> c <> [] ->
  Forall (fun x => x <> 47%N) a ->
  Forall (fun x => x <> 47%N) b ->
  Forall (fun x => x <> 47%N) c ->
  decodeURIComponent a = Some a' ->
  decodeURIComponent b = Some b' ->
  decodeURIComponent c = Some c' ->
  express_app ToNumber_other decodeURIComponent d
    {| req_method := GET; req_path := 47%N :: a ++ 47%N :: b ++ 47%N :: c;
       req_body := body |} w
  = (Handled (Responded (get_params a' b' c')), d).
Proof.
  intros Ha Hb Hc Sa Sb Sc Da Db Dc.
  assert (Hd : dispatch decodeURIComponent GET (47%N :: a ++ 47%N :: b ++ 47%N :: c)
               = Found h_params [("api"%string, a'); ("route"%string, b');
                                 ("variable"%string, c')]).
  { unfold dispatch, routes, dispatch_in, match_path.
    change (47 =? 47)%N with true. cbv iota.
    rewrite (split_slash_piece a _ Sa), (split_slash_piece b _ Sb), (split_slash_plain c Sc).
    destruct a as [|x a]; [congruence|]. destruct b as [|y b]; [congruence|].
    destruct c as [|z c]; [congruence|].
    cbn [match_segments].
    destruct (lit_eqb (str "get") (x :: a)); destruct (lit_eqb (str "users") (x :: a));
      destruct (lit_eqb (str "prettyusers") (x :: a));
      cbn [decode_params]; rewrite Da, Db, Dc; reflexivity. }
  unfold express_app. cbn [req_method req_path req_body]. rewrite Hd. reflexivity.
Qed.

Lemma handle_other (ToNumber_other : value -> throws number) (h : handler)
    (ps : list (string * jsstring)) (d : disk) (body : option value) (w : write_outcome) :
  h <> h_post_users -> snd (handle ToNumber_other h ps d body w) = d.
Proof. destruct h; try reflexivity. congruence. Qed.

(** X23.  Only [POST /users] writes: a request with another method, or
    with a path that the route [/users] does not match, leaves the disk as
    it was, whatever it is answered. *)
Theorem only_post_users_writes (ToNumber_other : value -> throws number) (d : disk)
    (rq : request) (w : write_outcome) :
  req_method rq <> POST \/ match_path [Lit "users"] (req_path rq) = None ->
  snd (express_app ToNumber_other decodeURIComponent d rq w) = d.
Proof.
  intro Hrq. unfold express_app.
  destruct (dispatch decodeURIComponent (req_method rq) (req_path rq)) as [h ps| |] eqn:Hd;
    [|reflexivity|reflexivity].
  assert (Hh : h <> h_post_users).
  { intros ->. apply dispatch_in_route in Hd. destruct Hd as (pat & raw & Hin & Hm & _).
    simpl in Hin.
    repeat (destruct Hin as [Hin | Hin]; [try discriminate Hin|]); [|destruct Hin].
    injection Hin as Em <-. destruct Hrq as [Hrq | Hrq]; congruence. }
  pose proof (handle_other ToNumber_other h ps d (req_body rq) w Hh) as Hs.
  destruct (handle ToNumber_other h ps d (req_body rq) w). exact Hs.
Qed.

(** X24.  No request touches a file other than [users.json]: whatever the
    method, the path and the body, [products.json], [orders.json] and every
    other file read as before. *)
Theorem other_files_untouched (ToNumber_other : value -> throws number) (d : disk)
    (rq : request) (w : write_outcome) (p : string) :
  p <> users_path ->
  snd (express_app ToNumber_other decodeURIComponent d rq w) p = d p.
Proof.
  intro Hp. unfold express_app.
  destruct (dispatch decodeURIComponent (req_method rq) (req_path rq)) as [h ps| |];
    [|reflexivity|reflexivity].
  destruct h; try reflexivity. cbn [handle].
  destruct (post_users_cases ToNumber_other d (body_value (req_body rq)) w)
    as [(data & users & nid & user & _ & _ & _ & _ & [[_ ->] | (remains & _ & ->)]) | [-> _]];
    cbn [snd]; [now apply store_other | now apply store_other | reflexivity].
Qed.

End Routing.

(** ** These theorems at sample inputs *)

Lemma new_body_no_own_id : no_own_id new_body.
Proof. split; [reflexivity|]. eexists. split; reflexivity. Qed.

Lemma two_users_safe : forall z, In z [3%Z; 7%Z] -> (- 2 ^ 53 <= z < 2 ^ 53)%Z.
Proof. intros z [<- | [<- | []]]; lia. Qed.

Lemma post_users_other_files_witness :
  three_users_disk products_path = two_users_disk products_path.
Proof.
  apply (post_users_other_files ToNumber_NaN two_users_disk new_body WriteOk products_path).
  discriminate.
Defined.

Lemma post_users_succeeds_witness :
  exists user,
    post_users ToNumber_NaN two_users_disk new_body WriteOk
    = (res_json 201 user,
       fs.store two_users_disk users_path
         (Some (JSON.stringify (VArr (two_users ++ [user])) 4))).
Proof.
  destruct (post_users_succeeds ToNumber_NaN two_users_disk (json two_users_text)
              two_users [3%Z; 7%Z] new_body eq_refl two_users_parsed two_users_ids)
    as (user & _ & H).
  - discriminate.
  - exists user. exact H.
Defined.

Lemma post_users_keeps_fields_witness :
  exists u, new_user = VObj u /\ obj_get (str "name") u = Some (VStr (str "Cy")).
Proof.
  destruct (post_users_keeps_fields ToNumber_NaN two_users_disk three_users_disk
              [(str "name", VStr (str "Cy"))] WriteOk new_user eq_refl new_user_posted)
    as (u & Hu & Hkeep & _).
  exists u. split; [exact Hu|]. apply Hkeep; [discriminate | reflexivity].
Defined.

Lemma post_users_role_truthy_witness :
  exists u r, new_user = VObj u /\ obj_get (str "role") u = Some r /\ truthy r = true.
Proof.
  exact (post_users_role_truthy ToNumber_NaN two_users_disk three_users_disk
           new_body WriteOk new_user new_user_posted).
Defined.

Lemma post_users_new_id_fresh_witness :
  exists n, record_id n new_user /\
            (forall z, In z [3%Z; 7%Z] -> (z < n)%Z) /\
            ([3%Z; 7%Z] = [] -> n = 1%Z).
Proof.
  exact (post_users_new_id_fresh ToNumber_NaN two_users_disk three_users_disk
           (json two_users_text) two_users [3%Z; 7%Z] new_body new_user WriteOk
           eq_refl two_users_parsed two_users_ids two_users_safe new_body_no_own_id
           new_user_posted).
Defined.

Lemma post_then_get_witness :
  get_api_users_id three_users_disk (str "8") = Responded (res_json 200 new_user).
Proof.
  apply (post_then_get ToNumber_NaN two_users_disk three_users_disk
           (json two_users_text) two_users [3%Z; 7%Z] new_body new_user WriteOk
           (str "8") 8
           eq_refl two_users_parsed two_users_ids two_users_safe new_body_no_own_id
           new_user_posted).
  - eexists. split; reflexivity.
  - reflexivity.
Defined.

Lemma post_keeps_other_answers_witness :
  get_api_users_id three_users_disk (str "7") = get_api_users_id two_users_disk (str "7").
Proof.
  apply (post_keeps_other_answers ToNumber_NaN two_users_disk three_users_disk
           (json two_users_text) two_users new_body new_user WriteOk (str "7")
           eq_refl two_users_parsed eq_refl eq_refl new_user_posted).
  reflexivity.
Defined.




Lemma getById_found_sound_witness :
  exists data l1 user l2,
    two_users_disk users_path = Some data /\
    JSON.parse data = Some (VArr (l1 ++ user :: l2)) /\
    has_id (parseInt (str "7") 10) user = Some true /\
    Forall (fun u => has_id (parseInt (str "7") 10) u = Some false) l1 /\
    parseInt (str "7") 10 <> NaN /\
    res_json 200 (VObj [(str "id", VNum (Int 7)); (str "name", VStr (str "Bob"))])
    = res_json 200 user /\
    (forall z, parseInt (str "7") 10 = Int z ->
               record_id z user /\ Forall (fun u => ~ record_id z u) l1).
Proof.
  apply (getById_found_sound two_users_disk (str "7")).
  - vm_compute. reflexivity.
  - reflexivity.
Defined.

Lemma post_users_bad_file_witness :
  post_users ToNumber_NaN (disk_of "{'users': []}") new_body WriteOk
  = (res_send 500 "Error processing request", disk_of "{'users': []}") /\
  (truthy (VObj [(str "users", VArr [])]) = true ->
   get_users (disk_of "{'users': []}") = res_json 200 (VObj [(str "users", VArr [])])).
Proof.
  apply (post_users_bad_file ToNumber_NaN (disk_of "{'users': []}") (json "{'users': []}")
           (VObj [(str "users", VArr [])]) new_body WriteOk eq_refl).
  - vm_compute. reflexivity.
  - left. discriminate.
Defined.


Lemma history_stuck_witness :
  history ToNumber_NaN (disk_of "{'users': []}") [(new_body, WriteOk); (VObj [], WriteOk)]
  = [disk_of "{'users': []}"; disk_of "{'users': []}"].
Proof.
  apply (history_stuck ToNumber_NaN (disk_of "{'users': []}")
           [(new_body, WriteOk); (VObj [], WriteOk)]).
  vm_compute. exact I.
Defined.

Lemma getById_decimal_prefix_witness :
  parseInt (str "7abc") 10 = parseInt (str "7") 10 /\
  ((7 <= 2 ^ 53)%Z -> parseInt (str "7abc") 10 = Int 7) /\
  forall d, get_api_users_id d (str "7abc") = get_api_users_id d (str "7").
Proof.
  apply (getById_decimal_prefix false [7%N] (str "abc")).
  - repeat constructor.
  - discriminate.
  - reflexivity.
Defined.

Lemma parseInt_number_to_string_witness :
  parseInt (number_to_string (Int 8)) 10 = Int 8 /\
  parseInt (JSON.stringify (VNum (Int 8)) 0) 10 = Int 8.
Proof.
  apply (parseInt_number_to_string 8). vm_compute. discriminate.
Defined.

Lemma user_by_id_shadowed_witness : h_params <> h_user_by_id.
Proof.
  apply (user_by_id_shadowed decode_plain GET (str "/api/users/7") h_params
           [("api"%string, str "api"); ("route"%string, str "users");
            ("variable"%string, str "7")]).
  reflexivity.
Defined.

Lemma three_segments_echo_witness :
  express_app ToNumber_NaN decode_plain two_users_disk
    {| req_method := GET; req_path := str "/api/users/7"; req_body := None |} WriteOk
  = (Handled (Responded (get_params (str "api") (str "users") (str "7"))), two_users_disk).
Proof.
  apply (three_segments_echo decode_plain ToNumber_NaN two_users_disk
           (str "api") (str "users") (str "7") (str "api") (str "users") (str "7")
           None WriteOk);
    first [discriminate | reflexivity | repeat constructor; discriminate].
Defined.

Lemma only_post_users_writes_witness :
  snd (express_app ToNumber_NaN decode_plain two_users_disk
         {| req_method := PUT; req_path := str "/api/putExample/7";
            req_body := Some new_body |} WriteOk)
  = two_users_disk.
Proof.
  apply (only_post_users_writes decode_plain ToNumber_NaN two_users_disk
           {| req_method := PUT; req_path := str "/api/putExample/7";
              req_body := Some new_body |} WriteOk).
  left. discriminate.
Defined.

Lemma other_files_untouched_witness :
  snd (express_app ToNumber_NaN decode_plain two_users_disk
         {| req_method := POST; req_path := str "/users"; req_body := Some new_body |}
         WriteOk) orders_path
  = two_users_disk orders_path.
Proof.
  apply (other_files_untouched decode_plain ToNumber_NaN two_users_disk
           {| req_method := POST; req_path := str "/users"; req_body := Some new_body |}
           WriteOk orders_path).
  discriminate.
Defined.
